(** * randomart: grammar-driven expression generation and frame rendering

  A shallow embedding of the Go packages [nodes] (expression nodes, their
  evaluation, the grammar and its weighted generator) and [render] (pixel
  evaluation, render options and the frame reassembly loop), followed by
  the properties established about them.

  Conventions.  Go's [int] is a 64-bit two's-complement integer and is
  modelled by [Z]; [float64] is IEEE-754 binary64 and is modelled by Rocq's
  primitive floats, so every definition below computes.  A Go function
  returning [(T, error)] returns an [outcome]: [Ok], [Err], or [Panic] for
  a run-time panic. *)

From Stdlib Require Import ZArith String List Bool Lia Floats.
From Stdlib Require Import Permutation Sorted Ascii Uint63.
Import ListNotations.

Set Warnings "-inexact-float".
Local Open Scope Z_scope.

(** ** The Go runtime: integers, floats, results *)

Module golang.

Definition int_min : Z := - 2 ^ 63.
Definition int_max : Z := 2 ^ 63 - 1.

(** Arithmetic on [int] wraps around modulo 2^64. *)
Definition wrap_int (z : Z) : Z := (z + 2 ^ 63) mod 2 ^ 64 - 2 ^ 63.

Definition float64 := float.

(** [float64(z)] for an integer [z]: the nearest binary64, ties to even. *)
Definition float64_of_int (z : Z) : float64 :=
  SF2Prim (binary_normalize prec emax z 0 false).

(** [int(f)] for a float [f]: truncation toward zero.  Go leaves the result
    open when the value does not fit; amd64 yields the smallest [int]. *)
Definition int_of_float64 (f : float64) : Z :=
  match Prim2SF f with
  | S754_zero _ => 0
  | S754_finite s m e =>
      let a := if 0 <=? e then Z.pos m * 2 ^ e else Z.pos m / 2 ^ (- e) in
      let v := if s then - a else a in
      if (int_min <=? v) && (v <=? int_max) then v else int_min
  | S754_infinity _ | S754_nan => int_min
  end.

(** [uint8(f)]: the low byte of the truncated value. *)
Definition uint8_of_float64 (f : float64) : Z := int_of_float64 f mod 256.

(** [cmp.Less] at type [float64]: NaN sorts before every number. *)
Definition cmp_Less (x y : float64) : bool :=
  (PrimFloat.is_nan x && negb (PrimFloat.is_nan y)) || PrimFloat.ltb x y.

(** [math.Mod x y]: the floating-point remainder of [x / y], exact, with the
    sign of [x].  NaN when [y] is zero, [x] is infinite or either is NaN;
    [x] itself when [y] is infinite. *)
Definition math_Mod (x y : float64) : float64 :=
  match Prim2SF x, Prim2SF y with
  | S754_nan, _ | _, S754_nan => PrimFloat.nan
  | S754_infinity _, _ => PrimFloat.nan
  | _, S754_zero _ => PrimFloat.nan
  | _, S754_infinity _ => x
  | S754_zero _, S754_finite _ _ _ => x
  | S754_finite sx mx ex, S754_finite _ my ey =>
      let e := Z.min ex ey in
      let r := (Z.pos mx * 2 ^ (ex - e)) mod (Z.pos my * 2 ^ (ey - e)) in
      SF2Prim (binary_normalize prec emax (if sx then - r else r) e sx)
  end.

(** The result of a Go call that returns a value and an [error], or panics. *)
Inductive outcome (E A : Type) : Type :=
| Ok (a : A)
| Err (e : E)
| Panic (msg : string).

Arguments Ok {E A} a.
Arguments Err {E A} e.
Arguments Panic {E A} msg.

Definition bind {E A B : Type} (m : outcome E A) (k : A -> outcome E B)
  : outcome E B :=
  match m with
  | Ok a => k a
  | Err e => Err e
  | Panic msg => Panic msg
  end.

Definition is_Ok {E A : Type} (m : outcome E A) : bool :=
  match m with Ok _ => true | _ => false end.

Definition is_Err {E A : Type} (m : outcome E A) : bool :=
  match m with Err _ => true | _ => false end.

(** The loop of [slices.BinarySearch]; [fuel] bounds the iterations. *)
Fixpoint BinarySearch_loop (x : list float64) (target : float64)
    (fuel : nat) (i j : Z) : Z :=
  match fuel with
  | O => i
  | S fuel' =>
      if i <? j then
        let h := Z.shiftr (i + j) 1 in
        if cmp_Less (nth (Z.to_nat h) x 0%float) target
        then BinarySearch_loop x target fuel' (h + 1) j
        else BinarySearch_loop x target fuel' i h
      else i
  end.

(** [slices.BinarySearch] on a slice of [float64].  The interval [i, j)
    shrinks at every iteration, so [len(x)] iterations are enough. *)
Definition BinarySearch (x : list float64) (target : float64) : Z * bool :=
  let n := Z.of_nat (length x) in
  let i := BinarySearch_loop x target (length x) 0 n in
  let xi := nth (Z.to_nat i) x 0%float in
  (i, (i <? n)
      && ((xi =? target)%float
          || (PrimFloat.is_nan xi && PrimFloat.is_nan target))).

(** The inner loop of Go's [insertionSortCmpFunc]: [x] moves left past every
    element it compares below.  [before] is the sorted prefix, nearest
    element first. *)
Fixpoint insertionSort_sift {E : Type} (cmp : E -> E -> Z) (x : E)
    (before : list E) : list E :=
  match before with
  | [] => [x]
  | y :: before' =>
      if cmp x y <? 0 then y :: insertionSort_sift cmp x before'
      else x :: before
  end.

Definition insertionSortCmpFunc {E : Type} (cmp : E -> E -> Z)
    (data : list E) : list E :=
  rev (fold_left (fun before x => insertionSort_sift cmp x before) data []).

(** [slices.SortFunc].  Go sorts a slice of at most 12 elements with
    [insertionSortCmpFunc], which is the whole of this model; on a longer
    slice Go's pattern-defeating quicksort returns the same list whenever
    [cmp] orders the elements strictly. *)
Definition slices_SortFunc {E : Type} (cmp : E -> E -> Z) (data : list E)
  : list E :=
  insertionSortCmpFunc cmp data.

(** Package [regexp], for the patterns of the shape [^[c1...cn]$]: a class
    of lower-case letters between the two anchors.  [regexp_MustCompile]
    gives the class ([None] for a pattern of another shape, which is outside
    this model).  Without the flag [m] the anchor [$] matches at the end of
    the text only, so the pattern matches the strings made of exactly one
    character of the class. *)
Definition isLowerLetter (c : ascii) : bool :=
  (97 <=? nat_of_ascii c)%nat && (nat_of_ascii c <=? 122)%nat.

Fixpoint regexp_classBody (s : string) : option (list ascii) :=
  match s with
  | String "]"%char (String "$"%char EmptyString) => Some []
  | String c s' =>
      if isLowerLetter c then option_map (cons c) (regexp_classBody s')
      else None
  | EmptyString => None
  end.

Definition regexp_MustCompile (pattern : string) : option (list ascii) :=
  match pattern with
  | String "^"%char (String "["%char body) =>
      match regexp_classBody body with
      | Some (c :: class) => Some (c :: class)
      | _ => None
      end
  | _ => None
  end.

Definition regexp_MatchString (class : list ascii) (s : string) : bool :=
  match s with
  | String c EmptyString => existsb (Ascii.eqb c) class
  | _ => false
  end.

End golang.

Import golang.

Notation "x <- m ;; k" := (bind m (fun x => k))
(at level 61, m at next level, right associativity).

(** ** Package nodes: expression nodes and their evaluation *)

Module nodes.

Definition componentType := string.

Definition xComponent : componentType := "x"%string.
Definition yComponent : componentType := "y"%string.
Definition fComponent : componentType := "f"%string.
Definition rComponent : componentType := "r"%string.
Definition gComponent : componentType := "g"%string.
Definition bComponent : componentType := "b"%string.

Definition componentTypes : list componentType :=
  [xComponent; yComponent; fComponent; rComponent; gComponent; bComponent].

(** [componentTypePattern]: the builder receives [[], each name, then []]. *)
Definition componentTypePattern : string :=
  (fold_left String.append componentTypes "[" ++ "]")%string.

Definition componentTypeRegex : option (list ascii) :=
  regexp_MustCompile ("^" ++ componentTypePattern ++ "$")%string.

(** [componentType.Valid] *)
Definition Valid (ct : componentType) : bool :=
  match componentTypeRegex with
  | Some class => regexp_MatchString class ct
  | None => false
  end.

Record State : Type := mkState {
  X : float64; Y : float64; F : float64;
  R : float64; G : float64; B : float64
}.

(** [State.component]: the switch has no default, so any other name falls
    through to the panic ([None] here). *)
Definition component_of (s : State) (c : componentType) : option float64 :=
  if String.eqb c xComponent then Some (X s)
  else if String.eqb c yComponent then Some (Y s)
  else if String.eqb c fComponent then Some (F s)
  else if String.eqb c rComponent then Some (R s)
  else if String.eqb c gComponent then Some (G s)
  else if String.eqb c bComponent then Some (B s)
  else None.

Record pos : Type := mkPos { file : string; line : Z }.

Definition opType := string.

Definition add : opType := "add"%string.
Definition sub : opType := "sub"%string.
Definition mul : opType := "mul"%string.
Definition div : opType := "div"%string.
Definition mod_ : opType := "mod"%string.
Definition gt : opType := "gt"%string.
Definition ge : opType := "ge"%string.
Definition lt : opType := "lt"%string.
Definition le : opType := "le"%string.

Definition opTypes : list opType :=
  [add; sub; mul; div; mod_; gt; ge; lt; le].

(** The implementations of the [Node] interface.  [value[float64]] and
    [value[bool]] are the two instances of the generic [value]. *)
Inductive Node : Type :=
| value_float64 (p : pos) (v : float64)
| value_bool (p : pos) (v : bool)
| component (p : pos) (ct : componentType)
| op (p : pos) (t : opType) (left right : Node)
| triple (p : pos) (one two three : Node)
| ifThenElse (p : pos) (cond then_ otherwise : Node).

Inductive notA : Type := number | boolean | root.

(** Errors of the package: a failed validation, an operator the switch of
    [op.Eval] does not handle, the three sentinel errors of the generator
    (each wrapped with its message arguments) and the two load errors of
    [Grammar.Gen]. *)
Inductive error : Type :=
| ValidationError (n : Node) (is_ : notA)
| ErrOperatorNotHandled (t : opType)
| ErrReachedMaxDepth (maxDepth : Z)
| ErrReachedMaxGenerationTries (tries : Z)
| ErrRuleDoesNotExist (name : string) (file_ : string) (line_ : Z)
| ErrDefinedMultipleTimes (name : string)
| ErrWeightsExceedOne (name : string) (total : float64).

Definition isNumber (n : Node) : outcome error float64 :=
  match n with
  | value_float64 _ v => Ok v
  | _ => Err (ValidationError n number)
  end.

Definition isBoolean (n : Node) : outcome error bool :=
  match n with
  | value_bool _ v => Ok v
  | _ => Err (ValidationError n boolean)
  end.

(** The value held by [result any] after the operator switch of [op.Eval]. *)
Inductive opResult : Type :=
| ResFloat (v : float64)
| ResBool (v : bool)
| ResNil.

Definition applyOp (t : opType) (leftN rightN : float64) : opResult :=
  if String.eqb t add then ResFloat (leftN + rightN)%float
  else if String.eqb t sub then ResFloat (leftN - rightN)%float
  else if String.eqb t mul then ResFloat (leftN * rightN)%float
  else if String.eqb t div then ResFloat (leftN / rightN)%float
  else if String.eqb t mod_ then ResFloat (math_Mod leftN rightN)
  else if String.eqb t gt then ResBool (rightN <? leftN)%float
  else if String.eqb t ge then ResBool (rightN <=? leftN)%float
  else if String.eqb t lt then ResBool (leftN <? rightN)%float
  else if String.eqb t le then ResBool (leftN <=? rightN)%float
  else ResNil.

Fixpoint Eval (n : Node) (state : State) : outcome error Node :=
  match n with
  | value_float64 _ _ => Ok n
  | value_bool _ _ => Ok n
  | component p ct =>
      match component_of state ct with
      | Some v => Ok (value_float64 p v)
      | None => Panic "not a valid component"
      end
  | op p t l r =>
      left <- Eval l state ;;
      right <- Eval r state ;;
      leftN <- isNumber left ;;
      rightN <- isNumber right ;;
      match applyOp t leftN rightN with
      | ResFloat v => Ok (value_float64 p v)
      | ResBool v => Ok (value_bool p v)
      | ResNil => Err (ErrOperatorNotHandled t)
      end
  | triple p a b c =>
      one <- Eval a state ;;
      two <- Eval b state ;;
      three <- Eval c state ;;
      Ok (triple p one two three)
  | ifThenElse p i t e =>
      cond <- Eval i state ;;
      c <- isBoolean cond ;;
      if c then Eval t state else Eval e state
  end.

Definition IsRoot (n : Node) : outcome error (float64 * float64 * float64) :=
  match n with
  | triple _ a b c =>
      one <- isNumber a ;;
      two <- isNumber b ;;
      three <- isNumber c ;;
      Ok (one, two, three)
  | _ => Err (ValidationError n root)
  end.

(** *** grammar.go: templates, productions and the generator *)

(** [lexer.Position] of the parser library. *)
Record Position : Type := mkPosition {
  Filename : string; Offset : Z; Line : Z; Column : Z
}.

Definition pToP (p : Position) : pos := mkPos (Filename p) (Line p).

(** The implementations of the [Alternate] interface (the templates). *)
Inductive Alternate : Type :=
| Number (Pos : Position) (Value : float64)
| Bool (Pos : Position) (Value : bool)
| Component (Pos : Position) (Component_ : componentType)
| Triplet (Pos : Position) (One Two Three : Alternate)
| Rule (Pos : Position) (Name_ : string)
| Random (Pos : Position) (Random_ : bool)
| Func (Pos : Position) (Operator : opType) (Left Right : Alternate)
| IfThenElse (Pos : Position) (If_ Then_ Else_ : Alternate).

Record AlternateWithProb : Type := mkAlternateWithProb {
  AlternateWithProb_Pos : Position;
  Alternate_ : Alternate;
  Probability : float64
}.

Record Production : Type := mkProduction {
  Production_Pos : Position;
  Name : string;
  Alternatives : list AlternateWithProb
}.

(** The resolved production: the [Production] it embeds, the total
    probability mass and the table of cumulative probabilities. *)
Record production : Type := mkproduction {
  Production_ : Production;
  max : float64;
  totals : list float64
}.

Record Grammar : Type := mkGrammar {
  Grammar_Pos : Position;
  Productions : list Production
}.

Record generatorStateOptions : Type := mkOptions {
  Seed : Z;
  MaxDepth : Z;
  MaxGenerationTries : Z
}.

(** [rand.Rand] of math/rand/v2 over a source of 64-bit values.  The source
    (a PCG seeded by [rand.NewPCG]) lies outside the repository: it is given
    by the value it returns at each draw, and [drawn] counts the draws made. *)
Record Rand : Type := mkRand { source : nat -> Z; drawn : nat }.

Definition Uint64 (r : Rand) : Z * Rand :=
  (source r (drawn r) mod 2 ^ 64, mkRand (source r) (Datatypes.S (drawn r))).

(** [Rand.Float64]: [float64(r.Uint64()<<11>>11) / (1<<53)]. *)
Definition Float64 (r : Rand) : float64 * Rand :=
  let (u, r') := Uint64 r in
  ((float64_of_int (Z.shiftr (Z.shiftl u 11 mod 2 ^ 64) 11)
    / 9007199254740992)%float, r').

(** The rule table [map[string]*production]: entries are only ever added
    under fresh names, so an association list holds it. *)
Definition ruleTable := list (string * production).

Fixpoint rules_get (name : string) (t : ruleTable) : option production :=
  match t with
  | [] => None
  | (k, v) :: t' => if String.eqb name k then Some v else rules_get name t'
  end.

Record GeneratorState : Type := mkGeneratorState {
  options : generatorStateOptions;
  seed : Rand;
  rules : ruleTable
}.

(** A generation step: it may advance the random source of the state. *)
Definition gen (A : Type) : Type :=
  GeneratorState -> outcome error A * GeneratorState.

Definition gen_ret {A : Type} (a : A) : gen A := fun s => (Ok a, s).

Definition gen_bind {A B : Type} (m : gen A) (k : A -> gen B) : gen B :=
  fun s =>
    match m s with
    | (Ok a, s') => k a s'
    | (Err e, s') => (Err e, s')
    | (Panic msg, s') => (Panic msg, s')
    end.

(** [state.seed.Float64()] *)
Definition seed_Float64 : gen float64 :=
  fun s =>
    let (u, r') := Float64 (seed s) in
    (Ok u, mkGeneratorState (options s) r' (rules s)).

(** [errors.Is(err, ErrRuleDoesNotExist)] *)
Definition errors_Is_ErrRuleDoesNotExist (e : error) : bool :=
  match e with ErrRuleDoesNotExist _ _ _ => true | _ => false end.

(** [errors.Is(err, ErrReachedMaxDepth)] *)
Definition errors_Is_ErrReachedMaxDepth (e : error) : bool :=
  match e with ErrReachedMaxDepth _ => true | _ => false end.

(** [errors.Is(err, ErrReachedMaxGenerationTries)] *)
Definition errors_Is_ErrReachedMaxGenerationTries (e : error) : bool :=
  match e with ErrReachedMaxGenerationTries _ => true | _ => false end.

Section Gen.

(** [rule.Gen(state, depth)] at the depth of the enclosing call. *)
Variable ruleGen : Production -> gen Node.

(** The [Gen] methods of the templates. *)
Fixpoint Alternate_Gen (f : Alternate) : gen Node :=
  match f with
  | Number p v => gen_ret (value_float64 (pToP p) v)
  | Bool p v => gen_ret (value_bool (pToP p) v)
  | Component p ct => gen_ret (component (pToP p) ct)
  | Triplet p a b c =>
      gen_bind (Alternate_Gen a) (fun one =>
      gen_bind (Alternate_Gen b) (fun two =>
      gen_bind (Alternate_Gen c) (fun three =>
      gen_ret (triple (pToP p) one two three))))
  | Rule p name =>
      fun s =>
        match rules_get name (rules s) with
        | None => (Err (ErrRuleDoesNotExist name (Filename p) (Line p)), s)
        | Some rule => ruleGen (Production_ rule) s
        end
  | Random p _ =>
      gen_bind seed_Float64 (fun u =>
      gen_ret (value_float64 (pToP p) (u * 2 - 1)%float))
  | Func p t l r =>
      gen_bind (Alternate_Gen l) (fun left =>
      gen_bind (Alternate_Gen r) (fun right =>
      gen_ret (op (pToP p) t left right)))
  | IfThenElse p i t e =>
      gen_bind (Alternate_Gen i) (fun cond =>
      gen_bind (Alternate_Gen t) (fun then_ =>
      gen_bind (Alternate_Gen e) (fun otherwise =>
      gen_ret (ifThenElse (pToP p) cond then_ otherwise))))
  end.

(** The index chosen by one try of [Production.Gen] for the draw [u]:
    [x := u * prod.max], the binary search, and the clamp. *)
Definition selectAlternative (p : Production) (prod : production)
    (u : float64) : Z :=
  let x := (u * max prod)%float in
  let aNo := fst (BinarySearch (totals prod) x) in
  Z.min aNo (Z.of_nat (length (Alternatives p)) - 1).

(** The body of the try loop up to the error test: draw, select, generate. *)
Definition Production_Gen_try (p : Production) (prod : production)
  : gen Node :=
  gen_bind seed_Float64 (fun u =>
    let aNo := selectAlternative p prod u in
    if aNo <? 0 then fun s => (Panic "index out of range", s)
    else
      match nth_error (Alternatives p) (Z.to_nat aNo) with
      | Some a => Alternate_Gen (Alternate_ a)
      | None => fun s => (Panic "index out of range", s)
      end).

(** [for try := 0; try < state.MaxGenerationTries; try++ { ... }] with
    [n] tries left, followed by the final [return]. *)
Fixpoint Production_Gen_loop (p : Production) (prod : production) (n : nat)
  : gen Node :=
  match n with
  | O => fun s =>
      (Err (ErrReachedMaxGenerationTries (MaxGenerationTries (options s))), s)
  | Datatypes.S n' => fun s =>
      match Production_Gen_try p prod s with
      | (Ok node, s') => (Ok node, s')
      | (Err err, s') =>
          if errors_Is_ErrRuleDoesNotExist err then (Err err, s')
          else Production_Gen_loop p prod n' s'
      | (Panic msg, s') => (Panic msg, s')
      end
  end.

End Gen.

(** [Production.Gen] with [depth] as a natural number: [O] stands for every
    [depth <= 0], and the templates of the chosen alternative are generated
    at [depth - 1]. *)
Fixpoint Production_Gen_rec (depth : nat) (p : Production) : gen Node :=
  match depth with
  | O => fun s => (Err (ErrReachedMaxDepth (MaxDepth (options s))), s)
  | Datatypes.S depth' => fun s =>
      match rules_get (Name p) (rules s) with
      | None => (Panic "rule does not exist: in it's own method?", s)
      | Some prod =>
          Production_Gen_loop (Production_Gen_rec depth') p prod
            (Z.to_nat (MaxGenerationTries (options s))) s
      end
  end.

Definition Production_Gen (p : Production) (depth : Z) : gen Node :=
  Production_Gen_rec (Z.to_nat depth) p.

(** The comparison handed to [slices.SortFunc] by [Grammar.Gen]. *)
Definition compareProbability (a b : AlternateWithProb) : Z :=
  int_of_float64 (Probability a - Probability b)%float.

(** The loop of [Grammar.Gen] that fills [prod.max] and [prod.totals]. *)
Fixpoint accumulate (name : string) (alts : list AlternateWithProb)
    (max_ : float64) (totals_ : list float64)
  : outcome error (float64 * list float64) :=
  match alts with
  | [] => Ok (max_, totals_)
  | a :: alts' =>
      let max' := (max_ + Probability a)%float in
      if (1 <? max')%float then Err (ErrWeightsExceedOne name max')
      else accumulate name alts' max' (totals_ ++ [max'])
  end.

(** The resolution loop of [Grammar.Gen] over the productions.  The sort
    works in place, so the loop also leaves the productions of the grammar
    with their alternatives reordered: they are returned with the table. *)
Fixpoint resolve (ps : list Production) (table : ruleTable)
  : outcome error (list Production * ruleTable) :=
  match ps with
  | [] => Ok ([], table)
  | p :: ps' =>
      match rules_get (Name p) table with
      | Some _ => Err (ErrDefinedMultipleTimes (Name p))
      | None =>
          let sorted := slices_SortFunc compareProbability (Alternatives p) in
          let p' := mkProduction (Production_Pos p) (Name p) sorted in
          mt <- accumulate (Name p) sorted 0%float [] ;;
          rest <- resolve ps'
                    ((Name p, mkproduction p' (fst mt) (snd mt)) :: table) ;;
          Ok (p' :: fst rest, snd rest)
      end
  end.

Definition defaultGeneratorStateOptions (now : Z) : generatorStateOptions :=
  mkOptions (now mod 2 ^ 64) 10 100.

(** [Grammar.Gen] once the options are applied.  [NewPCG seed1 seed2] is the
    stream of the source [rand.NewPCG(seed1, seed2)]. *)
Definition Grammar_Gen (NewPCG : Z -> Z -> nat -> Z) (g : Grammar)
    (opts : generatorStateOptions)
  : outcome error Node * option GeneratorState :=
  let rng := mkRand (NewPCG (Seed opts) ((Seed opts + 1) mod 2 ^ 64)) O in
  match resolve (Productions g) [] with
  | Err e => (Err e, None)
  | Panic msg => (Panic msg, None)
  | Ok (ps, table) =>
      let s := mkGeneratorState opts rng table in
      match ps with
      | [] => (Panic "index out of range", None)
      | p0 :: _ =>
          let (r, s') := Production_Gen p0 (MaxDepth opts) s in
          (r, Some s')
      end
  end.

(** A colour as [color.Color.RGBA] reports it: four 16-bit channels. *)
Record Color : Type := mkColor { cr : Z; cg : Z; cb : Z; ca : Z }.

(** [S]: the coordinate state of pixel [(x, y)] of frame [frame]. *)
Definition S (x y width height frame frames : Z) (src : Color) : State :=
  {| X := (float64_of_int x / float64_of_int (wrap_int (width - 1)) * 2 - 1)%float;
     Y := (float64_of_int y / float64_of_int (wrap_int (height - 1)) * 2 - 1)%float;
     F := (float64_of_int frame / float64_of_int (wrap_int (frames - 1)) * 2 - 1)%float;
     R := (float64_of_int (cr src) / 65535 * 2 - 1)%float;
     G := (float64_of_int (cg src) / 65535 * 2 - 1)%float;
     B := (float64_of_int (cb src) / 65535 * 2 - 1)%float |}.

End nodes.

(** ** Package render: pixels, frames, options and the reassembly loop *)

Module render.

(** [image.Rectangle] *)
Record Rectangle : Type := mkRectangle {
  MinX : Z; MinY : Z; MaxX : Z; MaxY : Z
}.

Definition Dx (r : Rectangle) : Z := wrap_int (MaxX r - MinX r).
Definition Dy (r : Rectangle) : Z := wrap_int (MaxY r - MinY r).

(** The source image, an [image.Image]: either an [*image.Uniform] or an
    image of another type with its bounds and its pixels. *)
Inductive Image : Type :=
| Uniform (c : nodes.Color)
| Bounded (bounds : Rectangle) (at_ : Z -> Z -> nodes.Color).

Definition Image_At (m : Image) (x y : Z) : nodes.Color :=
  match m with
  | Uniform c => c
  | Bounded _ at_ => at_ x y
  end.

Definition color_White : nodes.Color := nodes.mkColor 65535 65535 65535 65535.

(** [color.RGBA]: four 8-bit channels. *)
Record RGBA : Type := mkRGBA { R : Z; G : Z; B : Z; A : Z }.

(** [*image.RGBA]: the rectangle and one colour per pixel, row by row. *)
Record RGBAImage : Type := mkRGBAImage { Rect : Rectangle; Pix : list RGBA }.

Definition NewRGBA (r : Rectangle) : RGBAImage :=
  mkRGBAImage r (repeat (mkRGBA 0 0 0 0) (Z.to_nat (Dx r * Dy r))).

Fixpoint list_set {T : Type} (l : list T) (i : nat) (v : T) : list T :=
  match l, i with
  | [], _ => []
  | _ :: l', O => v :: l'
  | a :: l', S i' => a :: list_set l' i' v
  end.

(** [img.Set(x, y, c)]: nothing happens outside the rectangle. *)
Definition RGBA_Set (m : RGBAImage) (x y : Z) (c : RGBA) : RGBAImage :=
  let r := Rect m in
  if (MinX r <=? x) && (x <? MaxX r) && (MinY r <=? y) && (y <? MaxY r)
  then mkRGBAImage r
         (list_set (Pix m) (Z.to_nat ((y - MinY r) * Dx r + (x - MinX r))) c)
  else m.

Inductive contextError : Type := Canceled | DeadlineExceeded.

Inductive error : Type :=
| NodeError (e : nodes.error)
| ContextError (e : contextError)
| ErrFrameResultChannelClosed
| ErrFramesNegative
| ErrWidthNegative
| ErrHeightNegative
| DecodeError (msg : string).

Definition renderPoint (root : nodes.Node) (s : nodes.State)
  : outcome nodes.error RGBA :=
  root' <- nodes.Eval root s ;;
  rgb <- nodes.IsRoot root' ;;
  let '(r, g, b) := rgb in
  Ok (mkRGBA (uint8_of_float64 ((r + 1) / 2 * 255)%float)
             (uint8_of_float64 ((g + 1) / 2 * 255)%float)
             (uint8_of_float64 ((b + 1) / 2 * 255)%float)
             255).

(** [for i := range n] *)
Definition range (n : Z) : list Z := map Z.of_nat (seq 0 (Z.to_nat n)).

Definition points (width height : Z) : list (Z * Z) :=
  flat_map (fun y => map (fun x => (x, y)) (range width)) (range height).

Record renderOptions : Type := mkRenderOptions {
  opt_width : Z;
  opt_height : Z;
  opt_frames : Z;
  opt_src : option Image;
  opt_logger : bool
}.

Record frameResult : Type := mkFrameResult {
  frame : Z;
  img : option RGBAImage;
  err : option error
}.

(** The pixel loop of a frame job, over the points still to render. *)
Fixpoint frameJob_loop (root : nodes.Node) (options : renderOptions)
    (src : Image) (frame_ : Z) (pts : list (Z * Z)) (m : RGBAImage)
  : outcome nodes.error RGBAImage :=
  match pts with
  | [] => Ok m
  | (x, y) :: pts' =>
      c <- renderPoint root
             (nodes.S x y (opt_width options) (opt_height options)
                      frame_ (opt_frames options) (Image_At src x y)) ;;
      frameJob_loop root options src frame_ pts' (RGBA_Set m x y c)
  end.

(** The [process] function handed to the pool by [frames]: the result of
    the job of one frame, or nothing when the job panics. *)
Definition frameJob (root : nodes.Node) (options : renderOptions) (frame_ : Z)
  : option frameResult :=
  match opt_src options with
  | None => None
  | Some src =>
      let m := NewRGBA (mkRectangle 0 0 (opt_width options) (opt_height options)) in
      match frameJob_loop root options src frame_
              (points (opt_width options) (opt_height options)) m with
      | Ok m' => Some (mkFrameResult frame_ (Some m') None)
      | Err e => Some (mkFrameResult frame_ None (Some (NodeError e)))
      | Panic _ => None
      end
  end.

(** What the reassembly loop of [frames] receives in its [select]: the
    context is done, a result arrives, or the result channel is closed. *)
Inductive event : Type :=
| CtxDone (e : contextError)
| Result (r : frameResult)
| ResultsClosed.

(** What [frames] hands to [yield]. *)
Definition item : Type := (option RGBAImage * option error)%type.

(** How a call of the iterator ends for the events it was given: blocked in
    the [select] with no event left, returned from inside the loop, or past
    the loop with every frame emitted. *)
Inductive status : Type :=
| Waiting (expectedFrame : Z) (buf : list frameResult)
| Returned
| Completed.

(** [sortBuf] *)
Definition sortBuf (buf : list frameResult) : list frameResult :=
  slices_SortFunc (fun a b => wrap_int (frame a - frame b)) buf.

Section Frames.

(** The consumer: the body of the loop ranging over the frames, given the
    number of images it received before and the next image; [false] when
    the body leaves the loop, which makes [yield] return [false]. *)
Variable body : Z -> option RGBAImage -> bool.

(** [for len(buf) > 0 { ... }] after the expected frame was emitted.  The
    first component is [None] when [y] returned [false]. *)
Fixpoint drain (buf : list frameResult) (expectedFrame : Z) (out : list item)
  : option (Z * list frameResult) * list item :=
  match buf with
  | [] => (Some (expectedFrame, []), out)
  | f :: buf' =>
      if negb (frame f =? expectedFrame) then (Some (expectedFrame, buf), out)
      else
        let out' := out ++ [(img f, None)] in
        if body expectedFrame (img f)
        then drain buf' (wrap_int (expectedFrame + 1)) out'
        else (None, out')
  end.

(** [for expectedFrame < options.frames { select { ... } }] *)
Fixpoint frames_loop (nframes : Z) (events : list event) (expectedFrame : Z)
    (buf : list frameResult) (out : list item) : status * list item :=
  if expectedFrame <? nframes then
    match events with
    | [] => (Waiting expectedFrame buf, out)
    | CtxDone e :: _ => (Returned, out ++ [(None, Some (ContextError e))])
    | ResultsClosed :: _ =>
        (Returned, out ++ [(None, Some ErrFrameResultChannelClosed)])
    | Result result :: events' =>
        match err result with
        | Some e => (Returned, out ++ [(None, Some e)])
        | None =>
            if negb (frame result =? expectedFrame)
            then frames_loop nframes events' expectedFrame
                   (sortBuf (buf ++ [result])) out
            else
              let out' := out ++ [(img result, None)] in
              if body expectedFrame (img result) then
                match drain buf (wrap_int (expectedFrame + 1)) out' with
                | (Some (expectedFrame', buf'), out'') =>
                    frames_loop nframes events' expectedFrame' buf' out''
                | (None, out'') => (Returned, out'')
                end
              else (Returned, out')
        end
    end
  else (Completed, out).

(** [frames]: the sequence handed to the consumer for the events the
    reassembly loop receives.  The pool, its workers and the dispatcher are
    concurrent; they enter only through the order of the events. *)
Definition frames (options : renderOptions) (events : list event)
  : status * list item :=
  frames_loop (opt_frames options) events 0 [] [].

End Frames.

(** The events when the jobs of the frames [order] complete in that order. *)
Definition completions (root : nodes.Node) (options : renderOptions)
    (order : list Z) : list event :=
  flat_map (fun f => match frameJob root options f with
                     | Some r => [Result r]
                     | None => []
                     end) order.

Inductive RenderOption : Type :=
| WithResolution (width height : Z)
| WithFrames (frames_ : Z)
| WithSourceImage (decoded : Image + string)
| WithLogger.

(** One option applied to the options; [WithSourceImage] carries what
    [image.Decode] returned for its reader. *)
Definition applyOption (opt : RenderOption) (r : renderOptions)
  : renderOptions * option error :=
  match opt with
  | WithResolution w h =>
      (mkRenderOptions w h (opt_frames r) (opt_src r) (opt_logger r), None)
  | WithFrames n =>
      (mkRenderOptions (opt_width r) (opt_height r) n (opt_src r) (opt_logger r),
       None)
  | WithSourceImage (inl m) =>
      (mkRenderOptions (opt_width r) (opt_height r) (opt_frames r) (Some m)
         (opt_logger r), None)
  | WithSourceImage (inr msg) =>
      (mkRenderOptions (opt_width r) (opt_height r) (opt_frames r) None
         (opt_logger r), Some (DecodeError msg))
  | WithLogger =>
      (mkRenderOptions (opt_width r) (opt_height r) (opt_frames r) (opt_src r)
         true, None)
  end.

Fixpoint applyOptions (opts : list RenderOption) (r : renderOptions)
  : renderOptions * option error :=
  match opts with
  | [] => (r, None)
  | opt :: opts' =>
      match applyOption opt r with
      | (r', Some e) => (r', Some e)
      | (r', None) => applyOptions opts' r'
      end
  end.

(** [renderOptions.apply]: the options as they are left, with the error
    returned; [Panic] for the nil source. *)
Definition apply (r : renderOptions) (opts : list RenderOption)
  : outcome unit (renderOptions * option error) :=
  match applyOptions opts r with
  | (r1, Some e) => Ok (r1, Some e)
  | (r1, None) =>
      match opt_src r1 with
      | None => Panic "nil pointer dereference"
      | Some m =>
          let r2 :=
            match m with
            | Uniform _ => r1
            | Bounded b _ =>
                mkRenderOptions (Dx b) (Dy b) (opt_frames r1) (opt_src r1)
                  (opt_logger r1)
            end in
          if opt_frames r2 <=? 0 then Ok (r2, Some ErrFramesNegative)
          else if opt_width r2 <=? 0 then Ok (r2, Some ErrWidthNegative)
          else if opt_height r2 <=? 0 then Ok (r2, Some ErrHeightNegative)
          else Ok (r2, None)
      end
  end.

Definition defaultRenderOptions : renderOptions :=
  mkRenderOptions 400 400 1 (Some (Uniform color_White)) false.

(** [Render]: the first element of the sequence; the consumer stops there. *)
Definition Render (root : nodes.Node) (opts : list RenderOption)
    (events : list event) : outcome unit item :=
  res <- apply defaultRenderOptions opts ;;
  match res with
  | (_, Some e) => Ok (None, Some e)
  | (options, None) =>
      match snd (frames (fun _ _ => false) options events) with
      | [] => Ok (None, None)
      | first :: _ => Ok first
      end
  end.

Section RenderCallback.

(** The type of the errors of the callback. *)
Context {CE : Type}.

(** [callback(frameNo, frame)]: the error it returns, if any. *)
Variable callback : Z -> option RGBAImage -> option CE.

(** The body of the loop of [RenderCallback] as [frames] sees it: it goes on
    when the callback returns no error. *)
Definition callbackBody (frameNo : Z) (frame_ : option RGBAImage) : bool :=
  match callback frameNo frame_ with
  | None => true
  | Some _ => false
  end.

(** [for frame, err = range frames(...) { ... }] over the sequence handed
    over by [frames], with [frameNo] frames taken so far: the error the
    function returns with, if any. *)
Fixpoint callbackLoop (items : list item) (frameNo : Z)
  : option (error + CE) :=
  match items with
  | [] => None
  | (_, Some e) :: _ => Some (inl e)
  | (frame_, None) :: items' =>
      match callback frameNo frame_ with
      | Some e => Some (inr e)
      | None => callbackLoop items' (wrap_int (frameNo + 1))
      end
  end.

(** [RenderCallback]: [Some r] when it returns [r], an error or nil, and
    [None] when it still waits for a result after the events. *)
Definition RenderCallback (root : nodes.Node) (opts : list RenderOption)
    (events : list event) : outcome unit (option (option (error + CE))) :=
  res <- apply defaultRenderOptions opts ;;
  match res with
  | (_, Some e) => Ok (Some (Some (inl e)))
  | (options, None) =>
      let (st, out) := frames callbackBody options events in
      match callbackLoop out 0, st with
      | Some e, _ => Ok (Some (Some e))
      | None, Waiting _ _ => Ok None
      | None, _ => Ok (Some None)
      end
  end.

End RenderCallback.

End render.

(** ** Sample data used by the examples below *)

Local Open Scope string_scope.
Local Open Scope list_scope.
Local Open Scope Z_scope.

Definition samplePos : nodes.pos := nodes.mkPos "grammar.bnf" 1.

Definition samplePosition : nodes.Position :=
  nodes.mkPosition "grammar.bnf" 0 1 1.

Definition sampleState : nodes.State :=
  nodes.mkState 0%float 0%float 0%float 1%float 1%float 1%float.

(** [S ::= x %0.7 | y %0.3 .] *)
Definition grammar_x07_y03 : nodes.Grammar :=
  nodes.mkGrammar samplePosition
    [nodes.mkProduction samplePosition "S"
       [nodes.mkAlternateWithProb samplePosition
          (nodes.Component samplePosition "x") 0.7%float;
        nodes.mkAlternateWithProb samplePosition
          (nodes.Component samplePosition "y") 0.3%float]].

(** Whether the probabilities of a list of alternatives never decrease. *)
Fixpoint ascendingProbability (alts : list nodes.AlternateWithProb) : bool :=
  match alts with
  | a :: (b :: _) as alts' =>
      (nodes.Probability a <=? nodes.Probability b)%float
      && ascendingProbability alts'
  | _ => true
  end.

(** The width and height asked for by the [WithResolution] options of a
    list, the last one winning, over the values [wh] held before. *)
Fixpoint requestedResolution (opts : list render.RenderOption) (wh : Z * Z)
  : Z * Z :=
  match opts with
  | [] => wh
  | render.WithResolution w h :: opts' => requestedResolution opts' (w, h)
  | _ :: opts' => requestedResolution opts' wh
  end.

(** The source image supplied by the [WithSourceImage] options of a list,
    the last one winning, over the image [m] held before. *)
Fixpoint suppliedSource (opts : list render.RenderOption)
    (m : option render.Image) : option render.Image :=
  match opts with
  | [] => m
  | render.WithSourceImage (inl m') :: opts' => suppliedSource opts' (Some m')
  | render.WithSourceImage (inr _) :: opts' => suppliedSource opts' None
  | _ :: opts' => suppliedSource opts' m
  end.

Definition decodeFails (opt : render.RenderOption) : bool :=
  match opt with
  | render.WithSourceImage (inr _) => true
  | _ => false
  end.

(** Lists in strictly ascending, and strictly descending, order of a key. *)
Definition ascendingBy {E : Type} (key : E -> Z) : list E -> Prop :=
  StronglySorted (fun a b => key a < key b).

Definition descendingBy {E : Type} (key : E -> Z) : list E -> Prop :=
  StronglySorted (fun a b => key b < key a).

(** The elements handed to the consumer for a list of frame results: the
    image of each, with no error. *)
Definition image_items (rs : list render.frameResult) : list render.item :=
  map (fun r => (render.img r, @None render.error)) rs.

(** The consumer that takes every frame. *)
Definition takeAll : Z -> option render.RGBAImage -> bool := fun _ _ => true.

(** An element of the sequence that carries no error. *)
Definition is_image (it : render.item) : Prop := snd it = None.

(** [t] is not below [x] in the order of [cmp.Less]; for two numbers this
    is [t >= x]. *)
Definition atLeast (t x : float64) : bool := negb (cmp_Less t x).

(** The order of [float64] as a proposition. *)
Definition float_le (a b : float64) : Prop := (a <=? b)%float = true.

(** The entry of index [i] of a table of floats. *)
Definition entry (table : list float64) (i : Z) : float64 :=
  nth (Z.to_nat i) table 0%float.

(** Whether a template mentions a rule. *)
Fixpoint refersToRule (a : nodes.Alternate) : bool :=
  match a with
  | nodes.Rule _ _ => true
  | nodes.Triplet _ a b c => refersToRule a || refersToRule b || refersToRule c
  | nodes.Func _ _ l r => refersToRule l || refersToRule r
  | nodes.IfThenElse _ i t e =>
      refersToRule i || refersToRule t || refersToRule e
  | _ => false
  end.

(** Whether every rule a template mentions satisfies [defined]. *)
Fixpoint rulesDefined (defined : string -> bool) (a : nodes.Alternate)
  : bool :=
  match a with
  | nodes.Rule _ name => defined name
  | nodes.Triplet _ a b c =>
      rulesDefined defined a && rulesDefined defined b
      && rulesDefined defined c
  | nodes.Func _ _ l r => rulesDefined defined l && rulesDefined defined r
  | nodes.IfThenElse _ i t e =>
      rulesDefined defined i && rulesDefined defined t
      && rulesDefined defined e
  | _ => true
  end.

Definition isProductionOf (g : nodes.Grammar) (name : string) : bool :=
  existsb (String.eqb name) (map nodes.Name (nodes.Productions g)).

Definition inTable (table : nodes.ruleTable) (name : string) : bool :=
  match nodes.rules_get name table with Some _ => true | None => false end.

(** A grammar without base case: it has a production, every production has
    an alternative, and every alternative mentions a rule, all the rules
    mentioned being productions of the grammar.  The grammars whose
    productions are all self-recursive are of this kind. *)
Definition noBaseCase (g : nodes.Grammar) : Prop :=
  nodes.Productions g <> []
  /\ forall p, In p (nodes.Productions g) ->
       nodes.Alternatives p <> []
       /\ forall a, In a (nodes.Alternatives p) ->
            refersToRule (nodes.Alternate_ a) = true
            /\ rulesDefined (isProductionOf g) (nodes.Alternate_ a) = true.

(** The same property on a rule table: every entry is filed under the name
    of its production, with at least one alternative, all of them
    mentioning rules, each one in the table. *)
Definition tableWithoutBaseCase (table : nodes.ruleTable) : Prop :=
  forall name prod, nodes.rules_get name table = Some prod ->
    nodes.Name (nodes.Production_ prod) = name
    /\ nodes.Alternatives (nodes.Production_ prod) <> []
    /\ forall a, In a (nodes.Alternatives (nodes.Production_ prod)) ->
         refersToRule (nodes.Alternate_ a) = true
         /\ rulesDefined (inTable table) (nodes.Alternate_ a) = true.

(** A generator state over given options and a given rule table. *)
Definition stateOver (opts : nodes.generatorStateOptions)
    (table : nodes.ruleTable) (s : nodes.GeneratorState) : Prop :=
  nodes.options s = opts /\ nodes.rules s = table.

(** [n] tries of a production in a row, each failing with an error other
    than an undefined rule, lead from one state to another. *)
Inductive failedTries (ruleGen : nodes.Production -> nodes.gen nodes.Node)
    (p : nodes.Production) (prod : nodes.production)
  : nat -> nodes.GeneratorState -> nodes.GeneratorState -> Prop :=
| failedTries_O : forall s, failedTries ruleGen p prod O s s
| failedTries_S : forall n s e s1 s2,
    nodes.Production_Gen_try ruleGen p prod s = (Err e, s1) ->
    nodes.errors_Is_ErrRuleDoesNotExist e = false ->
    failedTries ruleGen p prod n s1 s2 ->
    failedTries ruleGen p prod (S n) s s2.

(** [S ::= S %1.0 .] *)
Definition grammar_S_S : nodes.Grammar :=
  nodes.mkGrammar samplePosition
    [nodes.mkProduction samplePosition "S"
       [nodes.mkAlternateWithProb samplePosition
          (nodes.Rule samplePosition "S") 1%float]].

(** [S ::= A %0.5 | 0 %0.5 .  A ::= A %1.0 .] *)
Definition grammar_S_A : nodes.Grammar :=
  nodes.mkGrammar samplePosition
    [nodes.mkProduction samplePosition "S"
       [nodes.mkAlternateWithProb samplePosition
          (nodes.Rule samplePosition "A") 0.5%float;
        nodes.mkAlternateWithProb samplePosition
          (nodes.Number samplePosition 0%float) 0.5%float];
     nodes.mkProduction samplePosition "A"
       [nodes.mkAlternateWithProb samplePosition
          (nodes.Rule samplePosition "A") 1%float]].

(** [S ::= {?, ?, ?} %1.0 .] *)
Definition grammar_random_triple : nodes.Grammar :=
  nodes.mkGrammar samplePosition
    [nodes.mkProduction samplePosition "S"
       [nodes.mkAlternateWithProb samplePosition
          (nodes.Triplet samplePosition
             (nodes.Random samplePosition true)
             (nodes.Random samplePosition true)
             (nodes.Random samplePosition true)) 1%float]].

(** A source whose every value is zero, and a source whose eighth value
    alone is the largest one. *)
Definition zeroSource (seed1 seed2 : Z) (n : nat) : Z := 0.

Definition lateHighSource (seed1 seed2 : Z) (n : nat) : Z :=
  if Nat.eqb n 7 then 2 ^ 64 - 1 else 0.

(** What a generation step returns when it must fail ([true]: an error
    that the try loop of the enclosing production retries) or must
    succeed ([false]). *)
Definition failsRetryably {A : Type} (b : bool) (r : outcome nodes.error A)
  : Prop :=
  if b then exists e, r = Err e /\ nodes.errors_Is_ErrRuleDoesNotExist e = false
  else exists a, r = Ok a.

Arguments failsRetryably : simpl never.

(** The colour of a triple of constants, whatever the coordinate state. *)
Definition constantColor (v1 v2 v3 : float64) : render.RGBA :=
  render.mkRGBA (uint8_of_float64 ((v1 + 1) / 2 * 255)%float)
                (uint8_of_float64 ((v2 + 1) / 2 * 255)%float)
                (uint8_of_float64 ((v3 + 1) / 2 * 255)%float) 255.

(** The exponent of the canonical binary64 representation of a number of
    magnitude below [2^e]. *)
Definition fexp64 (e : Z) : Z := Z.max (e - 53) (-1074).

(** A positive integer below 2^53 as a float: its digits moved to the top
    of the mantissa. *)
Definition topMantissa (k : positive) : positive :=
  Z.to_pos (Z.pos k * 2 ^ (53 - Z.pos (digits2_pos k))).

(** ** Kinds of nodes *)

(** What a node evaluates to: a number, a boolean, or a triple of numbers
    (a root). *)
Inductive kind : Type := KNumber | KBoolean | KTriple.

Definition kind_eqb (a b : kind) : bool :=
  match a, b with
  | KNumber, KNumber | KBoolean, KBoolean | KTriple, KTriple => true
  | _, _ => false
  end.

(** The operators of [op.Eval] whose result is a [float64], and those whose
    result is a [bool]. *)
Definition arithmeticOps : list nodes.opType :=
  [nodes.add; nodes.sub; nodes.mul; nodes.div; nodes.mod_].

Definition comparisonOps : list nodes.opType :=
  [nodes.gt; nodes.ge; nodes.lt; nodes.le].

Definition isOneOf (ts : list string) (t : string) : bool :=
  existsb (String.eqb t) ts.

(** The kind of a node, when its parts fit together: components are valid,
    operators are known and take numbers, a condition is a boolean and the
    two branches of an if-then-else have the same kind, and a triple holds
    three numbers. *)
Fixpoint kindOf (n : nodes.Node) : option kind :=
  match n with
  | nodes.value_float64 _ _ => Some KNumber
  | nodes.value_bool _ _ => Some KBoolean
  | nodes.component _ ct => if nodes.Valid ct then Some KNumber else None
  | nodes.op _ t l r =>
      match kindOf l, kindOf r with
      | Some KNumber, Some KNumber =>
          if isOneOf arithmeticOps t then Some KNumber
          else if isOneOf comparisonOps t then Some KBoolean
          else None
      | _, _ => None
      end
  | nodes.triple _ a b c =>
      match kindOf a, kindOf b, kindOf c with
      | Some KNumber, Some KNumber, Some KNumber => Some KTriple
      | _, _, _ => None
      end
  | nodes.ifThenElse _ i t e =>
      match kindOf i, kindOf t, kindOf e with
      | Some KBoolean, Some k1, Some k2 =>
          if kind_eqb k1 k2 then Some k1 else None
      | _, _, _ => None
      end
  end.

(** An evaluated node of a kind. *)
Definition hasKind (k : kind) (n : nodes.Node) : Prop :=
  match k with
  | KNumber => exists p v, n = nodes.value_float64 p v
  | KBoolean => exists p v, n = nodes.value_bool p v
  | KTriple => exists p p1 v1 p2 v2 p3 v3,
      n = nodes.triple p (nodes.value_float64 p1 v1)
            (nodes.value_float64 p2 v2) (nodes.value_float64 p3 v3)
  end.

(** Whether every component name of a node is valid. *)
Fixpoint componentsValid (n : nodes.Node) : bool :=
  match n with
  | nodes.value_float64 _ _ | nodes.value_bool _ _ => true
  | nodes.component _ ct => nodes.Valid ct
  | nodes.op _ _ l r => componentsValid l && componentsValid r
  | nodes.triple _ a b c =>
      componentsValid a && componentsValid b && componentsValid c
  | nodes.ifThenElse _ i t e =>
      componentsValid i && componentsValid t && componentsValid e
  end.

(** The nodes made of values only: numbers, booleans, and triples of
    such nodes. *)
Fixpoint evaluated (n : nodes.Node) : bool :=
  match n with
  | nodes.value_float64 _ _ | nodes.value_bool _ _ => true
  | nodes.triple _ a b c => evaluated a && evaluated b && evaluated c
  | _ => false
  end.

(** ** Colour channels *)

(** [f] holds on the [2^bits] integers from [base] on. *)
Fixpoint allBelow (bits : nat) (base : Z) (f : Z -> bool) : bool :=
  match bits with
  | O => f base
  | S b => allBelow b base f && allBelow b (base + 2 ^ Z.of_nat b) f
  end.

(** [float64(r)/0xFFFF*2 - 1], the conversion being the one of the
    processor. *)
Definition channelOf (r : Z) : float64 :=
  (PrimFloat.of_uint63 (Uint63.of_Z r) / 65535 * 2 - 1)%float.

Definition channelInRange (r : Z) : bool :=
  ((-1 <=? channelOf r) && (channelOf r <=? 1))%float.

(** The 8-bit channel [renderPoint] gives for the coordinate of the 8-bit
    channel [k] of an opaque source pixel, whose 16-bit value is
    [257 * k]. *)
Definition channelBack (k : Z) : Z :=
  uint8_of_float64 ((channelOf (257 * k) + 1) / 2 * 255)%float.

Definition channelBackWithinOne (k : Z) : bool :=
  (k - 1 <=? channelBack k) && (channelBack k <=? k).

(** The root [{r, g, b}]: the colour of the source pixel. *)
Definition rgbRoot : nodes.Node :=
  nodes.triple samplePos (nodes.component samplePos "r")
    (nodes.component samplePos "g") (nodes.component samplePos "b").

(** The pixel of a fresh [image.RGBA]. *)
Definition zeroRGBA : render.RGBA := render.mkRGBA 0 0 0 0.

(** ** Consumers of the sequence of frames *)

(** What a consumer receives of a sequence of elements when the body of
    its loop is [body]: the elements up to the first error, or up to the
    first image at which the body leaves the loop, [no] images having been
    taken before. *)
Fixpoint handedOver (body : Z -> option render.RGBAImage -> bool)
    (items : list render.item) (no : Z) : list render.item :=
  match items with
  | [] => []
  | (image, None) :: items' =>
      (image, None)
      :: (if body no image then handedOver body items' (wrap_int (no + 1))
          else [])
  | (image, Some e) :: _ => [(image, Some e)]
  end.

(** Whether the body leaves the loop at one of the elements. *)
Fixpoint stopsWithin (body : Z -> option render.RGBAImage -> bool)
    (items : list render.item) (no : Z) : bool :=
  match items with
  | [] => false
  | (image, None) :: items' =>
      if body no image then stopsWithin body items' (wrap_int (no + 1))
      else true
  | (_, Some _) :: _ => false
  end.

Definition isWaiting (st : render.status) : bool :=
  match st with render.Waiting _ _ => true | _ => false end.

(** ** States and tables of the generator *)

(** The state after [k] more draws from its source. *)
Definition advance (s : nodes.GeneratorState) (k : nat)
  : nodes.GeneratorState :=
  nodes.mkGeneratorState (nodes.options s)
    (nodes.mkRand (nodes.source (nodes.seed s))
       (nodes.drawn (nodes.seed s) + k))
    (nodes.rules s).

(** The number of [?] of a template. *)
Fixpoint countRandom (a : nodes.Alternate) : nat :=
  match a with
  | nodes.Random _ _ => 1
  | nodes.Triplet _ a b c => countRandom a + countRandom b + countRandom c
  | nodes.Func _ _ l r => countRandom l + countRandom r
  | nodes.IfThenElse _ i t e => countRandom i + countRandom t + countRandom e
  | _ => 0
  end.

(** Whether every component name of a template is valid. *)
Fixpoint templateComponentsValid (a : nodes.Alternate) : bool :=
  match a with
  | nodes.Component _ ct => nodes.Valid ct
  | nodes.Triplet _ a b c =>
      templateComponentsValid a && templateComponentsValid b
      && templateComponentsValid c
  | nodes.Func _ _ l r =>
      templateComponentsValid l && templateComponentsValid r
  | nodes.IfThenElse _ i t e =>
      templateComponentsValid i && templateComponentsValid t
      && templateComponentsValid e
  | _ => true
  end.

(** One state follows another in a generation: the options, the rule
    table and the source are the same, and no draw is taken back. *)
Definition follows (s0 s : nodes.GeneratorState) : Prop :=
  nodes.options s = nodes.options s0
  /\ nodes.rules s = nodes.rules s0
  /\ nodes.source (nodes.seed s) = nodes.source (nodes.seed s0)
  /\ (nodes.drawn (nodes.seed s0) <= nodes.drawn (nodes.seed s))%nat.

(** A rule table whose entries are filed under the names of their
    productions, each with at least one alternative. *)
Definition wellFormedTable (table : nodes.ruleTable) : Prop :=
  forall name prod, nodes.rules_get name table = Some prod ->
    nodes.Name (nodes.Production_ prod) = name
    /\ nodes.Alternatives (nodes.Production_ prod) <> [].

(** What a result must satisfy: a value satisfies [goodA], and a panic is
    admitted only when [panics] says so. *)
Definition post (panics : bool) {A : Type} (goodA : A -> Prop)
    (r : outcome nodes.error A) : Prop :=
  match r with
  | Ok a => goodA a
  | Err _ => True
  | Panic _ => panics = true
  end.

(** A generation step keeps the invariant [Inv] of the state and gives a
    result that satisfies [post]. *)
Definition keeps (Inv : nodes.GeneratorState -> Prop) (panics : bool)
    {A : Type} (goodA : A -> Prop) (m : nodes.gen A) : Prop :=
  forall s, Inv s -> Inv (snd (m s)) /\ post panics goodA (fst (m s)).

(** [S ::= A %1.0 .], where no production defines [A]. *)
Definition grammar_S_undefined : nodes.Grammar :=
  nodes.mkGrammar samplePosition
    [nodes.mkProduction samplePosition "S"
       [nodes.mkAlternateWithProb samplePosition
          (nodes.Rule samplePosition "A") 1%float]].

(** The sums [m + p1], [m + p1 + p2], ... computed from left to right. *)
Fixpoint runningTotals (m : float64) (ps : list float64) : list float64 :=
  match ps with
  | [] => []
  | p :: ps' => (m + p)%float :: runningTotals (m + p)%float ps'
  end.

(** The alternatives of a production as [Grammar.Gen] leaves them. *)
Definition sortedAlternatives (p : nodes.Production)
  : list nodes.AlternateWithProb :=
  slices_SortFunc nodes.compareProbability (nodes.Alternatives p).

Definition notAboveOne (t : float64) : bool := negb (1 <? t)%float.

(** No running total of the probabilities of a production is above one. *)
Definition weightsWithinOne (p : nodes.Production) : bool :=
  forallb notAboveOne
    (runningTotals 0%float (map nodes.Probability (sortedAlternatives p))).

(** The entry [Grammar.Gen] files for a production. *)
Definition resolved (p : nodes.Production) : nodes.production :=
  let alts := sortedAlternatives p in
  let totals := runningTotals 0%float (map nodes.Probability alts) in
  nodes.mkproduction
    (nodes.mkProduction (nodes.Production_Pos p) (nodes.Name p) alts)
    (last totals 0%float) totals.

(** ** Weights of the alternatives *)

(** [S ::= x %0.5 | y %-0.3 | f %0.4 .]: the lexer takes a sign before a
    number, and the resolution only refuses a total above one. *)
Definition grammar_negative_weight : nodes.Grammar :=
  nodes.mkGrammar samplePosition
    [nodes.mkProduction samplePosition "S"
       [nodes.mkAlternateWithProb samplePosition
          (nodes.Component samplePosition "x") 0.5%float;
        nodes.mkAlternateWithProb samplePosition
          (nodes.Component samplePosition "y") (-0.3)%float;
        nodes.mkAlternateWithProb samplePosition
          (nodes.Component samplePosition "f") 0.4%float]].

(** [S ::= x %0 .] *)
Definition grammar_zero_weight : nodes.Grammar :=
  nodes.mkGrammar samplePosition
    [nodes.mkProduction samplePosition "S"
       [nodes.mkAlternateWithProb samplePosition
          (nodes.Component samplePosition "x") 0%float]].

(** [S ::= x %-0.5 .] *)
Definition grammar_negative_mass : nodes.Grammar :=
  nodes.mkGrammar samplePosition
    [nodes.mkProduction samplePosition "S"
       [nodes.mkAlternateWithProb samplePosition
          (nodes.Component samplePosition "x") (-0.5)%float]].

(** [S ::= x %0.2 | y %0.3 | f %0.5 .] *)
Definition grammar_three_weights : nodes.Grammar :=
  nodes.mkGrammar samplePosition
    [nodes.mkProduction samplePosition "S"
       [nodes.mkAlternateWithProb samplePosition
          (nodes.Component samplePosition "x") 0.2%float;
        nodes.mkAlternateWithProb samplePosition
          (nodes.Component samplePosition "y") 0.3%float;
        nodes.mkAlternateWithProb samplePosition
          (nodes.Component samplePosition "f") 0.5%float]].

(** A source that returns [k] at every draw, whatever its seeds. *)
Definition constantSource (k : Z) (seed1 seed2 : Z) (n : nat) : Z := k.

(** No weight of the alternatives is negative. *)
Definition weightsNotNegative (alts : list nodes.AlternateWithProb) : Prop :=
  forall a, In a alts -> (0 <=? nodes.Probability a)%float = true.

(** One and the smallest normal number, as the specification of floats
    has them. *)
Definition SF64one : spec_float := S754_finite false 4503599627370496 (-52).
Definition SF64minNormal : spec_float :=
  S754_finite false 4503599627370496 (-1074).

(** What is left of [P] after [k] right shifts: the record holds the
    quotient, its two flags are clear exactly when nothing was lost, and
    its round bit is set only when at least half a unit was lost. *)
Definition shifted (P k : Z) (mrs : shr_record) : Prop :=
  shr_m mrs = P / 2 ^ k
  /\ (orb (shr_r mrs) (shr_s mrs) = false <-> P mod 2 ^ k = 0)
  /\ (shr_r mrs = true -> 1 <= k /\ 2 ^ (k - 1) <= P mod 2 ^ k).

(** The end of [binary_round_aux] on a rounded mantissa [m2] at exponent
    [e1]. *)
Definition finish (m2 e1 : Z) : spec_float :=
  let e3 := e1 + Z.max (fexp64 (Zdigits2 m2 + e1) - e1) 0 in
  match m2 / 2 ^ (e3 - e1) with
  | Z0 => S754_zero false
  | Zpos m => if e3 <=? 971 then S754_finite false m e3 else S754_infinity false
  | Zneg _ => S754_nan
  end.

(** * Properties *)

(** ** Evaluation of expression nodes *)

Lemma Eval_value_float64 : forall p v state,
  nodes.Eval (nodes.value_float64 p v) state = Ok (nodes.value_float64 p v).
Proof. reflexivity. Qed.

Lemma Eval_value_bool : forall p v state,
  nodes.Eval (nodes.value_bool p v) state = Ok (nodes.value_bool p v).
Proof. reflexivity. Qed.

Lemma isBoolean_Ok : forall n b,
  nodes.isBoolean n = Ok b -> exists p, n = nodes.value_bool p b.
Proof.
  intros n b H; destruct n; simpl in H; try discriminate.
  injection H as ->; eauto.
Qed.

(** C6: an if-then-else node whose condition evaluates to a boolean returns
    the evaluation of the branch the boolean selects, whatever the other
    branch is: with a true condition the result is that of the then branch
    even if the else branch alone fails or panics, and symmetrically. *)
Theorem ifThenElse_Eval_short_circuit :
  forall state p cond then_ otherwise pc c,
    nodes.Eval cond state = Ok (nodes.value_bool pc c) ->
    nodes.Eval (nodes.ifThenElse p cond then_ otherwise) state
    = nodes.Eval (if c then then_ else otherwise) state.
Proof.
  intros state p cond then_ otherwise pc c Hcond.
  simpl. rewrite Hcond. simpl. destruct c; reflexivity.
Qed.

(** The condition is true, the else branch names a component that does not
    exist (its evaluation panics), and the node evaluates to the then
    branch without error. *)
Lemma ifThenElse_Eval_short_circuit_witness :
  nodes.Eval (nodes.component samplePos "undefined") sampleState
    = Panic "not a valid component"
  /\ nodes.Eval
       (nodes.ifThenElse samplePos (nodes.value_bool samplePos true)
          (nodes.value_float64 samplePos 1%float)
          (nodes.component samplePos "undefined")) sampleState
     = Ok (nodes.value_float64 samplePos 1%float).
Proof.
  split; [reflexivity|].
  exact (ifThenElse_Eval_short_circuit sampleState samplePos
           (nodes.value_bool samplePos true)
           (nodes.value_float64 samplePos 1%float)
           (nodes.component samplePos "undefined") samplePos true eq_refl).
Defined.

(** With a true condition the else branch has no part in the result. *)
Corollary ifThenElse_Eval_ignores_otherwise :
  forall state p cond then_ otherwise otherwise' pc,
    nodes.Eval cond state = Ok (nodes.value_bool pc true) ->
    nodes.Eval (nodes.ifThenElse p cond then_ otherwise) state
    = nodes.Eval (nodes.ifThenElse p cond then_ otherwise') state.
Proof.
  intros. simpl. rewrite H. reflexivity.
Qed.

(** ** The coordinate state *)

(** C2: on an axis with a single element the index is divided by
    [float64(N-1) = 0]; for a 1x1 image of a single frame the three
    coordinates of the only pixel are NaN, not one of the constants 0, -1. *)
Theorem S_single_element_axis_is_NaN :
  let s := nodes.S 0 0 1 1 0 1 render.color_White in
  PrimFloat.is_nan (nodes.X s) = true
  /\ PrimFloat.is_nan (nodes.Y s) = true
  /\ PrimFloat.is_nan (nodes.F s) = true
  /\ (nodes.X s =? 0)%float = false
  /\ (nodes.X s =? -1)%float = false.
Proof. vm_compute. repeat split. Qed.

(** On an axis with more elements the ends are mapped to -1 and 1. *)
Example S_two_by_two_corners :
  let s := nodes.S 1 0 2 2 0 1 render.color_White in
  nodes.X s = 1%float /\ nodes.Y s = (-1)%float.
Proof. vm_compute. split; reflexivity. Qed.

(** ** Resolution of the grammar *)

(** The comparison of two alternatives truncates the difference of their
    probabilities to an integer: it is zero whenever they differ by less
    than one. *)
Example compareProbability_07_03 :
  nodes.compareProbability
    (nodes.mkAlternateWithProb samplePosition
       (nodes.Component samplePosition "x") 0.7%float)
    (nodes.mkAlternateWithProb samplePosition
       (nodes.Component samplePosition "y") 0.3%float) = 0
  /\ nodes.compareProbability
       (nodes.mkAlternateWithProb samplePosition
          (nodes.Component samplePosition "y") 0.3%float)
       (nodes.mkAlternateWithProb samplePosition
          (nodes.Component samplePosition "x") 0.7%float) = 0.
Proof. vm_compute. split; reflexivity. Qed.

(** C3: the grammar [S ::= x %0.7 | y %0.3 .] is accepted by the resolution
    step, which leaves the alternatives of [S] in the order 0.7, 0.3: they
    are not in ascending order of probability. *)
Theorem resolve_leaves_alternatives_unsorted :
  exists p table,
    nodes.resolve (nodes.Productions grammar_x07_y03) [] = Ok ([p], table)
    /\ nodes.rules_get "S" table
       = Some (nodes.mkproduction p 1%float [0.7%float; 1%float])
    /\ map nodes.Probability (nodes.Alternatives p) = [0.7%float; 0.3%float]
    /\ ascendingProbability (nodes.Alternatives p) = false.
Proof.
  eexists. eexists. vm_compute. repeat split.
Qed.

(** ** Render options *)

Lemma applyOptions_spec : forall opts r r',
  render.applyOptions opts r = (r', None) ->
  (render.opt_width r', render.opt_height r')
  = requestedResolution opts (render.opt_width r, render.opt_height r)
  /\ render.opt_src r' = suppliedSource opts (render.opt_src r)
  /\ forallb (fun o => negb (decodeFails o)) opts = true.
Proof.
  induction opts as [|opt opts IH]; intros r r' H; simpl in H.
  - injection H as <-. repeat split.
  - destruct opt as [w h|n|[m|msg]|]; simpl in H; try discriminate;
      apply IH in H; simpl in *; exact H.
Qed.

(** C10: when every option applies without error, a source image that is
    not uniform gives the options its own width and height ([Dx] and [Dy]
    of its bounds) whatever resolution was requested; the requested
    resolution is kept only when the source is a uniform image, as the
    default white source is. *)
Theorem apply_source_image_overrides_resolution :
  forall opts r r' e,
    render.apply r opts = Ok (r', e) ->
    forallb (fun o => negb (decodeFails o)) opts = true ->
    render.opt_src r' = suppliedSource opts (render.opt_src r)
    /\ match render.opt_src r' with
       | Some (render.Bounded b _) =>
           render.opt_width r' = render.Dx b
           /\ render.opt_height r' = render.Dy b
       | Some (render.Uniform _) =>
           (render.opt_width r', render.opt_height r')
           = requestedResolution opts (render.opt_width r, render.opt_height r)
       | None => False
       end.
Proof.
  intros opts r r' e H Hdec. unfold render.apply in H.
  destruct (render.applyOptions opts r) as [r1 [e1|]] eqn:Happ.
  - exfalso. clear H. revert r r1 e1 Happ Hdec.
    induction opts as [|opt opts IH]; intros r r1 e1 Happ Hdec;
      simpl in Happ; [discriminate|].
    simpl in Hdec. apply andb_true_iff in Hdec as [Ho Hdec].
    destruct opt as [w h|n|[m|msg]|]; simpl in *; try discriminate;
      eapply IH; eauto.
  - apply applyOptions_spec in Happ as (Hwh & Hsrc & _).
    destruct (render.opt_src r1) as [m|] eqn:Hm; [|discriminate].
    cbv zeta in H.
    assert (Hr' : r' = match m with
                       | render.Uniform _ => r1
                       | render.Bounded b _ =>
                           render.mkRenderOptions (render.Dx b) (render.Dy b)
                             (render.opt_frames r1) (Some m)
                             (render.opt_logger r1)
                       end).
    { repeat match type of H with
             | (if ?c then _ else _) = _ => destruct c
             end; injection H as <- _; reflexivity. }
    subst r'. destruct m as [c|b at_]; simpl.
    + rewrite Hm. split; [exact Hsrc | exact Hwh].
    + split; [exact Hsrc | split; reflexivity].
Qed.

(** A 640x480 source image is supplied and a resolution of 100x100 is
    requested after it: the options end up 640 wide and 480 high. *)
Lemma apply_source_image_overrides_resolution_witness :
  let m := render.Bounded (render.mkRectangle 0 0 640 480)
             (fun _ _ => render.color_White) in
  let opts := [render.WithSourceImage (inl m); render.WithResolution 100 100] in
  let r' := render.mkRenderOptions 640 480 1 (Some m) false in
  render.apply render.defaultRenderOptions opts = Ok (r', None)
  /\ render.opt_src r' = Some m
  /\ render.opt_width r' = 640 /\ render.opt_height r' = 480.
Proof.
  intros m opts r'.
  assert (H : render.apply render.defaultRenderOptions opts = Ok (r', None))
    by reflexivity.
  split; [exact H|].
  destruct (apply_source_image_overrides_resolution opts
              render.defaultRenderOptions r' None H eq_refl) as [Hs Hwh].
  split; [exact Hs|]. exact Hwh.
Defined.

(** ** The insertion sort behind [slices.SortFunc] *)

Section InsertionSort.

Context {E : Type} (cmp : E -> E -> Z).

Lemma insertionSort_sift_Permutation : forall x before,
  Permutation (insertionSort_sift cmp x before) (x :: before).
Proof.
  induction before as [|y before IH]; simpl; [reflexivity|].
  destruct (cmp x y <? 0); [|reflexivity].
  rewrite IH. apply perm_swap.
Qed.

Lemma insertionSort_fold_Permutation : forall data before,
  Permutation
    (fold_left (fun b x => insertionSort_sift cmp x b) data before)
    (data ++ before).
Proof.
  induction data as [|x data IH]; intros before; simpl; [reflexivity|].
  rewrite IH, insertionSort_sift_Permutation.
  symmetry. apply Permutation_middle.
Qed.

Lemma slices_SortFunc_Permutation : forall data,
  Permutation (slices_SortFunc cmp data) data.
Proof.
  intro data. unfold slices_SortFunc, insertionSortCmpFunc.
  rewrite <- Permutation_rev, insertionSort_fold_Permutation.
  now rewrite app_nil_r.
Qed.

(** When [cmp] decides the order of the keys of the elements in [dom],
    and the keys are pairwise distinct, the result is strictly ascending. *)
Variable key : E -> Z.
Variable dom : E -> Prop.
Hypothesis cmp_key : forall a b,
  dom a -> dom b -> (cmp a b <? 0) = (key a <? key b).


Lemma insertionSort_sift_descending : forall x before,
  descendingBy key before ->
  dom x -> Forall dom before ->
  ~ In (key x) (map key before) ->
  descendingBy key (insertionSort_sift cmp x before).
Proof.
  induction before as [|y before IH]; intros Hd Hx Hb Hnew; simpl.
  - constructor; constructor.
  - apply StronglySorted_inv in Hd as [Hd Hy].
    inversion Hb as [|? ? Hdy Hb']; subst.
    assert (Hxy : key x <> key y) by (intro Heq; apply Hnew; left; auto).
    rewrite cmp_key by assumption.
    destruct (key x <? key y) eqn:Hlt.
    + apply Z.ltb_lt in Hlt. constructor.
      * apply IH; auto. intro Hin; apply Hnew; right; exact Hin.
      * eapply Permutation_Forall;
          [symmetry; apply insertionSort_sift_Permutation|].
        constructor; assumption.
    + apply Z.ltb_ge in Hlt. constructor.
      * constructor; assumption.
      * constructor; [lia|].
        eapply Forall_impl; [|exact Hy]. simpl; intros; lia.
Qed.

Lemma insertionSort_fold_descending : forall data before,
  descendingBy key before ->
  Forall dom (data ++ before) ->
  NoDup (map key (data ++ before)) ->
  descendingBy key
    (fold_left (fun b x => insertionSort_sift cmp x b) data before).
Proof.
  induction data as [|x data IH]; intros before Hd Hdom Hnd; simpl;
    [exact Hd|].
  simpl in Hdom, Hnd. inversion Hdom as [|? ? Hx Hdom']; subst.
  inversion Hnd as [|? ? Hnotin Hnd']; subst.
  rewrite map_app in Hnotin, Hnd'.
  apply Forall_app in Hdom' as [Hdata Hbefore].
  assert (Hperm : Permutation (data ++ insertionSort_sift cmp x before)
                              (data ++ x :: before))
    by (apply Permutation_app_head, insertionSort_sift_Permutation).
  apply IH.
  - apply insertionSort_sift_descending; auto.
    intro Hin; apply Hnotin, in_or_app; right; exact Hin.
  - eapply Permutation_Forall; [symmetry; exact Hperm|].
    apply Forall_app; split; [exact Hdata|]. constructor; assumption.
  - apply (Permutation_NoDup (l := map key (x :: data ++ before))).
    + apply Permutation_map. rewrite Hperm. apply Permutation_middle.
    + simpl. rewrite map_app. constructor; assumption.
Qed.

Lemma ascending_snoc : forall l x,
  ascendingBy key l -> Forall (fun y => key y < key x) l ->
  ascendingBy key (l ++ [x]).
Proof.
  induction l as [|a l IH]; intros x Hl Hx; simpl.
  - constructor; constructor.
  - apply StronglySorted_inv in Hl as [Hl Ha].
    inversion Hx; subst. constructor; [apply IH; assumption|].
    apply Forall_app; split; [exact Ha|]. constructor; [assumption|constructor].
Qed.

Lemma descending_rev : forall l, descendingBy key l -> ascendingBy key (rev l).
Proof.
  induction l as [|a l IH]; intro Hl; simpl; [constructor|].
  apply StronglySorted_inv in Hl as [Hl Ha].
  apply ascending_snoc; [apply IH; exact Hl|].
  eapply Permutation_Forall; [apply Permutation_rev|exact Ha].
Qed.

Lemma slices_SortFunc_ascending : forall data,
  Forall dom data -> NoDup (map key data) ->
  ascendingBy key (slices_SortFunc cmp data).
Proof.
  intros data Hdom Hnd. unfold slices_SortFunc, insertionSortCmpFunc.
  apply descending_rev, insertionSort_fold_descending.
  - constructor.
  - now rewrite app_nil_r.
  - now rewrite app_nil_r.
Qed.

End InsertionSort.

(** ** The reassembly loop of [frames] *)

Lemma wrap_int_id : forall z, int_min <= z <= int_max -> wrap_int z = z.
Proof.
  unfold wrap_int, int_min, int_max. intros z Hz.
  rewrite Z.mod_small; lia.
Qed.

Lemma range_In : forall n x, In x (render.range n) <-> 0 <= x < n.
Proof.
  intros n x. unfold render.range. rewrite in_map_iff. split.
  - intros (i & <- & Hi). apply in_seq in Hi. lia.
  - intros Hx. exists (Z.to_nat x). split; [lia|]. apply in_seq. lia.
Qed.

Lemma range_succ : forall e, 0 <= e ->
  render.range (e + 1) = render.range e ++ [e].
Proof.
  intros e He. unfold render.range.
  replace (Z.to_nat (e + 1)) with (S (Z.to_nat e)) by lia.
  rewrite seq_S, map_app. simpl. f_equal. f_equal. lia.
Qed.

Lemma range_nonpos : forall n, n <= 0 -> render.range n = [].
Proof.
  intros n Hn. unfold render.range.
  replace (Z.to_nat n) with O by lia. reflexivity.
Qed.

Lemma image_items_app : forall a b,
  image_items (a ++ b) = image_items a ++ image_items b.
Proof. intros; apply map_app. Qed.

Lemma ascendingBy_app_r : forall {E : Type} (key : E -> Z) (a b : list E),
  ascendingBy key (a ++ b) -> ascendingBy key b.
Proof.
  induction a as [|x a IH]; intros b H; simpl in H; [exact H|].
  apply StronglySorted_inv in H as [H _]. apply IH; exact H.
Qed.

(** Linear arithmetic with the bounds of [int] unfolded. *)
Ltac int_lia :=
  repeat match goal with
         | H : context [int_max] |- _ =>
             let H' := fresh in pose proof H as H'; clear H;
             unfold int_max in H'
         end;
  unfold int_min, int_max in *; lia.

Section Reassembly.

Variable N : Z.
Hypothesis N_int : N <= int_max.

Lemma sortBuf_Permutation : forall buf,
  Permutation (render.sortBuf buf) buf.
Proof. intro buf. apply slices_SortFunc_Permutation. Qed.

Lemma sortBuf_ascending : forall buf,
  Forall (fun r => 0 <= render.frame r < N) buf ->
  NoDup (map render.frame buf) ->
  ascendingBy render.frame (render.sortBuf buf).
Proof.
  intros buf Hdom Hnd.
  apply (slices_SortFunc_ascending _ render.frame
           (fun r => 0 <= render.frame r < N)); auto.
  intros a b Ha Hb. simpl in *.
  rewrite wrap_int_id by (pose proof N_int; int_lia).
  destruct (Z.ltb_spec (render.frame a - render.frame b) 0);
    destruct (Z.ltb_spec (render.frame a) (render.frame b)); lia.
Qed.

(** The inner loop with a consumer that takes every frame: it emits the
    buffered results that continue the run of frames already emitted. *)
Lemma drain_spec : forall buf e done,
  map render.frame done = render.range e ->
  0 <= e <= N ->
  ascendingBy render.frame buf ->
  Forall (fun r => e <= render.frame r < N) buf ->
  exists taken rest e',
    buf = taken ++ rest
    /\ render.drain takeAll buf e (image_items done)
       = (Some (e', rest), image_items (done ++ taken))
    /\ map render.frame (done ++ taken) = render.range e'
    /\ e <= e' <= N
    /\ Forall (fun r => e' < render.frame r) rest.
Proof.
  induction buf as [|f buf IH]; intros e done Hdone He Hasc Hbuf.
  - exists [], [], e. simpl. rewrite !app_nil_r.
    repeat split; try reflexivity; try assumption; try lia. constructor.
  - apply StronglySorted_inv in Hasc as [Hasc Hf].
    inversion Hbuf as [|? ? Hfe Hbuf']; subst. simpl.
    destruct (Z.eqb_spec (render.frame f) e) as [Heq|Hne]; simpl.
    + unfold takeAll at 1.
      rewrite wrap_int_id by (pose proof N_int; int_lia).
      destruct (IH (e + 1) (done ++ [f])) as (taken & rest & e' & H1 & H2 & H3 & H4 & H5).
      * rewrite map_app, Hdone, range_succ by lia. simpl. now rewrite Heq.
      * lia.
      * exact Hasc.
      * rewrite Forall_forall in *. intros r Hr.
        specialize (Hf r Hr). specialize (Hbuf' r Hr). simpl in Hf. lia.
      * exists (f :: taken), rest, e'. subst buf.
        rewrite image_items_app in H2. simpl in H2.
        rewrite <- app_assoc in H2, H3. simpl in H2, H3.
        repeat split; auto; lia.
    + exists [], (f :: buf), e. rewrite app_nil_r.
      repeat split; auto; try lia.
      constructor; [lia|].
      rewrite Forall_forall in *. intros r Hr.
      specialize (Hf r Hr). simpl in Hf. lia.
Qed.

Lemma frames_loop_Result : forall body r events e buf out,
  render.frames_loop body N (render.Result r :: events) e buf out
  = if e <? N then
      match render.err r with
      | Some x => (render.Returned, out ++ [(None, Some x)])
      | None =>
          if negb (render.frame r =? e)
          then render.frames_loop body N events e
                 (render.sortBuf (buf ++ [r])) out
          else
            let out' := out ++ [(render.img r, None)] in
            if body e (render.img r) then
              match render.drain body buf (wrap_int (e + 1)) out' with
              | (Some (e', buf'), out'') =>
                  render.frames_loop body N events e' buf' out''
              | (None, out'') => (render.Returned, out'')
              end
            else (render.Returned, out')
      end
    else (render.Completed, out).
Proof. reflexivity. Qed.

(** The loop over a run of successful results of distinct frames, with a
    consumer that takes every frame: the results of the frames below the
    expected one have been emitted in order, the others wait in the
    buffer, in ascending order. *)
Lemma frames_loop_prefix : forall pre tail e buf done,
  map render.frame done = render.range e ->
  0 <= e <= N ->
  ascendingBy render.frame buf ->
  Forall (fun r => e < render.frame r) buf ->
  NoDup (map render.frame (done ++ buf ++ pre)) ->
  Forall (fun r => 0 <= render.frame r < N /\ render.err r = None)
    (buf ++ pre) ->
  exists e' buf' done',
    render.frames_loop takeAll N (map render.Result pre ++ tail) e buf
      (image_items done)
    = render.frames_loop takeAll N tail e' buf' (image_items done')
    /\ Permutation (done' ++ buf') (done ++ buf ++ pre)
    /\ map render.frame done' = render.range e'
    /\ 0 <= e' <= N
    /\ ascendingBy render.frame buf'
    /\ Forall (fun r => e' < render.frame r) buf'.
Proof.
  induction pre as [|r pre IH]; intros tail e buf done Hdone He Hasc Hbuf Hnd Hok.
  - exists e, buf, done. rewrite app_nil_r. repeat split; auto; lia.
  - assert (Hperm0 : Permutation (done ++ buf ++ r :: pre)
                                 (r :: done ++ buf ++ pre)).
    { rewrite !app_assoc. symmetry. apply Permutation_middle. }
    assert (Hnd' : NoDup (map render.frame (r :: done ++ buf ++ pre))).
    { eapply Permutation_NoDup; [apply Permutation_map, Hperm0|exact Hnd]. }
    simpl in Hnd'. inversion Hnd' as [|? ? Hnew Hnd'']; subst.
    rewrite !map_app, !in_app_iff in Hnew.
    apply Forall_app in Hok as [Hokbuf Hokpre].
    inversion Hokpre as [|? ? [Hr Herr] Hokpre']; subst.
    assert (Her : e <= render.frame r).
    { destruct (Z.le_gt_cases e (render.frame r)) as [|Hlt]; [assumption|].
      exfalso. apply Hnew. left. rewrite Hdone. apply range_In. lia. }
    simpl map. simpl app. rewrite frames_loop_Result.
    replace (e <? N) with true by (symmetry; apply Z.ltb_lt; lia).
    rewrite Herr.
    destruct (Z.eqb_spec (render.frame r) e) as [Heq|Hne]; simpl negb; cbv iota.
    + (* the expected frame: it is emitted, then the buffer is drained *)
      cbv zeta. unfold takeAll at 1.
      rewrite wrap_int_id by (pose proof N_int; int_lia).
      change (image_items done ++ [(render.img r, None)])
        with (image_items done ++ image_items [r]).
      rewrite <- image_items_app.
      destruct (drain_spec buf (e + 1) (done ++ [r]))
        as (taken & rest & e1 & Hsplit & Hdrain & Hdone1 & He1 & Hrest).
      * rewrite map_app, Hdone, range_succ by lia. simpl. now rewrite Heq.
      * lia.
      * exact Hasc.
      * rewrite Forall_forall in *. intros x Hx.
        specialize (Hbuf x Hx). specialize (Hokbuf x Hx). simpl in *. lia.
      * rewrite Hdrain. subst buf.
        assert (Hperm1 : Permutation (((done ++ [r]) ++ taken) ++ rest ++ pre)
                                     (done ++ (taken ++ rest) ++ r :: pre)).
        { rewrite <- !app_assoc. apply Permutation_app_head. simpl.
          rewrite (app_assoc taken rest (r :: pre)), (app_assoc taken rest pre).
          apply Permutation_middle. }
        destruct (IH tail e1 rest ((done ++ [r]) ++ taken))
          as (e' & buf' & done' & Hloop & Hperm & Hd' & He' & Hasc' & Hbuf').
        -- exact Hdone1.
        -- lia.
        -- eapply ascendingBy_app_r; exact Hasc.
        -- exact Hrest.
        -- eapply Permutation_NoDup;
             [apply Permutation_map; symmetry; exact Hperm1|exact Hnd].
        -- apply Forall_app in Hokbuf as [_ Hokrest].
           apply Forall_app; split; assumption.
        -- exists e', buf', done'. rewrite Hloop.
           repeat split; auto; try lia.
           rewrite Hperm. exact Hperm1.
    + (* an early frame: it joins the buffer *)
      assert (Hperm1 : Permutation (done ++ render.sortBuf (buf ++ [r]) ++ pre)
                                   (done ++ buf ++ r :: pre)).
      { apply Permutation_app_head. rewrite sortBuf_Permutation.
        rewrite <- app_assoc. reflexivity. }
      assert (Hokbuf' : Forall (fun r => 0 <= render.frame r < N
                                         /\ render.err r = None)
                          (buf ++ [r])).
      { apply Forall_app; split; [assumption|]. constructor; auto. }
      destruct (IH tail e (render.sortBuf (buf ++ [r])) done)
        as (e' & buf' & done' & Hloop & Hperm & Hd' & He' & Hasc' & Hbuf').
      * exact Hdone.
      * lia.
      * apply sortBuf_ascending.
        -- eapply Forall_impl; [|exact Hokbuf']. simpl; intros ? [? _]; auto.
        -- rewrite map_app in Hnd. apply NoDup_app_remove_l in Hnd.
           replace (buf ++ r :: pre) with ((buf ++ [r]) ++ pre) in Hnd
             by (rewrite <- app_assoc; reflexivity).
           rewrite map_app in Hnd. apply NoDup_app_remove_r in Hnd. exact Hnd.
      * eapply Permutation_Forall; [symmetry; apply sortBuf_Permutation|].
        apply Forall_app; split; [exact Hbuf|]. constructor; [lia|constructor].
      * eapply Permutation_NoDup;
          [apply Permutation_map; symmetry; exact Hperm1|exact Hnd].
      * apply Forall_app; split; [|exact Hokpre'].
        eapply Permutation_Forall; [symmetry; apply sortBuf_Permutation|].
        exact Hokbuf'.
      * exists e', buf', done'. rewrite Hloop.
        repeat split; auto; try lia.
        rewrite Hperm. exact Hperm1.
Qed.

End Reassembly.

Lemma range_NoDup : forall n, NoDup (render.range n).
Proof.
  intro n. unfold render.range.
  apply Finite.Injective_map_NoDup; [|apply seq_NoDup].
  intros a b H. lia.
Qed.

Lemma frames_loop_nil : forall body n e buf out,
  render.frames_loop body n [] e buf out
  = if e <? n then (render.Waiting e buf, out) else (render.Completed, out).
Proof. reflexivity. Qed.

(** C1: when the results of the N frame jobs reach the reassembly loop in
    any order (a permutation of the frame indices 0 .. N-1) and the
    consumer takes every frame, the loop runs to completion and hands over
    exactly the images of the frames 0, 1, ..., N-1, in that order. *)
Theorem frames_emits_in_ascending_order :
  forall options arrivals,
    render.opt_frames options <= int_max ->
    Forall (fun r => render.err r = None) arrivals ->
    Permutation (map render.frame arrivals)
      (render.range (render.opt_frames options)) ->
    exists ordered,
      Permutation ordered arrivals
      /\ map render.frame ordered = render.range (render.opt_frames options)
      /\ render.frames takeAll options (map render.Result arrivals)
         = (render.Completed, image_items ordered).
Proof.
  intros options arrivals HN Herr Hperm.
  set (N := render.opt_frames options) in *.
  unfold render.frames. fold N.
  destruct (Z.le_gt_cases N 0) as [Hle|Hpos].
  - rewrite range_nonpos in * by assumption.
    apply Permutation_sym, Permutation_nil in Hperm.
    apply map_eq_nil in Hperm. subst arrivals.
    exists []. repeat split; auto. simpl.
    replace (0 <? N) with false by (symmetry; apply Z.ltb_ge; lia).
    reflexivity.
  - assert (Hin : forall r, In r arrivals -> 0 <= render.frame r < N).
    { intros r Hr. apply range_In.
      eapply Permutation_in; [exact Hperm|]. apply in_map; exact Hr. }
    destruct (frames_loop_prefix N HN arrivals [] 0 [] [])
      as (e' & buf' & done' & Hloop & Hp & Hd' & He' & Hasc' & Hbuf').
    + reflexivity.
    + lia.
    + constructor.
    + constructor.
    + simpl. eapply Permutation_NoDup; [symmetry; exact Hperm|].
      apply range_NoDup.
    + simpl. rewrite Forall_forall in *. intros r Hr. split; auto.
    + simpl in Hp. rewrite app_nil_r in Hloop.
      change (image_items []) with (@nil render.item) in Hloop.
      assert (He'N : e' = N).
      { destruct (Z.eq_dec e' N) as [|Hne]; [assumption|exfalso].
        assert (Hmem : In e' (map render.frame (done' ++ buf'))).
        { eapply Permutation_in;
            [apply Permutation_map; symmetry; exact Hp|].
          eapply Permutation_in; [symmetry; exact Hperm|].
          apply range_In. lia. }
        rewrite map_app, in_app_iff, Hd' in Hmem. destruct Hmem as [Hm|Hm].
        - apply range_In in Hm. lia.
        - apply in_map_iff in Hm as (r & Hfr & Hr).
          rewrite Forall_forall in Hbuf'. specialize (Hbuf' r Hr). lia. }
      subst e'.
      assert (Hnil : buf' = []).
      { destruct buf' as [|r buf']; [reflexivity|exfalso].
        inversion Hbuf' as [|? ? Hr _]; subst.
        assert (Hr' : In r arrivals).
        { eapply Permutation_in; [exact Hp|].
          apply in_or_app; right; left; reflexivity. }
        apply Hin in Hr'. lia. }
      subst buf'. rewrite app_nil_r in Hp.
      exists done'. repeat split; auto.
      rewrite Hloop, frames_loop_nil.
      replace (N <? N) with false by (symmetry; apply Z.ltb_irrefl).
      reflexivity.
Qed.

(** Five frames whose results arrive in the order 3, 0, 4, 1, 2 are handed
    over in the order 0, 1, 2, 3, 4. *)
Lemma frames_emits_in_ascending_order_witness :
  let result f := render.mkFrameResult f
                    (Some (render.mkRGBAImage (render.mkRectangle 0 0 1 1)
                             [render.mkRGBA f f f 255])) None in
  let options := render.mkRenderOptions 1 1 5
                   (Some (render.Uniform render.color_White)) false in
  exists ordered,
    Permutation ordered (map result [3; 0; 4; 1; 2])
    /\ map render.frame ordered = [0; 1; 2; 3; 4]
    /\ render.frames takeAll options
         (map render.Result (map result [3; 0; 4; 1; 2]))
       = (render.Completed, image_items ordered).
Proof.
  intros result options.
  apply (frames_emits_in_ascending_order options (map result [3; 0; 4; 1; 2])).
  - discriminate.
  - repeat constructor.
  - change (Permutation [3; 0; 4; 1; 2] [0; 1; 2; 3; 4]).
    apply (Permutation_cons_app [0; 1; 2] [4] 3).
    apply perm_skip.
    apply (Permutation_cons_app [1; 2] [] 4).
    apply Permutation_refl.
Defined.

Lemma image_items_is_image : forall rs, Forall is_image (image_items rs).
Proof.
  induction rs; simpl; constructor; auto. reflexivity.
Qed.

Lemma drain_is_image : forall body buf e out res out',
  render.drain body buf e out = (res, out') ->
  Forall is_image out -> Forall is_image out'.
Proof.
  induction buf as [|f buf IH]; intros e out res out' H Hout; simpl in H.
  - injection H as _ <-. exact Hout.
  - destruct (negb (render.frame f =? e)).
    + injection H as _ <-. exact Hout.
    + assert (Hout' : Forall is_image (out ++ [(render.img f, None)])).
      { apply Forall_app; split; [exact Hout|].
        constructor; [reflexivity|constructor]. }
      destruct (body e (render.img f)).
      * eapply IH; eauto.
      * injection H as _ <-. exact Hout'.
Qed.

(** Whatever the events and the consumer, an error is handed over at most
    once, as the last element, and the iterator returns after it. *)
Lemma frames_loop_error_is_last : forall body n events e buf out st out',
  render.frames_loop body n events e buf out = (st, out') ->
  Forall is_image out ->
  Forall is_image out'
  \/ exists imgs x,
       out' = imgs ++ [(None, Some x)]
       /\ Forall is_image imgs /\ st = render.Returned.
Proof.
  induction events as [|ev events IH]; intros e buf out st out' H Hout.
  - rewrite frames_loop_nil in H. destruct (e <? n); injection H as _ <-; auto.
  - destruct ev as [c|r|].
    + simpl in H. destruct (e <? n); injection H as <- <-; [right|left]; eauto.
    + rewrite frames_loop_Result in H.
      destruct (e <? n); [|injection H as _ <-; auto].
      destruct (render.err r) as [x|]; [injection H as <- <-; right; eauto|].
      destruct (negb (render.frame r =? e)); [eapply IH; eauto|].
      cbv zeta in H.
      assert (Hout' : Forall is_image (out ++ [(render.img r, None)])).
      { apply Forall_app; split; [exact Hout|].
        constructor; [reflexivity|constructor]. }
      destruct (body e (render.img r)); [|injection H as _ <-; auto].
      destruct (render.drain body buf (wrap_int (e + 1))
                  (out ++ [(render.img r, None)]))
        as [[[e1 buf1]|] out1] eqn:Hdrain.
      * eapply IH; [exact H|]. eapply drain_is_image; eauto.
      * injection H as _ <-. left. eapply drain_is_image; eauto.
    + simpl in H. destruct (e <? n); injection H as <- <-; [right|left]; eauto.
Qed.



(** ** The order of [float64] *)

Ltac sf_cases :=
  repeat match goal with
         | |- context [PosDef.Pos.compare_cont Eq ?p ?q] =>
             change (PosDef.Pos.compare_cont Eq p q) with (Pos.compare p q)
         | H : context [PosDef.Pos.compare_cont Eq ?p ?q] |- _ =>
             change (PosDef.Pos.compare_cont Eq p q)
               with (Pos.compare p q) in H
         end;
  repeat match goal with
         | H : context [Z.compare ?a ?b] |- _ =>
             destruct (Z.compare_spec a b); simpl in H; try discriminate
         | |- context [Z.compare ?a ?b] =>
             destruct (Z.compare_spec a b); simpl; try reflexivity
         | H : context [Pos.compare ?a ?b] |- _ =>
             destruct (Pos.compare_spec a b); simpl in H; try discriminate
         | |- context [Pos.compare ?a ?b] =>
             destruct (Pos.compare_spec a b); simpl; try reflexivity
         end;
  try discriminate; try reflexivity; try lia.

Lemma SFleb_ltb_trans : forall a b c,
  SFleb a b = true -> SFltb b c = true -> SFltb a c = true.
Proof.
  unfold SFleb, SFltb.
  intros [sa|sa| |sa ma ea] [sb|sb| |sb mb eb] [sc|sc| |sc mc ec];
    simpl; intros H1 H2; try discriminate; try reflexivity;
    repeat match goal with s : bool |- _ => destruct s end;
    simpl in *; try discriminate; try reflexivity; sf_cases.
Qed.

Lemma SFcompare_refl : forall a, a <> S754_nan -> SFcompare a a = Some Eq.
Proof.
  intros [s|s| |s m e] H; simpl; try congruence; destruct s; try reflexivity;
    rewrite Z.compare_refl;
    change (PosDef.Pos.compare_cont Eq m m) with (Pos.compare m m);
    rewrite Pos.compare_refl; reflexivity.
Qed.

Lemma SFltb_negb_leb : forall t x,
  t <> S754_nan -> x <> S754_nan -> SFltb t x = negb (SFleb x t).
Proof.
  unfold SFleb, SFltb.
  intros [st|st| |st mt et] [sx|sx| |sx mx ex] HT HX;
    simpl; try congruence;
    repeat match goal with s : bool |- _ => destruct s end;
    simpl in *; try reflexivity; sf_cases.
Qed.

Lemma is_nan_Prim2SF : forall x,
  PrimFloat.is_nan x = false <-> Prim2SF x <> S754_nan.
Proof.
  intro x. unfold PrimFloat.is_nan.
  rewrite FloatAxioms.eqb_spec. unfold SFeqb. split.
  - intros H Hnan. rewrite Hnan in H. discriminate.
  - intro H. rewrite SFcompare_refl by assumption. reflexivity.
Qed.

Lemma float_le_not_nan : forall a b,
  float_le a b -> PrimFloat.is_nan a = false /\ PrimFloat.is_nan b = false.
Proof.
  unfold float_le. intros a b H. rewrite FloatAxioms.leb_spec in H.
  rewrite !is_nan_Prim2SF. unfold SFleb in H.
  split; intro Hn; rewrite Hn in H;
    [|destruct (Prim2SF a)]; discriminate.
Qed.

Lemma float_le_lt_trans : forall a b c,
  float_le a b -> (b <? c)%float = true -> (a <? c)%float = true.
Proof.
  unfold float_le. intros a b c.
  rewrite FloatAxioms.leb_spec, !FloatAxioms.ltb_spec.
  apply SFleb_ltb_trans.
Qed.

(** [cmp.Less] against a fixed target goes down along an ascending table. *)
Lemma cmp_Less_monotone : forall a b x,
  float_le a b -> cmp_Less b x = true -> cmp_Less a x = true.
Proof.
  intros a b x Hab H. unfold cmp_Less in *.
  destruct (float_le_not_nan a b Hab) as [Ha Hb].
  rewrite Hb in H. rewrite Ha. simpl in *.
  eapply float_le_lt_trans; eauto.
Qed.

(** On numbers, [atLeast t x] is the comparison [x <= t]. *)
Lemma atLeast_leb : forall t x,
  PrimFloat.is_nan t = false -> PrimFloat.is_nan x = false ->
  atLeast t x = (x <=? t)%float.
Proof.
  intros t x Ht Hx. unfold atLeast, cmp_Less. rewrite Ht. simpl.
  rewrite FloatAxioms.ltb_spec, FloatAxioms.leb_spec.
  rewrite SFltb_negb_leb by (apply is_nan_Prim2SF; assumption).
  apply negb_involutive.
Qed.

(** ** The binary search *)

Lemma StronglySorted_nth : forall {T : Type} (R : T -> T -> Prop) l d,
  StronglySorted R l ->
  forall i j, (i < j < length l)%nat -> R (nth i l d) (nth j l d).
Proof.
  induction l as [|a l IH]; intros d Hs i j Hij; simpl in Hij; [lia|].
  apply StronglySorted_inv in Hs as [Hs Ha].
  destruct j as [|j]; [lia|]. destruct i as [|i]; simpl.
  - rewrite Forall_forall in Ha. apply Ha, nth_In. lia.
  - apply IH; [assumption|lia].
Qed.

Section BinarySearch.

Variable x : list float64.
Variable target : float64.

Let n : Z := Z.of_nat (length x).
Let less (k : Z) : bool := cmp_Less (entry x k) target.

(** The table is partitioned by the target: the entries below it come
    first.  An ascending table is partitioned by every target. *)
Hypothesis partitioned : forall i j,
  0 <= i <= j -> j < n -> less j = true -> less i = true.

Lemma BinarySearch_loop_spec : forall fuel i j,
  0 <= i <= j -> j <= n -> j - i <= Z.of_nat fuel ->
  (forall k, 0 <= k < i -> less k = true) ->
  (forall k, j <= k < n -> less k = false) ->
  let r := BinarySearch_loop x target fuel i j in
  i <= r <= j
  /\ (forall k, 0 <= k < r -> less k = true)
  /\ (forall k, r <= k < n -> less k = false).
Proof.
  induction fuel as [|fuel IH]; intros i j Hij Hjn Hfuel Hlo Hhi; simpl.
  - assert (i = j) by lia. subst j. repeat split; auto; lia.
  - destruct (Z.ltb_spec i j) as [Hlt|Hge].
    + rewrite Z.shiftr_div_pow2 by lia. change (2 ^ 1) with 2.
      set (h := (i + j) / 2).
      assert (Hh : i <= h < j) by (subst h; split;
        [apply Z.div_le_lower_bound|apply Z.div_lt_upper_bound]; lia).
      fold (entry x h). fold (less h).
      destruct (less h) eqn:Hless.
      * assert (Hlo' : forall k, 0 <= k < h + 1 -> less k = true).
        { intros k Hk. apply (partitioned k h); auto; lia. }
        destruct (IH (h + 1) j ltac:(lia) ltac:(lia) ltac:(lia) Hlo' Hhi)
          as (H1 & H2 & H3).
        repeat split; auto; lia.
      * assert (Hhi' : forall k, h <= k < n -> less k = false).
        { intros k Hk. destruct (less k) eqn:Hlk; [|reflexivity].
          rewrite (partitioned h k) in Hless; auto; try lia; discriminate. }
        destruct (IH i h ltac:(lia) ltac:(lia) ltac:(lia) Hlo Hhi')
          as (H1 & H2 & H3).
        repeat split; auto; lia.
    + assert (i = j) by lia. subst j. repeat split; auto; lia.
Qed.

(** With [len(x)] iterations the search ends on the partition point: every
    entry before the index returned is below the target, no entry from it
    on is. *)
Lemma BinarySearch_spec :
  let r := fst (BinarySearch x target) in
  0 <= r <= n
  /\ (forall k, 0 <= k < r -> less k = true)
  /\ (forall k, r <= k < n -> less k = false).
Proof.
  unfold BinarySearch. simpl fst.
  apply (BinarySearch_loop_spec (length x) 0 n); subst n; try lia.
Qed.

End BinarySearch.

Lemma BinarySearch_loop_bounds : forall x target fuel i j,
  0 <= i <= j ->
  i <= BinarySearch_loop x target fuel i j <= j.
Proof.
  induction fuel as [|fuel IH]; intros i j Hij; simpl; [lia|].
  destruct (Z.ltb_spec i j) as [Hlt|Hge]; [|lia].
  rewrite Z.shiftr_div_pow2 by lia. change (2 ^ 1) with 2.
  assert (Hh : i <= (i + j) / 2 < j) by (split;
    [apply Z.div_le_lower_bound|apply Z.div_lt_upper_bound]; lia).
  destruct (cmp_Less _ _).
  - specialize (IH ((i + j) / 2 + 1) j). lia.
  - specialize (IH i ((i + j) / 2)). lia.
Qed.

Lemma BinarySearch_bounds : forall x target,
  0 <= fst (BinarySearch x target) <= Z.of_nat (length x).
Proof.
  intros. unfold BinarySearch. simpl fst.
  apply BinarySearch_loop_bounds. lia.
Qed.

Lemma ascending_partitioned : forall x target,
  StronglySorted float_le x ->
  forall i j, 0 <= i <= j -> j < Z.of_nat (length x) ->
    cmp_Less (entry x j) target = true ->
    cmp_Less (entry x i) target = true.
Proof.
  intros x target Hs i j Hij Hj H.
  destruct (Z.eq_dec i j) as [->|Hne]; [exact H|].
  eapply cmp_Less_monotone; [|exact H].
  unfold entry. apply StronglySorted_nth; [assumption|lia].
Qed.

(** ** Selection of an alternative *)

(** The index selected for a draw [u], scaled to [x = u * prod.max], over
    an ascending cumulative table: always a valid index, the first one
    whose entry is at least [x] when there is one, the last one when [x]
    lies beyond every entry. *)
Lemma selectAlternative_spec :
  forall p prod u,
    nodes.Alternatives p <> [] ->
    length (nodes.totals prod) = length (nodes.Alternatives p) ->
    StronglySorted float_le (nodes.totals prod) ->
    let x := (u * nodes.max prod)%float in
    let aNo := nodes.selectAlternative p prod u in
    let len := Z.of_nat (length (nodes.Alternatives p)) in
    0 <= aNo < len
    /\ (forall i, 0 <= i < aNo ->
          atLeast (entry (nodes.totals prod) i) x = false)
    /\ ((exists i, 0 <= i < len
                   /\ atLeast (entry (nodes.totals prod) i) x = true) ->
        atLeast (entry (nodes.totals prod) aNo) x = true)
    /\ ((forall i, 0 <= i < len ->
           atLeast (entry (nodes.totals prod) i) x = false) ->
        aNo = len - 1).
Proof.
  intros p prod u Hne Hlen Hsorted x aNo len.
  assert (Hpos : 1 <= len).
  { subst len. destruct (nodes.Alternatives p); [congruence|simpl; lia]. }
  pose proof (BinarySearch_spec (nodes.totals prod) x
                (ascending_partitioned _ x Hsorted)) as Hbs.
  cbv zeta in Hbs. rewrite Hlen in Hbs. fold len in Hbs.
  destruct Hbs as (Hr & Hbelow & Hfrom).
  assert (HaNo : aNo = Z.min (fst (BinarySearch (nodes.totals prod) x))
                         (len - 1)) by reflexivity.
  set (r := fst (BinarySearch (nodes.totals prod) x)) in *.
  repeat split.
  - lia.
  - lia.
  - intros i Hi. unfold atLeast. rewrite Hbelow by lia. reflexivity.
  - intros (i & Hi & Hat). unfold atLeast in *.
    assert (Hri : r <= i).
    { destruct (Z.le_gt_cases r i); [assumption|].
      rewrite Hbelow in Hat by lia. discriminate. }
    rewrite Hfrom by lia. reflexivity.
  - intros Hall.
    assert (r = len); [|lia].
    destruct (Z.eq_dec r len) as [|Hne']; [assumption|exfalso].
    specialize (Hall r ltac:(lia)). unfold atLeast in Hall.
    rewrite Hfrom in Hall by lia. discriminate.
Qed.

(** ** The generator: failure without base case *)

Lemma gen_bind_Ok : forall {A B : Type} (m : nodes.gen A) (k : A -> nodes.gen B)
    s a s1,
  m s = (Ok a, s1) -> nodes.gen_bind m k s = k a s1.
Proof. intros. unfold nodes.gen_bind. rewrite H. reflexivity. Qed.

Lemma gen_bind_Err : forall {A B : Type} (m : nodes.gen A)
    (k : A -> nodes.gen B) s e s1,
  m s = (Err e, s1) -> nodes.gen_bind m k s = (Err e, s1).
Proof. intros. unfold nodes.gen_bind. rewrite H. reflexivity. Qed.

Lemma seed_Float64_stateOver : forall opts table s,
  stateOver opts table s ->
  exists s',
    nodes.seed_Float64 s = (Ok (fst (nodes.Float64 (nodes.seed s))), s')
    /\ stateOver opts table s'
    /\ nodes.seed s' = snd (nodes.Float64 (nodes.seed s)).
Proof.
  intros opts table s [Ho Hr]. unfold nodes.seed_Float64.
  destruct (nodes.Float64 (nodes.seed s)) as [u r'].
  eexists. split; [reflexivity|]. split; [split|]; simpl; auto.
Qed.

Section WithoutBaseCase.

Variable opts : nodes.generatorStateOptions.
Variable table : nodes.ruleTable.

Lemma gen_bind_fails : forall {A B : Type} (m : nodes.gen A)
    (k : A -> nodes.gen B) s b1 b2,
  (exists r s1, m s = (r, s1) /\ stateOver opts table s1
                /\ failsRetryably b1 r) ->
  (forall a s1, stateOver opts table s1 ->
     exists r s2, k a s1 = (r, s2) /\ stateOver opts table s2
                  /\ failsRetryably b2 r) ->
  exists r s2, nodes.gen_bind m k s = (r, s2) /\ stateOver opts table s2
               /\ failsRetryably (b1 || b2) r.
Proof.
  intros A B m k s b1 b2 (r & s1 & Hm & Hs1 & Hr) Hk.
  destruct b1; unfold failsRetryably in Hr; simpl orb.
  - destruct Hr as (e & -> & He).
    exists (Err e), s1. rewrite (gen_bind_Err _ _ _ _ _ Hm).
    unfold failsRetryably. eauto.
  - destruct Hr as (a & ->).
    rewrite (gen_bind_Ok _ _ _ _ _ Hm). apply Hk; assumption.
Qed.

Variable ruleGen : nodes.Production -> nodes.gen nodes.Node.

(** Every production of the table fails at the depth of [ruleGen]. *)
Hypothesis ruleGen_fails : forall name prod s,
  nodes.rules_get name table = Some prod ->
  stateOver opts table s ->
  exists r s', ruleGen (nodes.Production_ prod) s = (r, s')
               /\ stateOver opts table s' /\ failsRetryably true r.

Lemma Alternate_Gen_fails : forall a s,
  stateOver opts table s ->
  rulesDefined (inTable table) a = true ->
  exists r s', nodes.Alternate_Gen ruleGen a s = (r, s')
               /\ stateOver opts table s'
               /\ failsRetryably (refersToRule a) r.
Proof.
  induction a as [p v|p v|p ct|p a1 IH1 a2 IH2 a3 IH3|p name|p b
                 |p t a1 IH1 a2 IH2|p a1 IH1 a2 IH2 a3 IH3];
    intros s Hs Hdef; simpl in Hdef;
    cbn [nodes.Alternate_Gen refersToRule].
  - exists (Ok (nodes.value_float64 (nodes.pToP p) v)), s. unfold failsRetryably; simpl; eauto.
  - exists (Ok (nodes.value_bool (nodes.pToP p) v)), s. unfold failsRetryably; simpl; eauto.
  - exists (Ok (nodes.component (nodes.pToP p) ct)), s. unfold failsRetryably; simpl; eauto.
  - apply andb_true_iff in Hdef as [Hdef H3].
    apply andb_true_iff in Hdef as [H1 H2].
    rewrite <- orb_assoc.
    apply gen_bind_fails; [apply IH1; assumption|]. intros one s1 Hs1.
    apply gen_bind_fails; [apply IH2; assumption|]. intros two s2 Hs2.
    rewrite <- (orb_false_r (refersToRule a3)).
    apply gen_bind_fails; [apply IH3; assumption|]. intros three s3 Hs3.
    eexists _, s3. split; [reflexivity|]. unfold failsRetryably; simpl; eauto.
  - unfold inTable in Hdef. destruct Hs as [Ho Hr]. rewrite Hr.
    destruct (nodes.rules_get name table) as [rule|] eqn:Hget;
      [|discriminate].
    apply (ruleGen_fails name rule s Hget). split; assumption.
  - change false with (false || false).
    apply gen_bind_fails.
    + destruct (seed_Float64_stateOver opts table s Hs) as (s' & H1 & H2 & _).
      eexists _, s'. split; [exact H1|]. unfold failsRetryably; simpl; eauto.
    + intros u s1 Hs1. eexists _, s1. split; [reflexivity|]. unfold failsRetryably; simpl; eauto.
  - apply andb_true_iff in Hdef as [H1 H2].
    apply gen_bind_fails; [apply IH1; assumption|]. intros left s1 Hs1.
    rewrite <- (orb_false_r (refersToRule a2)).
    apply gen_bind_fails; [apply IH2; assumption|]. intros right s2 Hs2.
    eexists _, s2. split; [reflexivity|]. unfold failsRetryably; simpl; eauto.
  - apply andb_true_iff in Hdef as [Hdef H3].
    apply andb_true_iff in Hdef as [H1 H2].
    rewrite <- orb_assoc.
    apply gen_bind_fails; [apply IH1; assumption|]. intros one s1 Hs1.
    apply gen_bind_fails; [apply IH2; assumption|]. intros two s2 Hs2.
    rewrite <- (orb_false_r (refersToRule a3)).
    apply gen_bind_fails; [apply IH3; assumption|]. intros three s3 Hs3.
    eexists _, s3. split; [reflexivity|]. unfold failsRetryably; simpl; eauto.
Qed.

End WithoutBaseCase.

Lemma selectAlternative_valid : forall p prod u,
  nodes.Alternatives p <> [] ->
  0 <= nodes.selectAlternative p prod u
    < Z.of_nat (length (nodes.Alternatives p)).
Proof.
  intros p prod u Hne. unfold nodes.selectAlternative.
  pose proof (BinarySearch_bounds (nodes.totals prod)
                (u * nodes.max prod)%float) as Hb.
  destruct (nodes.Alternatives p); [congruence|]. simpl length. lia.
Qed.

Section ProductionWithoutBaseCase.

Variable opts : nodes.generatorStateOptions.
Variable table : nodes.ruleTable.
Hypothesis table_without_base : tableWithoutBaseCase table.

Variable ruleGen : nodes.Production -> nodes.gen nodes.Node.

Hypothesis ruleGen_fails : forall name prod s,
  nodes.rules_get name table = Some prod ->
  stateOver opts table s ->
  exists r s', ruleGen (nodes.Production_ prod) s = (r, s')
               /\ stateOver opts table s' /\ failsRetryably true r.

Lemma Production_Gen_try_fails : forall name prod prod' s,
  nodes.rules_get name table = Some prod ->
  stateOver opts table s ->
  exists r s',
    nodes.Production_Gen_try ruleGen (nodes.Production_ prod) prod' s = (r, s')
    /\ stateOver opts table s' /\ failsRetryably true r.
Proof.
  intros name prod prod' s Hget Hs.
  destruct (table_without_base name prod Hget) as (_ & Hne & Halts).
  unfold nodes.Production_Gen_try.
  destruct (seed_Float64_stateOver opts table s Hs) as (s1 & Hu & Hs1 & _).
  rewrite (gen_bind_Ok _ _ _ _ _ Hu).
  set (u := fst (nodes.Float64 (nodes.seed s))).
  pose proof (selectAlternative_valid (nodes.Production_ prod) prod' u Hne)
    as Hsel.
  set (aNo := nodes.selectAlternative (nodes.Production_ prod) prod' u) in *.
  replace (aNo <? 0) with false by (symmetry; apply Z.ltb_ge; lia).
  destruct (nth_error (nodes.Alternatives (nodes.Production_ prod))
              (Z.to_nat aNo)) as [a|] eqn:Hnth.
  - destruct (Halts a (nth_error_In _ _ Hnth)) as [Hrefers Hdef].
    rewrite <- Hrefers.
    apply (Alternate_Gen_fails opts table ruleGen ruleGen_fails); assumption.
  - apply nth_error_None in Hnth. lia.
Qed.

Lemma Production_Gen_loop_fails : forall name prod prod' n s,
  nodes.rules_get name table = Some prod ->
  stateOver opts table s ->
  exists s',
    nodes.Production_Gen_loop ruleGen (nodes.Production_ prod) prod' n s
    = (Err (nodes.ErrReachedMaxGenerationTries
              (nodes.MaxGenerationTries opts)), s')
    /\ stateOver opts table s'.
Proof.
  intros name prod prod' n. induction n as [|n IH]; intros s Hget Hs; simpl.
  - exists s. destruct Hs as [Ho Hr]. rewrite Ho. split; [reflexivity|].
    split; assumption.
  - destruct (Production_Gen_try_fails name prod prod' s Hget Hs)
      as (r & s1 & Htry & Hs1 & e & -> & He).
    rewrite Htry, He. apply IH; assumption.
Qed.

End ProductionWithoutBaseCase.

(** An expansion of a production of a table without base case fails: with
    the max-depth error at depth zero, with the max-tries error at every
    other depth, its tries having all failed. *)
Lemma Production_Gen_rec_fails : forall opts table,
  tableWithoutBaseCase table ->
  forall depth name prod s,
    nodes.rules_get name table = Some prod ->
    stateOver opts table s ->
    exists s',
      nodes.Production_Gen_rec depth (nodes.Production_ prod) s
      = (Err match depth with
             | O => nodes.ErrReachedMaxDepth (nodes.MaxDepth opts)
             | S _ => nodes.ErrReachedMaxGenerationTries
                        (nodes.MaxGenerationTries opts)
             end, s')
      /\ stateOver opts table s'.
Proof.
  intros opts table Htable. induction depth as [|depth IH];
    intros name prod s Hget Hs; simpl.
  - exists s. destruct Hs as [Ho Hr]. rewrite Ho. split; [reflexivity|].
    split; assumption.
  - destruct (Htable name prod Hget) as (Hname & _).
    destruct Hs as [Ho Hr]. rewrite Hr, Hname, Hget, Ho.
    apply (Production_Gen_loop_fails opts table Htable
             (nodes.Production_Gen_rec depth)) with (name := name);
      [|assumption|split; assumption].
    intros name' prod' s' Hget' Hs'.
    destruct (IH name' prod' s' Hget' Hs') as (s'' & Hgen & Hs'').
    eexists _, s''. split; [exact Hgen|]. split; [assumption|].
    unfold failsRetryably. eexists. split; [reflexivity|].
    destruct depth; reflexivity.
Qed.

(** ** The resolution step *)

Lemma accumulate_length : forall name alts m t m' t',
  nodes.accumulate name alts m t = Ok (m', t') ->
  length t' = (length t + length alts)%nat.
Proof.
  induction alts as [|a alts IH]; intros m t m' t' H; simpl in H.
  - injection H as _ <-. simpl. lia.
  - destruct (1 <? m + nodes.Probability a)%float; [discriminate|].
    apply IH in H. rewrite H, length_app. simpl. lia.
Qed.

Lemma resolve_spec : forall ps t0 ps' t,
  nodes.resolve ps t0 = Ok (ps', t) ->
  Forall2 (fun p p' =>
             nodes.Name p' = nodes.Name p
             /\ Permutation (nodes.Alternatives p') (nodes.Alternatives p))
    ps ps'
  /\ (forall name v, nodes.rules_get name t0 = Some v ->
                     nodes.rules_get name t = Some v)
  /\ (forall name prod, nodes.rules_get name t = Some prod ->
        nodes.rules_get name t0 = Some prod
        \/ (In (nodes.Production_ prod) ps'
            /\ nodes.Name (nodes.Production_ prod) = name
            /\ length (nodes.totals prod)
               = length (nodes.Alternatives (nodes.Production_ prod))))
  /\ (forall p', In p' ps' ->
        exists prod, nodes.rules_get (nodes.Name p') t = Some prod
                     /\ nodes.Production_ prod = p').
Proof.
  induction ps as [|p ps IH]; intros t0 ps' t H; simpl in H.
  - injection H as <- <-.
    split; [constructor|]. split; [auto|]. split; [auto|]. intros p' [].
  - destruct (nodes.rules_get (nodes.Name p) t0) eqn:Hdup; [discriminate|].
    destruct (nodes.accumulate (nodes.Name p) _ 0%float [])
      as [[m tot]| |] eqn:Hacc; simpl in H; try discriminate.
    match type of H with
    | context [nodes.resolve ps ?t1] =>
        destruct (nodes.resolve ps t1) as [[ps1 t1']| |] eqn:Hres;
        simpl in H; try discriminate
    end.
    injection H as <- <-.
    apply IH in Hres as (Hall & Hkeep & Hfrom & Hin).
    apply accumulate_length in Hacc. simpl in Hacc.
    set (p' := nodes.mkProduction (nodes.Production_Pos p) (nodes.Name p)
                 (slices_SortFunc nodes.compareProbability
                    (nodes.Alternatives p))) in *.
    assert (Hhead : nodes.rules_get (nodes.Name p) t1'
                    = Some (nodes.mkproduction p' m tot)).
    { apply Hkeep. simpl. rewrite String.eqb_refl. reflexivity. }
    repeat split.
    + constructor; [|exact Hall]. split; [reflexivity|].
      apply slices_SortFunc_Permutation.
    + intros name v Hv. apply Hkeep. simpl.
      destruct (String.eqb_spec name (nodes.Name p)) as [->|]; [congruence|].
      exact Hv.
    + intros name prod Hget. apply Hfrom in Hget as [Hget|(H1 & H2 & H3)].
      * simpl in Hget.
        destruct (String.eqb_spec name (nodes.Name p)) as [->|];
          [|left; exact Hget].
        injection Hget as <-. right. simpl. repeat split; auto.
      * right. repeat split; auto. right; exact H1.
    + intros q [<-|Hq]; [|apply Hin; exact Hq].
      eexists. split; [exact Hhead|reflexivity].
Qed.

Lemma Forall2_In_r : forall {A B : Type} (R : A -> B -> Prop) l l' b,
  Forall2 R l l' -> In b l' -> exists a, In a l /\ R a b.
Proof.
  induction 1 as [|x y l l' Hxy Hall IH]; intros Hin; [destruct Hin|].
  destruct Hin as [<-|Hin].
  - exists x. split; [left; reflexivity|exact Hxy].
  - destruct (IH Hin) as (a & Ha & HR). exists a. split; [right|]; assumption.
Qed.

Lemma Forall2_In_l : forall {A B : Type} (R : A -> B -> Prop) l l' a,
  Forall2 R l l' -> In a l -> exists b, In b l' /\ R a b.
Proof.
  induction 1 as [|x y l l' Hxy Hall IH]; intros Hin; [destruct Hin|].
  destruct Hin as [<-|Hin].
  - exists y. split; [left; reflexivity|exact Hxy].
  - destruct (IH Hin) as (b & Hb & HR). exists b. split; [right|]; assumption.
Qed.

Lemma rulesDefined_weaken : forall (f g : string -> bool) a,
  (forall name, f name = true -> g name = true) ->
  rulesDefined f a = true -> rulesDefined g a = true.
Proof.
  intros f g a Hfg. induction a; simpl; intro H; auto;
    repeat match goal with
           | H : _ && _ = true |- _ => apply andb_true_iff in H as [? ?]
           end;
    repeat (apply andb_true_iff; split); auto.
Qed.

(** The resolution of a grammar without base case gives a table without
    base case. *)
Lemma resolve_without_base_case : forall g ps table,
  noBaseCase g ->
  nodes.resolve (nodes.Productions g) [] = Ok (ps, table) ->
  tableWithoutBaseCase table
  /\ exists p0 ps' prod0,
       ps = p0 :: ps'
       /\ nodes.rules_get (nodes.Name p0) table = Some prod0
       /\ nodes.Production_ prod0 = p0.
Proof.
  intros g ps table [Hne Hg] Hres.
  apply resolve_spec in Hres as (Hall & _ & Hfrom & Hin).
  assert (Hdefined : forall name,
             isProductionOf g name = true -> inTable table name = true).
  { intros name Hname. unfold isProductionOf in Hname.
    apply existsb_exists in Hname as (name' & Hname' & Heq).
    apply String.eqb_eq in Heq. subst name'.
    apply in_map_iff in Hname' as (p & <- & Hp).
    destruct (Forall2_In_l _ _ _ _ Hall Hp) as (p' & Hp' & Hnm & _).
    destruct (Hin p' Hp') as (prod & Hget & _).
    unfold inTable. rewrite <- Hnm, Hget. reflexivity. }
  split.
  - intros name prod Hget.
    destruct (Hfrom name prod Hget) as [Hnil|(Hp' & Hname & _)];
      [discriminate|].
    destruct (Forall2_In_r _ _ _ _ Hall Hp') as (p & Hp & _ & Hperm).
    destruct (Hg p Hp) as [Hnonempty Halts].
    split; [exact Hname|]. split.
    + intro Hnil. rewrite Hnil in Hperm.
      apply Permutation_nil in Hperm. contradiction.
    + intros a Ha.
      destruct (Halts a (Permutation_in _ Hperm Ha)) as [Hr Hd].
      split; [exact Hr|]. eapply rulesDefined_weaken; eauto.
  - destruct Hall as [|p p' l l' _ _]; [congruence|].
    destruct (Hin p' (or_introl eq_refl)) as (prod0 & Hget & Hprod).
    exists p', l', prod0. auto.
Qed.

(** ** Generation from a grammar without base case *)

(** C4: for a grammar without base case that the resolution step accepts,
    generation returns for every max depth and every try budget, and what
    it returns is an error: the max-depth error when the max depth is not
    positive, and otherwise the max-tries error, the max-depth failures
    of the deepest expansions having been retried until the budgets of
    the enclosing productions were spent. *)
Theorem Grammar_Gen_without_base_case_fails :
  forall NewPCG g opts ps table,
    noBaseCase g ->
    nodes.resolve (nodes.Productions g) [] = Ok (ps, table) ->
    exists s',
      nodes.Grammar_Gen NewPCG g opts
      = (Err (if nodes.MaxDepth opts <=? 0
              then nodes.ErrReachedMaxDepth (nodes.MaxDepth opts)
              else nodes.ErrReachedMaxGenerationTries
                     (nodes.MaxGenerationTries opts)),
         Some s').
Proof.
  intros NewPCG g opts ps table Hg Hres.
  destruct (resolve_without_base_case g ps table Hg Hres)
    as (Htable & p0 & ps' & prod0 & -> & Hget & <-).
  unfold nodes.Grammar_Gen. rewrite Hres.
  unfold nodes.Production_Gen.
  match goal with
  | |- context [nodes.Production_Gen_rec ?d ?p ?s] =>
      destruct (Production_Gen_rec_fails opts table Htable d
                  (nodes.Name (nodes.Production_ prod0)) prod0 s Hget)
        as (s' & Hgen & _); [split; reflexivity|]
  end.
  rewrite Hgen. exists s'. f_equal. f_equal.
  destruct (Z.leb_spec (nodes.MaxDepth opts) 0) as [Hle|Hgt].
  - replace (Z.to_nat (nodes.MaxDepth opts)) with O by lia. reflexivity.
  - destruct (Z.to_nat (nodes.MaxDepth opts)) eqn:Hn; [lia|reflexivity].
Qed.

(** The grammar [S ::= S %1.0 .] with the default max depth 10 and the
    default budget of 100 tries: generation returns the max-tries error. *)
Lemma Grammar_Gen_without_base_case_fails_witness :
  exists s',
    nodes.Grammar_Gen zeroSource grammar_S_S (nodes.mkOptions 42 10 100)
    = (Err (nodes.ErrReachedMaxGenerationTries 100), Some s').
Proof.
  assert (Hg : noBaseCase grammar_S_S).
  { split; [discriminate|]. intros p [<-|[]]. split; [discriminate|].
    intros a [<-|[]]. split; reflexivity. }
  exact (Grammar_Gen_without_base_case_fails zeroSource grammar_S_S
           (nodes.mkOptions 42 10 100) _ _ Hg eq_refl).
Defined.

(** The grammar [S ::= S %1.0 .] with max depth 2 and 3 tries: generation
    returns the max-tries error, which is not a max-depth error. *)
Lemma Grammar_Gen_self_recursive_returns_max_tries :
  fst (nodes.Grammar_Gen zeroSource grammar_S_S (nodes.mkOptions 42 2 3))
  = Err (nodes.ErrReachedMaxGenerationTries 3)
  /\ ~ (exists e,
          fst (nodes.Grammar_Gen zeroSource grammar_S_S
                 (nodes.mkOptions 42 2 3)) = Err e
          /\ nodes.errors_Is_ErrReachedMaxDepth e = true).
Proof.
  assert (H : fst (nodes.Grammar_Gen zeroSource grammar_S_S
                     (nodes.mkOptions 42 2 3))
              = Err (nodes.ErrReachedMaxGenerationTries 3))
    by (vm_compute; reflexivity).
  split; [exact H|]. intros (e & He & Hdepth).
  rewrite H in He. injection He as <-. discriminate.
Qed.

(** ** The try loop of a production *)

Lemma Production_Gen_loop_exhausted : forall ruleGen p prod n s e s',
  nodes.Production_Gen_loop ruleGen p prod n s = (Err e, s') ->
  nodes.errors_Is_ErrRuleDoesNotExist e = false ->
  failedTries ruleGen p prod n s s'
  /\ e = nodes.ErrReachedMaxGenerationTries
           (nodes.MaxGenerationTries (nodes.options s')).
Proof.
  induction n as [|n IH]; intros s e s' H He; simpl in H.
  - injection H as <- <-. split; [constructor|reflexivity].
  - destruct (nodes.Production_Gen_try ruleGen p prod s)
      as [[node|e1|msg] s1] eqn:Htry; try discriminate.
    destruct (nodes.errors_Is_ErrRuleDoesNotExist e1) eqn:He1.
    + injection H as <- <-. congruence.
    + destruct (IH s1 e s' H He) as [Hfailed Heq].
      split; [econstructor; eauto|exact Heq].
Qed.

Lemma failedTries_loop : forall ruleGen p prod n s s',
  failedTries ruleGen p prod n s s' ->
  nodes.Production_Gen_loop ruleGen p prod n s
  = (Err (nodes.ErrReachedMaxGenerationTries
            (nodes.MaxGenerationTries (nodes.options s'))), s').
Proof.
  induction 1 as [s|n s e s1 s2 Htry He Hrest IH]; simpl.
  - reflexivity.
  - rewrite Htry, He. exact IH.
Qed.

(** C5 as the code has it: an expansion of a production at a positive depth
    returns an error other than an undefined rule exactly when each of
    its tries failed with an error other than an undefined rule.  The
    max-tries error of an inner production is such a failure: the
    enclosing production retries it like a max-depth failure, and the
    error it returns once its own budget is spent is the max-tries
    error. *)
Theorem Production_Gen_retries_inner_failures :
  forall depth p prod s e s',
    nodes.rules_get (nodes.Name p) (nodes.rules s) = Some prod ->
    (nodes.Production_Gen_rec (S depth) p s = (Err e, s')
     /\ nodes.errors_Is_ErrRuleDoesNotExist e = false)
    <->
    (failedTries (nodes.Production_Gen_rec depth) p prod
       (Z.to_nat (nodes.MaxGenerationTries (nodes.options s))) s s'
     /\ e = nodes.ErrReachedMaxGenerationTries
              (nodes.MaxGenerationTries (nodes.options s'))).
Proof.
  intros depth p prod s e s' Hget. simpl. rewrite Hget. split.
  - intros [H He]. apply Production_Gen_loop_exhausted; assumption.
  - intros [H ->]. split; [|reflexivity]. apply failedTries_loop. exact H.
Qed.

(** The production [S ::= S %1.0 .] at depth 1 with a budget of 2 tries:
    both tries fail with the max-depth error of the expansion below, and
    the production returns the max-tries error. *)
Lemma Production_Gen_retries_inner_failures_witness :
  let p := nodes.mkProduction samplePosition "S"
             [nodes.mkAlternateWithProb samplePosition
                (nodes.Rule samplePosition "S") 1%float] in
  let prod := nodes.mkproduction p 1%float [1%float] in
  let opts := nodes.mkOptions 42 1 2 in
  let s := nodes.mkGeneratorState opts (nodes.mkRand (zeroSource 42 43) 0)
             [("S", prod)] in
  let s' := nodes.mkGeneratorState opts (nodes.mkRand (zeroSource 42 43) 2)
              [("S", prod)] in
  nodes.rules_get (nodes.Name p) (nodes.rules s) = Some prod
  /\ failedTries (nodes.Production_Gen_rec 0) p prod 2 s s'
  /\ nodes.ErrReachedMaxGenerationTries 2
     = nodes.ErrReachedMaxGenerationTries
         (nodes.MaxGenerationTries (nodes.options s')).
Proof.
  intros p prod opts s s'. split; [reflexivity|].
  apply (proj1 (Production_Gen_retries_inner_failures O p prod s
                  (nodes.ErrReachedMaxGenerationTries 2) s' eq_refl)).
  split; reflexivity.
Defined.

(** The grammar [S ::= A %0.5 | 0 %0.5 .  A ::= A %1.0 .] with max depth 3
    and 2 tries.  The first draw selects [A], whose expansion at depth 2
    fails all of its tries and returns the max-tries error; [S] tries
    again, the draw selects [0], and generation succeeds. *)
Lemma Grammar_Gen_retries_after_inner_max_tries :
  exists ps table prodA s1 s2,
    nodes.resolve (nodes.Productions grammar_S_A) [] = Ok (ps, table)
    /\ nodes.rules_get "A" table = Some prodA
    /\ s1 = nodes.mkGeneratorState (nodes.mkOptions 42 3 2)
              (nodes.mkRand (lateHighSource 42 43) 1) table
    /\ nodes.Production_Gen (nodes.Production_ prodA) 2 s1
       = (Err (nodes.ErrReachedMaxGenerationTries 2), s2)
    /\ nodes.drawn (nodes.seed s2) = 7%nat
    /\ fst (nodes.Grammar_Gen lateHighSource grammar_S_A
              (nodes.mkOptions 42 3 2))
       = Ok (nodes.value_float64 samplePos 0%float).
Proof.
  do 5 eexists. split; [vm_compute; reflexivity|].
  split; [reflexivity|]. split; [reflexivity|].
  split; [vm_compute; reflexivity|].
  split; vm_compute; reflexivity.
Qed.

(** ** Exact float arithmetic on the draws of the generator *)

Lemma digits2_pos_size : forall p, digits2_pos p = Pos.size p.
Proof. induction p; simpl; congruence. Qed.

Lemma Zpos_size_bounds : forall p,
  2 ^ (Z.pos (Pos.size p) - 1) <= Z.pos p < 2 ^ Z.pos (Pos.size p).
Proof.
  intro p. split.
  - pose proof (Pos.size_le p) as H.
    apply Pos2Z.pos_le_pos in H. rewrite Pos2Z.inj_pow in H.
    change (Z.pos p~0) with (2 * Z.pos p) in H.
    replace (Z.pos (Pos.size p)) with (Z.pos (Pos.size p) - 1 + 1) in H by lia.
    rewrite Z.pow_add_r in H by lia. change (2 ^ 1) with 2 in H. lia.
  - pose proof (Pos.size_gt p) as H.
    apply Pos2Z.pos_lt_pos in H. now rewrite Pos2Z.inj_pow in H.
Qed.

(** The number of digits is determined by the bounds. *)
Lemma digits2_pos_unique : forall p d,
  2 ^ (d - 1) <= Z.pos p < 2 ^ d -> Z.pos (digits2_pos p) = d.
Proof.
  intros p d [Hlo Hhi]. rewrite digits2_pos_size.
  destruct (Zpos_size_bounds p) as [Hlo' Hhi'].
  assert (0 < d).
  { destruct (Z.lt_ge_cases 0 d); [assumption|exfalso].
    destruct (Z.eq_dec d 0) as [->|]; [simpl in Hhi; lia|].
    rewrite Z.pow_neg_r in Hhi by lia. lia. }
  destruct (Z.lt_trichotomy (Z.pos (Pos.size p)) d) as [Hlt|[Heq|Hgt]]; [|assumption|].
  - exfalso. assert (2 ^ Z.pos (Pos.size p) <= 2 ^ (d - 1))
      by (apply Z.pow_le_mono_r; lia). lia.
  - exfalso. assert (2 ^ d <= 2 ^ (Z.pos (Pos.size p) - 1))
      by (apply Z.pow_le_mono_r; lia). lia.
Qed.

Lemma iter_pos_iter : forall {A : Type} (f : A -> A) p x,
  iter_pos f p x = Pos.iter f x p.
Proof.
  induction p as [p IH|p IH|]; intro x; simpl.
  - rewrite !IH. rewrite Pos.iter_swap. rewrite Pos.iter_swap. reflexivity.
  - rewrite !IH. reflexivity.
  - reflexivity.
Qed.

Lemma Zpos_iter_xO : forall m n,
  Z.pos (Pos.iter xO m n) = Z.pos m * 2 ^ Z.pos n.
Proof.
  intros m n. revert m. induction n using Pos.peano_ind; intro m.
  - simpl. lia.
  - rewrite Pos.iter_succ. rewrite Pos2Z.inj_succ, Z.pow_succ_r by lia.
    change (Z.pos (Pos.iter xO m n)~0) with (2 * Z.pos (Pos.iter xO m n)).
    rewrite IHn. lia.
Qed.

Lemma shr_exact : forall n m,
  iter_pos shr_1 n (Build_shr_record (Z.pos (Pos.iter xO m n)) false false)
  = Build_shr_record (Z.pos m) false false.
Proof.
  intros n m. rewrite iter_pos_iter.
  induction n using Pos.peano_ind.
  - reflexivity.
  - rewrite Pos.iter_succ_r. rewrite Pos.iter_succ. simpl shr_1. exact IHn.
Qed.

Lemma digits2_pos_iter_xO : forall m n,
  Z.pos (digits2_pos (Pos.iter xO m n)) = Z.pos (digits2_pos m) + Z.pos n.
Proof.
  intros m n. induction n using Pos.peano_ind.
  - simpl. lia.
  - rewrite Pos.iter_succ. simpl digits2_pos. lia.
Qed.

Lemma fexp_fexp64 : forall e, fexp prec emax e = fexp64 e.
Proof. reflexivity. Qed.

Lemma shr_fexp_none : forall m e,
  fexp64 (Z.pos (digits2_pos m) + e) = e ->
  shr_fexp prec emax (Z.pos m) e loc_Exact
  = (Build_shr_record (Z.pos m) false false, e).
Proof.
  intros m e H. unfold shr_fexp. simpl Zdigits2.
  rewrite fexp_fexp64, H, Z.sub_diag. reflexivity.
Qed.

Lemma binary_round_aux_exact : forall s m e m' f,
  f = fexp64 (Z.pos (digits2_pos m) + e) ->
  e <= f ->
  Z.pos m = Z.pos m' * 2 ^ (f - e) ->
  f <= 971 ->
  binary_round_aux prec emax s (Z.pos m) e loc_Exact = S754_finite s m' f.
Proof.
  intros s m e m' f Hf Hef Hm Hmax.
  assert (Hfirst : shr_fexp prec emax (Z.pos m) e loc_Exact
                   = (Build_shr_record (Z.pos m') false false, f)).
  { unfold shr_fexp. simpl Zdigits2. rewrite fexp_fexp64, <- Hf.
    destruct (f - e) as [|n|n] eqn:Hn; [| |lia].
    - simpl. rewrite Z.mul_1_r in Hm. injection Hm as ->.
      f_equal. lia.
    - rewrite <- Zpos_iter_xO in Hm. injection Hm as ->.
      simpl shr. rewrite shr_exact. f_equal. lia. }
  assert (Hdig : fexp64 (Z.pos (digits2_pos m') + f) = f).
  { rewrite Hf at 2. f_equal.
    destruct (f - e) as [|n|n] eqn:Hn; [| |lia].
    - rewrite Z.mul_1_r in Hm. injection Hm as ->. lia.
    - rewrite <- Zpos_iter_xO in Hm. injection Hm as ->.
      rewrite digits2_pos_iter_xO. lia. }
  unfold binary_round_aux. rewrite Hfirst. simpl round_nearest_even.
  rewrite (shr_fexp_none m' f Hdig). simpl shr_m.
  change (emax - prec) with 971.
  replace (f <=? 971) with true by (symmetry; apply Z.leb_le; exact Hmax).
  reflexivity.
Qed.

Lemma binary_round_exact : forall s m e m' f,
  f = fexp64 (Z.pos (digits2_pos m) + e) ->
  (e <= f -> Z.pos m = Z.pos m' * 2 ^ (f - e)) ->
  (f <= e -> Z.pos m' = Z.pos m * 2 ^ (e - f)) ->
  f <= 971 ->
  binary_round prec emax s m e = S754_finite s m' f.
Proof.
  intros s m e m' f Hf Hle Hge Hmax.
  unfold binary_round, shl_align. rewrite fexp_fexp64, <- Hf.
  destruct (f - e) as [|n|n] eqn:Hn.
  - apply binary_round_aux_exact; auto; try lia. rewrite Hn; apply Hle; lia.
  - apply binary_round_aux_exact; auto; try lia. rewrite Hn; apply Hle; lia.
  - assert (Hm' : m' = Pos.iter xO m n).
    { specialize (Hge ltac:(lia)). replace (e - f) with (Z.pos n) in Hge by lia.
      rewrite <- Zpos_iter_xO in Hge. now injection Hge. }
    rewrite <- Hm'.
    apply binary_round_aux_exact; try lia.
    + rewrite Hf at 1. f_equal. rewrite Hm', digits2_pos_iter_xO. lia.
    + rewrite Z.sub_diag. simpl. lia.
Qed.

Lemma digits_le_53 : forall k, Z.pos k < 2 ^ 53 ->
  1 <= Z.pos (digits2_pos k) <= 53.
Proof.
  intros k Hk. rewrite digits2_pos_size.
  destruct (Zpos_size_bounds k) as [Hlo _]. split; [lia|].
  destruct (Z.le_gt_cases (Z.pos (Pos.size k)) 53); [assumption|exfalso].
  assert (2 ^ 53 <= 2 ^ (Z.pos (Pos.size k) - 1))
    by (apply Z.pow_le_mono_r; lia). lia.
Qed.

Lemma topMantissa_spec : forall k, Z.pos k < 2 ^ 53 ->
  Z.pos (topMantissa k) = Z.pos k * 2 ^ (53 - Z.pos (digits2_pos k))
  /\ Z.pos (digits2_pos (topMantissa k)) = 53.
Proof.
  intros k Hk. pose proof (digits_le_53 k Hk) as Hd.
  assert (Hpow : 0 < 2 ^ (53 - Z.pos (digits2_pos k)))
    by (apply Z.pow_pos_nonneg; lia).
  assert (Heq : Z.pos (topMantissa k)
                = Z.pos k * 2 ^ (53 - Z.pos (digits2_pos k))).
  { unfold topMantissa. rewrite Z2Pos.id; [reflexivity|]. lia. }
  split; [exact Heq|].
  apply digits2_pos_unique. rewrite Heq.
  pose proof (Zpos_size_bounds k) as [Hlo Hhi].
  rewrite <- digits2_pos_size in Hlo, Hhi.
  set (d := Z.pos (digits2_pos k)) in *.
  replace (2 ^ (53 - 1)) with (2 ^ (d - 1) * 2 ^ (53 - d))
    by (rewrite <- Z.pow_add_r by lia; f_equal; lia).
  replace (2 ^ 53) with (2 ^ d * 2 ^ (53 - d))
    by (rewrite <- Z.pow_add_r by lia; f_equal; lia).
  split.
  - apply Z.mul_le_mono_nonneg_r; lia.
  - apply Z.mul_lt_mono_pos_r; lia.
Qed.

Lemma Prim2SF_float64_of_int_pos : forall k, Z.pos k < 2 ^ 53 ->
  Prim2SF (float64_of_int (Z.pos k))
  = S754_finite false (topMantissa k) (Z.pos (digits2_pos k) - 53).
Proof.
  intros k Hk. pose proof (digits_le_53 k Hk) as Hd.
  destruct (topMantissa_spec k Hk) as [Hval Hdig].
  unfold float64_of_int. simpl binary_normalize.
  rewrite (binary_round_exact false k 0 (topMantissa k)
             (Z.pos (digits2_pos k) - 53)).
  - apply FloatAxioms.Prim2SF_SF2Prim. unfold valid_binary, bounded, canonical_mantissa.
    rewrite fexp_fexp64, Hdig. unfold fexp64.
    apply andb_true_iff. split; [apply Z.eqb_eq|apply Z.leb_le];
      change (emax - prec) with 971; lia.
  - unfold fexp64. lia.
  - intro H. assert (H53 : Z.pos (digits2_pos k) = 53) by lia.
    rewrite Hval, H53. simpl. lia.
  - intro H. rewrite Hval. f_equal. f_equal. lia.
  - lia.
Qed.

Lemma div_eucl_shift : forall M,
  Z.div_eucl (Z.shiftl (Z.pos M) 53) 4503599627370496 = (Z.pos M~0, 0).
Proof.
  intro M. rewrite Z.shiftl_mul_pow2 by lia.
  pose proof (Z_div_mod (Z.pos M * 2 ^ 53) 4503599627370496 eq_refl) as H.
  destruct (Z.div_eucl (Z.pos M * 2 ^ 53) 4503599627370496) as [q r].
  destruct H as [H1 H2]. change (2 ^ 53) with 9007199254740992 in H1.
  f_equal; lia.
Qed.

(** Division by 2^53 of a float with a full mantissa lowers its exponent. *)
Lemma Prim2SF_div_2p53 : forall x M e,
  Prim2SF x = S754_finite false M e ->
  Z.pos (digits2_pos M) = 53 ->
  -1020 <= e <= 1024 ->
  Prim2SF (x / 9007199254740992)%float = S754_finite false M (e - 53).
Proof.
  intros x M e Hx Hdig He. rewrite FloatAxioms.div_spec, Hx.
  change (Prim2SF 9007199254740992%float)
    with (S754_finite false 4503599627370496 1).
  unfold SF64div, SFdiv, SFdiv_core_binary. simpl Zdigits2.
  rewrite Hdig. change (Z.pos (digits2_pos 4503599627370496)) with 53.
  rewrite fexp_fexp64. unfold fexp64.
  replace (Z.min (Z.max (53 + e - (53 + 1) - 53) (-1074)) (e - 1))
    with (e - 54) by lia.
  replace (e - 1 - (e - 54)) with 53 by lia.
  rewrite div_eucl_shift. simpl new_location. simpl xorb.
  apply binary_round_aux_exact; simpl digits2_pos; unfold fexp64.
  - rewrite Pos2Z.inj_succ, Hdig. lia.
  - lia.
  - replace (e - 53 - (e - 54)) with 1 by lia. lia.
  - lia.
Qed.

(** Multiplication by 2 of a float with a full mantissa raises its
    exponent. *)
Lemma Prim2SF_mul_2 : forall x M e,
  Prim2SF x = S754_finite false M e ->
  Z.pos (digits2_pos M) = 53 ->
  -1075 <= e <= 970 ->
  Prim2SF (x * 2)%float = S754_finite false M (e + 1).
Proof.
  intros x M e Hx Hdig He. rewrite FloatAxioms.mul_spec, Hx.
  change (Prim2SF 2%float) with (S754_finite false 4503599627370496 (-51)).
  unfold SF64mul, SFmul. simpl xorb.
  assert (Hd : Z.pos (digits2_pos (M * 4503599627370496)) = 105).
  { apply digits2_pos_unique. rewrite Pos2Z.inj_mul.
    pose proof (Zpos_size_bounds M) as [Hlo Hhi].
    rewrite <- digits2_pos_size, Hdig in Hlo, Hhi.
    change (2 ^ (53 - 1)) with 4503599627370496 in Hlo.
    change (2 ^ 53) with 9007199254740992 in Hhi.
    change (2 ^ (105 - 1)) with (4503599627370496 * 4503599627370496).
    change (2 ^ 105) with (9007199254740992 * 4503599627370496). lia. }
  apply binary_round_aux_exact; unfold fexp64.
  - rewrite Hd. lia.
  - lia.
  - replace (e + 1 - (e + -51)) with 52 by lia. rewrite Pos2Z.inj_mul.
    reflexivity.
  - lia.
Qed.

Lemma pow2_split : forall a b, 0 <= a -> 0 <= b -> 2 ^ (a + b) = 2 ^ a * 2 ^ b.
Proof. intros. apply Z.pow_add_r; assumption. Qed.

(** Rounding a number [p * 2^t * 2^e] whose odd part [p] fits the
    mantissa is exact. *)
Lemma binary_round_scaled : forall s p t e pD,
  Z.pos pD = Z.pos p * 2 ^ t ->
  0 <= t ->
  Z.pos p < 2 ^ 53 ->
  -1074 <= Z.pos (digits2_pos p) + t + e - 53 <= 971 ->
  binary_round prec emax s pD e
  = S754_finite s (topMantissa p) (Z.pos (digits2_pos p) + t + e - 53).
Proof.
  intros s p t e pD HpD Ht Hp Hf.
  pose proof (digits_le_53 p Hp) as Hd.
  destruct (topMantissa_spec p Hp) as [Hval _].
  set (d := Z.pos (digits2_pos p)) in *.
  assert (HdD : Z.pos (digits2_pos pD) = d + t).
  { apply digits2_pos_unique. rewrite HpD.
    pose proof (Zpos_size_bounds p) as [Hlo Hhi].
    rewrite <- digits2_pos_size in Hlo, Hhi. fold d in Hlo, Hhi.
    assert (0 < 2 ^ t) by (apply Z.pow_pos_nonneg; lia).
    replace (d + t - 1) with (d - 1 + t) by lia.
    rewrite !pow2_split by lia. split.
    - apply Z.mul_le_mono_nonneg_r; lia.
    - apply Z.mul_lt_mono_pos_r; lia. }
  apply binary_round_exact.
  - rewrite HdD. unfold fexp64. lia.
  - intro H. rewrite HpD, Hval.
    replace t with (53 - d + (d + t + e - 53 - e)) at 1 by lia.
    rewrite pow2_split by lia. lia.
  - intro H. rewrite HpD, Hval.
    replace (53 - d) with (t + (e - (d + t + e - 53))) by lia.
    rewrite pow2_split by lia. lia.
  - lia.
Qed.

Lemma shl_align_fst : forall m ex ex',
  ex' <= ex ->
  Z.pos (fst (shl_align m ex ex')) = Z.pos m * 2 ^ (ex - ex').
Proof.
  intros m ex ex' H. unfold shl_align.
  destruct (ex' - ex) as [|n|n] eqn:Hn; [|lia|].
  - replace (ex - ex') with 0 by lia. simpl. lia.
  - simpl fst. rewrite Zpos_iter_xO. f_equal. f_equal. lia.
Qed.

(** The value [2u - 1] for [2u = k * 2^-52] with [0 < k < 2^53]. *)
Lemma Prim2SF_sub_1 : forall x k,
  Z.pos k < 2 ^ 53 ->
  Prim2SF x = S754_finite false (topMantissa k)
                (Z.pos (digits2_pos k) - 105) ->
  Prim2SF (x - 1)%float = S754_zero false
  \/ exists s m e, Prim2SF (x - 1)%float = S754_finite s m e /\ e <= -53.
Proof.
  intros x k Hk Hx. pose proof (digits_le_53 k Hk) as Hd.
  destruct (topMantissa_spec k Hk) as [Hval Hdig].
  set (d := Z.pos (digits2_pos k)) in *.
  rewrite FloatAxioms.sub_spec, Hx.
  change (Prim2SF 1%float) with (S754_finite false 4503599627370496 (-52)).
  unfold SF64sub, SFsub. replace (Z.min (d - 105) (-52)) with (d - 105) by lia.
  unfold cond_Zopp.
  rewrite !shl_align_fst by lia. rewrite Z.sub_diag, Z.mul_1_r.
  replace (-52 - (d - 105)) with (53 - d) by lia.
  rewrite Hval.
  assert (Hpow : 0 < 2 ^ (53 - d)) by (apply Z.pow_pos_nonneg; lia).
  assert (HD : Z.pos k * 2 ^ (53 - d) - 4503599627370496 * 2 ^ (53 - d)
               = (Z.pos k - 4503599627370496) * 2 ^ (53 - d)) by lia.
  rewrite HD. clear HD.
  change (2 ^ 53) with 9007199254740992 in Hk.
  destruct (Z.pos k - 4503599627370496) as [|j|j] eqn:Hj.
  - left. reflexivity.
  - right.
    assert (Hjk : Z.pos j < 2 ^ 53)
      by (change (2 ^ 53) with 9007199254740992; lia).
    pose proof (digits_le_53 j Hjk) as Hdj.
    assert (Hdj52 : Z.pos (digits2_pos j) <= 52).
    { destruct (Z.le_gt_cases (Z.pos (digits2_pos j)) 52); [assumption|].
      exfalso. assert (Z.pos (digits2_pos j) = 53) by lia.
      pose proof (Zpos_size_bounds j) as [Hlo _].
      rewrite <- digits2_pos_size, H0 in Hlo.
      change (2 ^ (53 - 1)) with 4503599627370496 in Hlo. lia. }
    destruct (Z.pos j * 2 ^ (53 - d)) as [|pD|pD] eqn:HpD; try nia.
    unfold binary_normalize.
    exists false, (topMantissa j), (Z.pos (digits2_pos j) + (53 - d) + (d - 105) - 53).
    split; [|lia].
    apply binary_round_scaled; auto; lia.
  - right.
    assert (Hjk : Z.pos j < 2 ^ 53)
      by (change (2 ^ 53) with 9007199254740992; lia).
    pose proof (digits_le_53 j Hjk) as Hdj.
    assert (Hdj52 : Z.pos (digits2_pos j) <= 52).
    { destruct (Z.le_gt_cases (Z.pos (digits2_pos j)) 52); [assumption|].
      exfalso. assert (Z.pos (digits2_pos j) = 53) by lia.
      pose proof (Zpos_size_bounds j) as [Hlo _].
      rewrite <- digits2_pos_size, H0 in Hlo.
      change (2 ^ (53 - 1)) with 4503599627370496 in Hlo. lia. }
    destruct (Z.neg j * 2 ^ (53 - d)) as [|pD|pD] eqn:HpD; try nia.
    unfold binary_normalize.
    exists true, (topMantissa j), (Z.pos (digits2_pos j) + (53 - d) + (d - 105) - 53).
    split; [|lia].
    apply binary_round_scaled; auto; lia.
Qed.

(** An integer below 2^53 divided by 2^53 lies in [0, 1), and twice it
    minus one in [-1, 1): no step of the computation rounds up to the
    bound. *)
Lemma Float64_value_range : forall k,
  0 <= k < 2 ^ 53 ->
  let u := (float64_of_int k / 9007199254740992)%float in
  (0 <=? u)%float = true /\ (u <? 1)%float = true
  /\ (-1 <=? u * 2 - 1)%float = true /\ (u * 2 - 1 <? 1)%float = true.
Proof.
  intros [|p|p] Hk u; [vm_compute; auto| |lia].
  assert (Hp : Z.pos p < 2 ^ 53) by lia.
  pose proof (digits_le_53 p Hp) as Hd.
  destruct (topMantissa_spec p Hp) as [_ Hdig].
  pose proof (Prim2SF_float64_of_int_pos p Hp) as H0.
  pose proof (Prim2SF_div_2p53 _ _ _ H0 Hdig ltac:(lia)) as Hu.
  fold u in Hu.
  pose proof (Prim2SF_mul_2 _ _ _ Hu Hdig ltac:(lia)) as H2u.
  replace (Z.pos (digits2_pos p) - 53 - 53 + 1)
    with (Z.pos (digits2_pos p) - 105) in H2u by lia.
  pose proof (Prim2SF_sub_1 _ p Hp H2u) as Hv.
  rewrite !FloatAxioms.leb_spec, !FloatAxioms.ltb_spec, Hu.
  change (Prim2SF 0%float) with (S754_zero false).
  change (Prim2SF 1%float) with (S754_finite false 4503599627370496 (-52)).
  change (Prim2SF (-1)%float)
    with (S754_finite true 4503599627370496 (-52)).
  split; [reflexivity|]. split.
  - unfold SFltb, SFcompare.
    replace (Z.pos (digits2_pos p) - 53 - 53 ?= -52) with Lt
      by (symmetry; apply Z.compare_lt_iff; lia).
    reflexivity.
  - destruct Hv as [Hv|(s & m & e & Hv & He)]; rewrite Hv.
    + split; reflexivity.
    + unfold SFleb, SFltb, SFcompare. destruct s.
      * replace (-52 ?= e) with Gt
          by (symmetry; apply Z.compare_gt_iff; lia).
        split; reflexivity.
      * replace (e ?= -52) with Lt
          by (symmetry; apply Z.compare_lt_iff; lia).
        split; reflexivity.
Qed.

(** [r.Uint64()<<11>>11] keeps the low 53 bits of the value drawn. *)
Lemma Float64_mantissa_range : forall u,
  0 <= Z.shiftr (Z.shiftl u 11 mod 2 ^ 64) 11 < 2 ^ 53.
Proof.
  intro u. rewrite Z.shiftr_div_pow2 by lia.
  pose proof (Z.mod_pos_bound (Z.shiftl u 11) (2 ^ 64) ltac:(lia)) as Hm.
  split.
  - apply Z.div_pos; lia.
  - apply Z.div_lt_upper_bound; [lia|].
    change (2 ^ 11 * 2 ^ 53) with (2 ^ 64). lia.
Qed.

(** Every draw of [Rand.Float64] lies in [0, 1), whatever the source
    returns, and [u * 2 - 1] lies in [-1, 1). *)
Lemma Float64_range : forall r,
  let u := fst (nodes.Float64 r) in
  (0 <=? u)%float = true /\ (u <? 1)%float = true
  /\ (-1 <=? u * 2 - 1)%float = true /\ (u * 2 - 1 <? 1)%float = true.
Proof.
  intro r. unfold nodes.Float64, nodes.Uint64. cbn [fst].
  apply Float64_value_range, Float64_mantissa_range.
Qed.

(** ** Random templates *)

(** [Random.Gen] draws once from the source of the state and returns the
    constant [u * 2 - 1] for the value [u] drawn. *)
Lemma Random_Gen_draws_once : forall ruleGen p b s,
  nodes.Alternate_Gen ruleGen (nodes.Random p b) s
  = (Ok (nodes.value_float64 (nodes.pToP p)
           (fst (nodes.Float64 (nodes.seed s)) * 2 - 1)%float),
     nodes.mkGeneratorState (nodes.options s)
       (nodes.mkRand (nodes.source (nodes.seed s))
          (S (nodes.drawn (nodes.seed s))))
       (nodes.rules s)).
Proof.
  intros. simpl. unfold nodes.gen_bind, nodes.seed_Float64, nodes.Float64.
  simpl. reflexivity.
Qed.

Lemma renderPoint_constant_triple : forall p p1 p2 p3 v1 v2 v3 state,
  render.renderPoint
    (nodes.triple p (nodes.value_float64 p1 v1) (nodes.value_float64 p2 v2)
       (nodes.value_float64 p3 v3)) state
  = Ok (constantColor v1 v2 v3).
Proof. reflexivity. Qed.

Lemma frameJob_constant_triple_2x2 : forall p p1 p2 p3 v1 v2 v3 logger,
  render.frameJob
    (nodes.triple p (nodes.value_float64 p1 v1) (nodes.value_float64 p2 v2)
       (nodes.value_float64 p3 v3))
    (render.mkRenderOptions 2 2 1 (Some (render.Uniform render.color_White))
       logger) 0
  = Some (render.mkFrameResult 0
            (Some (render.mkRGBAImage (render.mkRectangle 0 0 2 2)
                     (repeat (constantColor v1 v2 v3) 4))) None).
Proof. reflexivity. Qed.

Lemma Production_Gen_try_single : forall ruleGen pos name a prod s,
  nodes.Production_Gen_try ruleGen (nodes.mkProduction pos name [a]) prod s
  = nodes.Alternate_Gen ruleGen (nodes.Alternate_ a)
      (nodes.mkGeneratorState (nodes.options s)
         (nodes.mkRand (nodes.source (nodes.seed s))
            (S (nodes.drawn (nodes.seed s))))
         (nodes.rules s)).
Proof.
  intros. unfold nodes.Production_Gen_try, nodes.gen_bind, nodes.seed_Float64.
  unfold nodes.Float64 at 1. simpl.
  match goal with
  | |- context [nodes.selectAlternative ?p ?prod ?u] =>
      pose proof (selectAlternative_valid p prod u ltac:(discriminate)) as Hsel;
      simpl in Hsel;
      replace (nodes.selectAlternative p prod u) with 0 by lia
  end.
  reflexivity.
Qed.

(** C7: for the grammar [S ::= {?, ?, ?} %1.0 .], every seed, and every
    positive max depth and try budget, generation succeeds after four
    draws from the source: one to select the alternative and one for each
    [?], which becomes the constant [u * 2 - 1] for the value [u] drawn, a
    number in [-1, 1).  The root is a triple of constants: it evaluates to
    itself in every coordinate state, so the four pixels of the 2x2 frame
    have the same colour, fixed by the seed alone, and rendering again
    from the same seed gives the same image. *)
Theorem Random_baked_at_generation :
  forall NewPCG opts,
    1 <= nodes.MaxDepth opts ->
    1 <= nodes.MaxGenerationTries opts ->
    let source := NewPCG (nodes.Seed opts) ((nodes.Seed opts + 1) mod 2 ^ 64) in
    let v i := (fst (nodes.Float64 (nodes.mkRand source i)) * 2 - 1)%float in
    let root := nodes.triple samplePos
                  (nodes.value_float64 samplePos (v 1%nat))
                  (nodes.value_float64 samplePos (v 2%nat))
                  (nodes.value_float64 samplePos (v 3%nat)) in
    let options := render.mkRenderOptions 2 2 1
                     (Some (render.Uniform render.color_White)) false in
    let image := render.mkRGBAImage (render.mkRectangle 0 0 2 2)
                   (repeat (constantColor (v 1%nat) (v 2%nat) (v 3%nat)) 4) in
    (exists s',
        nodes.Grammar_Gen NewPCG grammar_random_triple opts = (Ok root, Some s')
        /\ nodes.seed s' = nodes.mkRand source 4)
    /\ (forall i, (-1 <=? v i)%float = true /\ (v i <? 1)%float = true)
    /\ (forall state, nodes.Eval root state = Ok root)
    /\ render.apply render.defaultRenderOptions
         [render.WithResolution 2 2; render.WithFrames 1] = Ok (options, None)
    /\ render.completions root options [0]
       = [render.Result (render.mkFrameResult 0 (Some image) None)]
    /\ render.Render root [render.WithResolution 2 2; render.WithFrames 1]
         (render.completions root options [0]) = Ok (Some image, None).
Proof.
  intros NewPCG opts Hdepth Htries source v root options image.
  split; [|split; [|repeat split; reflexivity]]; cycle 1.
  { intro i. exact (proj2 (proj2 (Float64_range (nodes.mkRand source i)))). }
  unfold nodes.Grammar_Gen.
  change (nodes.resolve (nodes.Productions grammar_random_triple) [])
    with (Ok ([nodes.mkProduction samplePosition "S"
                 [nodes.mkAlternateWithProb samplePosition
                    (nodes.Triplet samplePosition
                       (nodes.Random samplePosition true)
                       (nodes.Random samplePosition true)
                       (nodes.Random samplePosition true)) 1%float]],
              [("S", nodes.mkproduction
                       (nodes.mkProduction samplePosition "S"
                          [nodes.mkAlternateWithProb samplePosition
                             (nodes.Triplet samplePosition
                                (nodes.Random samplePosition true)
                                (nodes.Random samplePosition true)
                                (nodes.Random samplePosition true)) 1%float])
                       1%float [1%float])]) : outcome nodes.error _).
  cbv iota beta. fold source.
  unfold nodes.Production_Gen.
  destruct (Z.to_nat (nodes.MaxDepth opts)) as [|depth] eqn:Hd; [lia|].
  cbn [nodes.Production_Gen_rec nodes.rules nodes.Name nodes.rules_get
       String.eqb Ascii.eqb Bool.eqb nodes.options].
  destruct (Z.to_nat (nodes.MaxGenerationTries opts)) as [|n] eqn:Hn; [lia|].
  cbn [nodes.Production_Gen_loop].
  rewrite Production_Gen_try_single.
  eexists. split; reflexivity.
Qed.

(** Seed 42 with the default max depth and try budget, over a source whose
    values are all zero: the three constants are -1 and the four pixels
    are black. *)
Lemma Random_baked_at_generation_witness :
  let root := nodes.triple samplePos
                (nodes.value_float64 samplePos (-1)%float)
                (nodes.value_float64 samplePos (-1)%float)
                (nodes.value_float64 samplePos (-1)%float) in
  let options := render.mkRenderOptions 2 2 1
                   (Some (render.Uniform render.color_White)) false in
  let image := render.mkRGBAImage (render.mkRectangle 0 0 2 2)
                 (repeat (render.mkRGBA 0 0 0 255) 4) in
  (exists s',
      nodes.Grammar_Gen zeroSource grammar_random_triple
        (nodes.mkOptions 42 10 100) = (Ok root, Some s')
      /\ nodes.seed s' = nodes.mkRand (zeroSource 42 43) 4)
  /\ (forall i : nat, (-1 <=? -1)%float = true /\ (-1 <? 1)%float = true)
  /\ (forall state, nodes.Eval root state = Ok root)
  /\ render.apply render.defaultRenderOptions
       [render.WithResolution 2 2; render.WithFrames 1] = Ok (options, None)
  /\ render.completions root options [0]
     = [render.Result (render.mkFrameResult 0 (Some image) None)]
  /\ render.Render root [render.WithResolution 2 2; render.WithFrames 1]
       (render.completions root options [0]) = Ok (Some image, None).
Proof.
  exact (Random_baked_at_generation zeroSource (nodes.mkOptions 42 10 100)
           ltac:(discriminate) ltac:(discriminate)).
Defined.

(** The constant of a [?] at the two ends of the range of [Float64]: the
    smallest draw gives -1, the largest gives the float just below 1. *)
Example Random_value_extremes :
  let value k := (fst (nodes.Float64 (nodes.mkRand (fun _ => k) 0)) * 2 - 1)%float in
  value 0 = (-1)%float
  /\ value (2 ^ 64 - 1) = 0x1.ffffffffffffep-1%float
  /\ (value (2 ^ 64 - 1)%Z <? 1)%float = true.
Proof. vm_compute. repeat split. Qed.

(** ** Frame jobs and tries, as the loops above use them *)

(** A frame job whose evaluation fails at a pixel, every pixel before it
    having been rendered, reports the error of that pixel and no image. *)
Lemma frameJob_pixel_failure :
  forall root options src f pts1 x y pts2 e,
    render.opt_src options = Some src ->
    render.points (render.opt_width options) (render.opt_height options)
    = pts1 ++ (x, y) :: pts2 ->
    Forall (fun pt =>
              is_Ok (render.renderPoint root
                       (nodes.S (fst pt) (snd pt) (render.opt_width options)
                          (render.opt_height options) f
                          (render.opt_frames options)
                          (render.Image_At src (fst pt) (snd pt)))) = true)
      pts1 ->
    render.renderPoint root
      (nodes.S x y (render.opt_width options) (render.opt_height options) f
         (render.opt_frames options) (render.Image_At src x y)) = Err e ->
    render.frameJob root options f
    = Some (render.mkFrameResult f None (Some (render.NodeError e))).
Proof.
  intros root options src f pts1 x y pts2 e Hsrc Hpts Hbefore Hfail.
  unfold render.frameJob. rewrite Hsrc, Hpts. clear Hpts.
  generalize (render.NewRGBA
                (render.mkRectangle 0 0 (render.opt_width options)
                   (render.opt_height options))).
  induction Hbefore as [|[x' y'] pts1 Hok _ IH]; intro m; simpl.
  - rewrite Hfail. reflexivity.
  - simpl in Hok.
    destruct (render.renderPoint root _) as [c| |]; try discriminate.
    simpl. apply IH.
Qed.

(** One try of a production that has alternatives draws once from the
    source and generates the alternative at the index selected for the
    value drawn. *)
Lemma Production_Gen_try_selects : forall ruleGen p prod s,
  nodes.Alternatives p <> [] ->
  let u := fst (nodes.Float64 (nodes.seed s)) in
  exists a,
    nth_error (nodes.Alternatives p)
      (Z.to_nat (nodes.selectAlternative p prod u)) = Some a
    /\ nodes.Production_Gen_try ruleGen p prod s
       = nodes.Alternate_Gen ruleGen (nodes.Alternate_ a)
           (nodes.mkGeneratorState (nodes.options s)
              (nodes.mkRand (nodes.source (nodes.seed s))
                 (S (nodes.drawn (nodes.seed s))))
              (nodes.rules s)).
Proof.
  intros ruleGen p prod s Hne u.
  pose proof (selectAlternative_valid p prod u Hne) as Hsel.
  destruct (nth_error (nodes.Alternatives p)
              (Z.to_nat (nodes.selectAlternative p prod u)))
    as [a|] eqn:Hnth; [|apply nth_error_None in Hnth; lia].
  exists a. split; [reflexivity|].
  unfold nodes.Production_Gen_try, nodes.gen_bind, nodes.seed_Float64.
  subst u. destruct (nodes.Float64 (nodes.seed s)) as [u r'] eqn:Hdraw.
  assert (Hr' : r' = nodes.mkRand (nodes.source (nodes.seed s))
                       (S (nodes.drawn (nodes.seed s)))).
  { unfold nodes.Float64, nodes.Uint64 in Hdraw. injection Hdraw as _ <-.
    reflexivity. }
  simpl in Hsel, Hnth |- *.
  replace (nodes.selectAlternative p prod u <? 0) with false
    by (symmetry; apply Z.ltb_ge; lia).
  rewrite Hnth, Hr'. reflexivity.
Qed.

(** ** Valid components, final nodes and kinds *)

Lemma Valid_In : forall ct,
  nodes.Valid ct = true <-> In ct nodes.componentTypes.
Proof.
  intro ct. unfold nodes.Valid.
  change nodes.componentTypeRegex
    with (Some ["x"; "y"; "f"; "r"; "g"; "b"]%char).
  split.
  - destruct ct as [|c [|c' s]]; simpl; try discriminate.
    intro H.
    repeat match type of H with
           | (Ascii.eqb ?a ?b || _)%bool = true =>
               let E := fresh in
               destruct (Ascii.eqb a b) eqn:E;
               [apply Ascii.eqb_eq in E; subst a|]; simpl in H
           end; try discriminate;
      unfold nodes.componentTypes; simpl; auto 10.
  - simpl. intros [<-|[<-|[<-|[<-|[<-|[<-|[]]]]]]]; reflexivity.
Qed.

Lemma component_of_In : forall s ct,
  (exists v, nodes.component_of s ct = Some v)
  <-> In ct nodes.componentTypes.
Proof.
  intros s ct. unfold nodes.component_of. split.
  - intros [v H].
    repeat match type of H with
           | (if String.eqb ?a ?b then _ else _) = _ =>
               destruct (String.eqb_spec a b) as [->|_]
           end; try discriminate; simpl; auto 10.
  - simpl. intros [<-|[<-|[<-|[<-|[<-|[<-|[]]]]]]]; simpl; eauto.
Qed.

(** X1: a component name is valid, that is, it matches the pattern built
    from [componentTypes], exactly when a component node of that name
    evaluates: [State.component] panics on the other names and on no valid
    one. *)
Theorem Valid_iff_component_defined : forall ct s p,
  nodes.Valid ct = true
  <-> exists v,
        nodes.Eval (nodes.component p ct) s = Ok (nodes.value_float64 p v).
Proof.
  intros ct s p. rewrite Valid_In, <- (component_of_In s). simpl. split.
  - intros [v ->]. eauto.
  - intros [v H].
    destruct (nodes.component_of s ct) as [w|]; [eauto|discriminate].
Qed.

Lemma bind_Ok_inv : forall {E A B : Type} (m : outcome E A)
    (k : A -> outcome E B) b,
  bind m k = Ok b -> exists a, m = Ok a /\ k a = Ok b.
Proof. intros E A B [a|e|msg] k b H; simpl in H; try discriminate; eauto. Qed.

Lemma isNumber_Ok : forall n v,
  nodes.isNumber n = Ok v -> exists p, n = nodes.value_float64 p v.
Proof.
  intros n v H; destruct n; simpl in H; try discriminate.
  injection H as ->; eauto.
Qed.

Lemma Eval_evaluated : forall n s n',
  nodes.Eval n s = Ok n' -> evaluated n' = true.
Proof.
  induction n as [p v|p v|p ct|p t l IHl r IHr|p a IHa b IHb c IHc
                 |p i IHi t IHt e IHe]; intros s n' H; simpl in H.
  - injection H as <-. reflexivity.
  - injection H as <-. reflexivity.
  - destruct (nodes.component_of s ct); [|discriminate].
    injection H as <-. reflexivity.
  - apply bind_Ok_inv in H as (left & _ & H).
    apply bind_Ok_inv in H as (right & _ & H).
    apply bind_Ok_inv in H as (leftN & _ & H).
    apply bind_Ok_inv in H as (rightN & _ & H).
    destruct (nodes.applyOp t leftN rightN); try discriminate;
      injection H as <-; reflexivity.
  - apply bind_Ok_inv in H as (one & H1 & H).
    apply bind_Ok_inv in H as (two & H2 & H).
    apply bind_Ok_inv in H as (three & H3 & H).
    injection H as <-. simpl.
    rewrite (IHa _ _ H1), (IHb _ _ H2), (IHc _ _ H3). reflexivity.
  - apply bind_Ok_inv in H as (cond & _ & H).
    apply bind_Ok_inv in H as (c & _ & H).
    destruct c; eauto.
Qed.

Lemma evaluated_Eval : forall n s,
  evaluated n = true -> nodes.Eval n s = Ok n.
Proof.
  induction n as [p v|p v|p ct|p t l IHl r IHr|p a IHa b IHb c IHc
                 |p i IHi t IHt e IHe]; intros s H; simpl in H;
    try discriminate; try reflexivity.
  apply andb_true_iff in H as [H Hc]. apply andb_true_iff in H as [Ha Hb].
  simpl. rewrite (IHa s Ha), (IHb s Hb), (IHc s Hc). reflexivity.
Qed.

(** X2: what [Eval] returns is final.  It is made of values only (numbers,
    booleans and triples of such), whatever the node evaluated, and
    evaluating it again, in any state, returns it unchanged. *)
Theorem Eval_result_is_final : forall n s n',
  nodes.Eval n s = Ok n' ->
  evaluated n' = true /\ forall s', nodes.Eval n' s' = Ok n'.
Proof.
  intros n s n' H. pose proof (Eval_evaluated n s n' H) as He.
  split; [exact He|]. intro s'. apply evaluated_Eval; exact He.
Qed.

(** [add(x, 1)] evaluates to the number 1 where [x] is 0, and that number
    evaluates to itself. *)
Lemma Eval_result_is_final_witness :
  let n := nodes.op samplePos "add" (nodes.component samplePos "x")
             (nodes.value_float64 samplePos 1%float) in
  let n' := nodes.value_float64 samplePos 1%float in
  nodes.Eval n sampleState = Ok n'
  /\ evaluated n' = true
  /\ forall s', nodes.Eval n' s' = Ok n'.
Proof.
  intros n n'. split; [reflexivity|].
  exact (Eval_result_is_final n sampleState n' eq_refl).
Defined.

Lemma Eval_componentsValid : forall n s msg,
  componentsValid n = true -> nodes.Eval n s <> Panic msg.
Proof.
  intros n s msg.
  induction n as [p v|p v|p ct|p t l IHl r IHr|p a IHa b IHb c IHc
                 |p i IHi t IHt e IHe]; intros Hv; simpl in *;
    try discriminate.
  - apply Valid_In in Hv. apply (component_of_In s) in Hv as [v ->].
    discriminate.
  - apply andb_true_iff in Hv as [Hl Hr].
    destruct (nodes.Eval l s) as [left| |]; simpl;
      [|discriminate|intro H; apply IHl; auto].
    destruct (nodes.Eval r s) as [right| |]; simpl;
      [|discriminate|intro H; apply IHr; auto].
    destruct left; simpl; try discriminate.
    destruct right; simpl; try discriminate.
    destruct (nodes.applyOp t v v0); discriminate.
  - apply andb_true_iff in Hv as [Hv Hc]. apply andb_true_iff in Hv as [Ha Hb].
    destruct (nodes.Eval a s) as [one| |]; simpl;
      [|discriminate|intro H; apply IHa; auto].
    destruct (nodes.Eval b s) as [two| |]; simpl;
      [|discriminate|intro H; apply IHb; auto].
    destruct (nodes.Eval c s) as [three| |]; simpl;
      [discriminate|discriminate|intro H; apply IHc; auto].
  - apply andb_true_iff in Hv as [Hv He]. apply andb_true_iff in Hv as [Hi Ht].
    destruct (nodes.Eval i s) as [cond| |]; simpl;
      [|discriminate|intro H; apply IHi; auto].
    destruct cond; simpl; try discriminate.
    destruct v; auto.
Qed.

(** X3: the only panic of evaluation is the one of [State.component] on a
    name that is not valid.  A node whose component names are all valid
    never panics, in [Eval] or in [renderPoint], whatever the state: it
    returns a node or an error. *)
Theorem Eval_never_panics : forall n,
  componentsValid n = true ->
  (forall s msg, nodes.Eval n s <> Panic msg)
  /\ (forall s msg, render.renderPoint n s <> Panic msg).
Proof.
  intros n Hv. split; intros s msg.
  - apply Eval_componentsValid; exact Hv.
  - unfold render.renderPoint.
    pose proof (Eval_componentsValid n s msg Hv) as Hn.
    destruct (nodes.Eval n s) as [root'| |m] eqn:He; simpl;
      [|discriminate|].
    + destruct root' as [| | | |p a b c|]; simpl; try discriminate.
      destruct a; simpl; try discriminate.
      destruct b; simpl; try discriminate.
      destruct c; simpl; discriminate.
    + intro H. apply (Eval_componentsValid n s m Hv). exact He.
Qed.

(** [add(x, true)] names a valid component: its evaluation fails with an
    error (the second operand is not a number) and does not panic. *)
Lemma Eval_never_panics_witness :
  let n := nodes.op samplePos "add" (nodes.component samplePos "x")
             (nodes.value_bool samplePos true) in
  nodes.Eval n sampleState
  = Err (nodes.ValidationError (nodes.value_bool samplePos true) nodes.number)
  /\ nodes.Eval n sampleState <> Panic "not a valid component"
  /\ render.renderPoint n sampleState <> Panic "not a valid component".
Proof.
  intro n. split; [reflexivity|].
  destruct (Eval_never_panics n eq_refl) as [H1 H2].
  split; [apply H1|apply H2].
Defined.

Lemma applyOp_handled : forall t a b,
  nodes.applyOp t a b = nodes.ResNil <-> ~ In t nodes.opTypes.
Proof.
  intros t a b. unfold nodes.applyOp. split.
  - intros H Hin. simpl in Hin.
    destruct Hin as [<-|[<-|[<-|[<-|[<-|[<-|[<-|[<-|[<-|[]]]]]]]]]];
      simpl in H; discriminate.
  - intro Hnot.
    repeat match goal with
           | |- (if String.eqb ?x ?y then _ else _) = _ =>
               destruct (String.eqb_spec x y) as [->|_];
               [exfalso; apply Hnot; simpl; auto 12|]
           end.
    reflexivity.
Qed.

(** X4: the operators handled by [op.Eval] are exactly those of
    [opTypes].  With two operands that evaluate to numbers, an operator of
    the list gives a number or a boolean, at the position of the node, and
    any other operator gives the error "operator is not handled". *)
Theorem op_Eval_handles_opTypes : forall p t l r s pl a pr b,
  nodes.Eval l s = Ok (nodes.value_float64 pl a) ->
  nodes.Eval r s = Ok (nodes.value_float64 pr b) ->
  (In t nodes.opTypes ->
   (exists v, nodes.Eval (nodes.op p t l r) s = Ok (nodes.value_float64 p v))
   \/ (exists v, nodes.Eval (nodes.op p t l r) s = Ok (nodes.value_bool p v)))
  /\ (~ In t nodes.opTypes ->
      nodes.Eval (nodes.op p t l r) s = Err (nodes.ErrOperatorNotHandled t)).
Proof.
  intros p t l r s pl a pr b Hl Hr. simpl. rewrite Hl, Hr. simpl.
  pose proof (applyOp_handled t a b) as Hh.
  destruct (nodes.applyOp t a b) as [v|v|] eqn:Happ.
  - split; [intros _; left; eauto|].
    intro Hn. apply Hh in Hn. discriminate.
  - split; [intros _; right; eauto|].
    intro Hn. apply Hh in Hn. discriminate.
  - split; [|reflexivity].
    intro Hin. exfalso. apply (proj1 Hh eq_refl Hin).
Qed.

(** [pow] is not an operator of the list: [pow(1, 2)] is not handled. *)
Lemma op_Eval_handles_opTypes_witness :
  nodes.Eval
    (nodes.op samplePos "pow" (nodes.value_float64 samplePos 1%float)
       (nodes.value_float64 samplePos 2%float)) sampleState
  = Err (nodes.ErrOperatorNotHandled "pow").
Proof.
  apply (proj2 (op_Eval_handles_opTypes samplePos "pow"
                  (nodes.value_float64 samplePos 1%float)
                  (nodes.value_float64 samplePos 2%float) sampleState
                  samplePos 1%float samplePos 2%float eq_refl eq_refl)).
  simpl. intuition discriminate.
Defined.

Lemma isOneOf_arith : forall t a b,
  isOneOf arithmeticOps t = true ->
  exists v, nodes.applyOp t a b = nodes.ResFloat v.
Proof.
  intros t a b H. unfold isOneOf in H.
  apply existsb_exists in H as (x & Hin & Heq).
  apply String.eqb_eq in Heq. subst x. simpl in Hin.
  destruct Hin as [<-|[<-|[<-|[<-|[<-|[]]]]]];
    unfold nodes.applyOp, nodes.add, nodes.sub, nodes.mul, nodes.div,
      nodes.mod_; simpl; eauto.
Qed.

Lemma isOneOf_cmp : forall t a b,
  isOneOf comparisonOps t = true ->
  exists v, nodes.applyOp t a b = nodes.ResBool v.
Proof.
  intros t a b H. unfold isOneOf in H.
  apply existsb_exists in H as (x & Hin & Heq).
  apply String.eqb_eq in Heq. subst x. simpl in Hin.
  destruct Hin as [<-|[<-|[<-|[<-|[]]]]];
    unfold nodes.applyOp, nodes.add, nodes.sub, nodes.mul, nodes.div,
      nodes.mod_, nodes.gt, nodes.ge, nodes.lt, nodes.le; simpl; eauto.
Qed.

Lemma kindOf_Eval : forall n k s,
  kindOf n = Some k ->
  exists n', nodes.Eval n s = Ok n' /\ hasKind k n'.
Proof.
  induction n as [p v|p v|p ct|p t l IHl r IHr|p a IHa b IHb c IHc
                 |p i IHi t IHt e IHe]; intros k s H; cbn [kindOf] in H.
  - injection H as <-. simpl. eauto.
  - injection H as <-. simpl. eauto.
  - destruct (nodes.Valid ct) eqn:Hv; [|discriminate]. injection H as <-.
    apply Valid_In in Hv. apply (component_of_In s) in Hv as [v Hv].
    simpl. rewrite Hv. eauto.
  - destruct (kindOf l) as [[| |]|], (kindOf r) as [[| |]|];
      try discriminate.
    destruct (IHl _ s eq_refl) as (l' & Hl & pl & vl & ->).
    destruct (IHr _ s eq_refl) as (r' & Hr & pr & vr & ->).
    simpl. rewrite Hl, Hr. simpl.
    destruct (isOneOf arithmeticOps t) eqn:Ha.
    + injection H as <-.
      destruct (isOneOf_arith t vl vr Ha) as [v ->]. simpl. eauto.
    + destruct (isOneOf comparisonOps t) eqn:Hc; [|discriminate].
      injection H as <-.
      destruct (isOneOf_cmp t vl vr Hc) as [v ->]. simpl. eauto.
  - destruct (kindOf a) as [[| |]|], (kindOf b) as [[| |]|],
      (kindOf c) as [[| |]|]; try discriminate.
    injection H as <-.
    destruct (IHa _ s eq_refl) as (a' & Ha & pa & va & ->).
    destruct (IHb _ s eq_refl) as (b' & Hb & pb & vb & ->).
    destruct (IHc _ s eq_refl) as (c' & Hc & pc & vc & ->).
    simpl. rewrite Ha, Hb, Hc. simpl. eexists. split; [reflexivity|].
    repeat eexists.
  - destruct (kindOf i) as [[| |]|], (kindOf t) as [k1|],
      (kindOf e) as [k2|]; try discriminate.
    destruct (kind_eqb k1 k2) eqn:Hk; [|discriminate]. injection H as <-.
    assert (k2 = k1) by (destruct k1, k2; simpl in Hk; congruence). subst k2.
    destruct (IHi _ s eq_refl) as (i' & Hi & pi & vi & ->).
    simpl. rewrite Hi. simpl. destruct vi; eauto.
Qed.

Lemma uint8_range : forall f, 0 <= uint8_of_float64 f < 256.
Proof. intro f. unfold uint8_of_float64. apply Z.mod_pos_bound. lia. Qed.

(** X5: a node whose parts fit together evaluates without error, in every
    state, to a value of its kind; and a root of the kind of triples is
    rendered, in every state, to an opaque colour of four bytes.  No
    validation error reaches the pipeline from such a root. *)
Theorem kindOf_sound : forall n k s,
  kindOf n = Some k ->
  (exists n', nodes.Eval n s = Ok n' /\ hasKind k n')
  /\ (k = KTriple ->
      exists c, render.renderPoint n s = Ok c
                /\ 0 <= render.R c < 256 /\ 0 <= render.G c < 256
                /\ 0 <= render.B c < 256 /\ render.A c = 255).
Proof.
  intros n k s H. split; [apply kindOf_Eval; exact H|].
  intros ->.
  destruct (kindOf_Eval n KTriple s H)
    as (n' & He & p & p1 & v1 & p2 & v2 & p3 & v3 & ->).
  unfold render.renderPoint. rewrite He. simpl.
  eexists. split; [reflexivity|]. simpl.
  repeat split; try apply uint8_range.
Qed.

(** The root [{x, mul(x, y), if lt(x, y) then 1 else r}] has the kind of
    triples: it is rendered to an opaque colour. *)
Lemma kindOf_sound_witness :
  let root :=
    nodes.triple samplePos (nodes.component samplePos "x")
      (nodes.op samplePos "mul" (nodes.component samplePos "x")
         (nodes.component samplePos "y"))
      (nodes.ifThenElse samplePos
         (nodes.op samplePos "lt" (nodes.component samplePos "x")
            (nodes.component samplePos "y"))
         (nodes.value_float64 samplePos 1%float)
         (nodes.component samplePos "r")) in
  kindOf root = Some KTriple
  /\ exists c, render.renderPoint root sampleState = Ok c
               /\ render.A c = 255.
Proof.
  intro root. split; [reflexivity|].
  destruct (proj2 (kindOf_sound root KTriple sampleState eq_refl) eq_refl)
    as (c & Hc & _ & _ & _ & Ha).
  exists c. split; [exact Hc|exact Ha].
Defined.

(** X6: [IsRoot] accepts exactly the triples of three numbers, and returns
    the three numbers in order: a triple that still holds a component, an
    operator or a boolean is refused. *)
Theorem IsRoot_characterisation : forall n a b c,
  nodes.IsRoot n = Ok (a, b, c)
  <-> exists p p1 p2 p3,
        n = nodes.triple p (nodes.value_float64 p1 a)
              (nodes.value_float64 p2 b) (nodes.value_float64 p3 c).
Proof.
  intros n a b c. split.
  - intro H. destruct n as [| | | |p x y z|]; simpl in H; try discriminate.
    apply bind_Ok_inv in H as (one & H1 & H).
    apply bind_Ok_inv in H as (two & H2 & H).
    apply bind_Ok_inv in H as (three & H3 & H).
    injection H as <- <- <-.
    apply isNumber_Ok in H1 as [p1 ->]. apply isNumber_Ok in H2 as [p2 ->].
    apply isNumber_Ok in H3 as [p3 ->]. eauto.
  - intros (p & p1 & p2 & p3 & ->). reflexivity.
Qed.

(** ** The ends of the axes and the colour channels *)

Lemma div_eucl_self_shift : forall M,
  Z.div_eucl (Z.shiftl (Z.pos M) 53) (Z.pos M) = (9007199254740992, 0).
Proof.
  intro M. rewrite Z.shiftl_mul_pow2 by lia.
  pose proof (Z_div_mod (Z.pos M * 2 ^ 53) (Z.pos M) eq_refl) as H.
  destruct (Z.div_eucl (Z.pos M * 2 ^ 53) (Z.pos M)) as [q r].
  destruct H as [H1 H2]. change (2 ^ 53) with 9007199254740992 in H1.
  assert (q = 9007199254740992) by nia. subst q. f_equal. lia.
Qed.

(** A float with a full mantissa divided by itself is one. *)
Lemma float_div_self : forall x M e,
  Prim2SF x = S754_finite false M e ->
  Z.pos (digits2_pos M) = 53 ->
  (x / x)%float = 1%float.
Proof.
  intros x M e Hx Hdig. apply FloatAxioms.Prim2SF_inj.
  rewrite FloatAxioms.div_spec, Hx.
  change (Prim2SF 1%float) with (S754_finite false 4503599627370496 (-52)).
  unfold SF64div, SFdiv, SFdiv_core_binary. simpl Zdigits2.
  rewrite Hdig. rewrite fexp_fexp64. unfold fexp64.
  replace (Z.min (Z.max (53 + e - (53 + e) - 53) (-1074)) (e - e))
    with (-53) by lia.
  replace (e - e - -53) with 53 by lia.
  rewrite div_eucl_self_shift.
  assert (Hloc : new_location (Z.pos M) 0 = loc_Exact)
    by (unfold new_location; destruct (Z.even (Z.pos M)); reflexivity).
  rewrite Hloc. simpl xorb.
  apply binary_round_aux_exact; simpl digits2_pos; unfold fexp64.
  - reflexivity.
  - lia.
  - reflexivity.
  - lia.
Qed.

Lemma float_zero_div : forall x M e,
  Prim2SF x = S754_finite false M e -> (0 / x)%float = 0%float.
Proof.
  intros x M e Hx. apply FloatAxioms.Prim2SF_inj.
  rewrite FloatAxioms.div_spec, Hx. reflexivity.
Qed.

(** The two ends of an axis of [n >= 2] elements. *)
Lemma axis_ends : forall n, 2 <= n <= 2 ^ 53 ->
  (float64_of_int 0 / float64_of_int (wrap_int (n - 1)) * 2 - 1)%float
  = (-1)%float
  /\ (float64_of_int (n - 1) / float64_of_int (wrap_int (n - 1)) * 2 - 1)%float
     = 1%float.
Proof.
  intros n Hn.
  rewrite wrap_int_id by (unfold int_min, int_max; lia).
  destruct (n - 1) as [|k|k] eqn:Hk; try lia.
  assert (Hk53 : Z.pos k < 2 ^ 53) by lia.
  pose proof (Prim2SF_float64_of_int_pos k Hk53) as Hx.
  destruct (topMantissa_spec k Hk53) as [_ Hdig].
  split.
  - change (float64_of_int 0) with 0%float.
    rewrite (float_zero_div _ _ _ Hx). reflexivity.
  - rewrite (float_div_self _ _ _ Hx Hdig). reflexivity.
Qed.

(** X7: on an axis of at least two elements (and at most 2^53) the first
    index is mapped to -1 and the last to 1, exactly: the first and the
    last column, row and frame have the coordinates -1 and 1, with no
    rounding error. *)
Theorem S_axis_ends : forall x y width height frame frames src,
  2 <= width <= 2 ^ 53 -> 2 <= height <= 2 ^ 53 -> 2 <= frames <= 2 ^ 53 ->
  nodes.X (nodes.S 0 y width height frame frames src) = (-1)%float
  /\ nodes.X (nodes.S (width - 1) y width height frame frames src) = 1%float
  /\ nodes.Y (nodes.S x 0 width height frame frames src) = (-1)%float
  /\ nodes.Y (nodes.S x (height - 1) width height frame frames src) = 1%float
  /\ nodes.F (nodes.S x y width height 0 frames src) = (-1)%float
  /\ nodes.F (nodes.S x y width height (frames - 1) frames src) = 1%float.
Proof.
  intros x y width height frame frames src Hw Hh Hf. unfold nodes.S.
  cbn [nodes.X nodes.Y nodes.F].
  destruct (axis_ends width Hw) as [Hw0 Hw1].
  destruct (axis_ends height Hh) as [Hh0 Hh1].
  destruct (axis_ends frames Hf) as [Hf0 Hf1].
  repeat split; assumption.
Qed.

(** A 400x300 image of 24 frames: the corners and the first and last
    frames are at -1 and 1. *)
Lemma S_axis_ends_witness :
  nodes.X (nodes.S 0 7 400 300 5 24 render.color_White) = (-1)%float
  /\ nodes.X (nodes.S 399 7 400 300 5 24 render.color_White) = 1%float
  /\ nodes.Y (nodes.S 3 0 400 300 5 24 render.color_White) = (-1)%float
  /\ nodes.Y (nodes.S 3 299 400 300 5 24 render.color_White) = 1%float
  /\ nodes.F (nodes.S 3 7 400 300 0 24 render.color_White) = (-1)%float
  /\ nodes.F (nodes.S 3 7 400 300 23 24 render.color_White) = 1%float.
Proof.
  exact (S_axis_ends 3 7 400 300 5 24 render.color_White
           ltac:(lia) ltac:(lia) ltac:(lia)).
Defined.

Lemma allBelow_spec : forall bits base f,
  allBelow bits base f = true ->
  forall r, base <= r < base + 2 ^ Z.of_nat bits -> f r = true.
Proof.
  induction bits as [|b IH]; intros base f H r Hr.
  - simpl in *. replace r with base by lia. exact H.
  - cbn [allBelow] in H. apply andb_true_iff in H as [H1 H2].
    rewrite Nat2Z.inj_succ, Z.pow_succ_r in Hr by lia.
    destruct (Z.lt_ge_cases r (base + 2 ^ Z.of_nat b)).
    + apply (IH base); [exact H1|lia].
    + apply (IH (base + 2 ^ Z.of_nat b)); [exact H2|lia].
Qed.

(** [float64(r)] as the processor converts an integer. *)
Lemma float64_of_int_of_uint63 : forall r, 0 <= r < 2 ^ 63 ->
  float64_of_int r = PrimFloat.of_uint63 (Uint63.of_Z r).
Proof.
  intros r Hr. unfold float64_of_int.
  rewrite <- (FloatAxioms.SF2Prim_Prim2SF
                (PrimFloat.of_uint63 (Uint63.of_Z r))).
  rewrite FloatAxioms.of_uint63_spec, Uint63.of_Z_spec.
  rewrite Z.mod_small; [reflexivity|]. exact Hr.
Qed.

(** X8: the three colour coordinates of the state lie in [-1, 1] for every
    source colour, the channels of a colour being 16-bit values: each of
    the 65536 values of a channel is mapped into the interval. *)
Theorem S_colour_channels_in_range :
  forall x y width height frame frames src,
    0 <= nodes.cr src <= 65535 ->
    0 <= nodes.cg src <= 65535 ->
    0 <= nodes.cb src <= 65535 ->
    let s := nodes.S x y width height frame frames src in
    ((-1 <=? nodes.R s) && (nodes.R s <=? 1))%float = true
    /\ ((-1 <=? nodes.G s) && (nodes.G s <=? 1))%float = true
    /\ ((-1 <=? nodes.B s) && (nodes.B s <=? 1))%float = true.
Proof.
  intros x y width height frame frames src Hr Hg Hb s.
  assert (Hall : allBelow 16 0 channelInRange = true)
    by (vm_compute; reflexivity).
  assert (Hch : forall r, 0 <= r <= 65535 ->
            ((-1 <=? float64_of_int r / 65535 * 2 - 1)
             && (float64_of_int r / 65535 * 2 - 1 <=? 1))%float = true).
  { intros r H. rewrite float64_of_int_of_uint63 by lia.
    apply (allBelow_spec 16 0 channelInRange Hall). simpl. lia. }
  subst s. simpl. auto.
Qed.

(** White has the coordinates 1, 1, 1. *)
Lemma S_colour_channels_in_range_witness :
  let s := nodes.S 0 0 2 2 0 2 render.color_White in
  nodes.R s = 1%float
  /\ ((-1 <=? nodes.R s) && (nodes.R s <=? 1))%float = true
  /\ ((-1 <=? nodes.G s) && (nodes.G s <=? 1))%float = true
  /\ ((-1 <=? nodes.B s) && (nodes.B s <=? 1))%float = true.
Proof.
  intro s. split; [reflexivity|].
  exact (S_colour_channels_in_range 0 0 2 2 0 2 render.color_White
           ltac:(simpl; lia) ltac:(simpl; lia) ltac:(simpl; lia)).
Defined.

(** X9: rendering the root [{r, g, b}] over an opaque source pixel of
    8-bit channels gives each channel back exactly or one below, never
    further off: the coordinate [c/0xFFFF*2 - 1] is mapped back by
    [(v + 1)/2*255] and truncated, and the rounding of the two divisions
    can fall just under the integer.  The loss does occur: the channel 1
    comes back as 0. *)
Theorem rgbRoot_returns_source_within_one :
  forall x y width height frame frames r g b,
    0 <= r <= 255 -> 0 <= g <= 255 -> 0 <= b <= 255 ->
    (exists r' g' b',
       render.renderPoint rgbRoot
         (nodes.S x y width height frame frames
            (nodes.mkColor (257 * r) (257 * g) (257 * b) 65535))
       = Ok (render.mkRGBA r' g' b' 255)
       /\ r - 1 <= r' <= r /\ g - 1 <= g' <= g /\ b - 1 <= b' <= b)
    /\ render.renderPoint rgbRoot
         (nodes.S x y width height frame frames
            (nodes.mkColor 0 257 65535 65535))
       = Ok (render.mkRGBA 0 0 255 255).
Proof.
  intros x y width height frame frames r g b Hr Hg Hb.
  split; [|reflexivity].
  assert (Hall : allBelow 8 0 channelBackWithinOne = true)
    by (vm_compute; reflexivity).
  assert (Hch : forall k, 0 <= k <= 255 ->
            k - 1 <= uint8_of_float64
                       ((float64_of_int (257 * k) / 65535 * 2 - 1 + 1)
                        / 2 * 255)%float
            <= k).
  { intros k H. rewrite float64_of_int_of_uint63 by lia.
    pose proof (allBelow_spec 8 0 channelBackWithinOne Hall k
                  ltac:(simpl; lia)) as Hk.
    unfold channelBackWithinOne in Hk. apply andb_true_iff in Hk as [H1 H2].
    apply Z.leb_le in H1, H2. split; assumption. }
  eexists _, _, _. split; [reflexivity|]. simpl. auto.
Qed.

(** The opaque pixel (200, 100, 50) comes back as (200, 100, 49). *)
Lemma rgbRoot_returns_source_within_one_witness :
  render.renderPoint rgbRoot
    (nodes.S 0 0 2 2 0 2 (nodes.mkColor 51400 25700 12850 65535))
  = Ok (render.mkRGBA 200 100 49 255)
  /\ exists r' g' b',
       render.renderPoint rgbRoot
         (nodes.S 0 0 2 2 0 2
            (nodes.mkColor (257 * 200) (257 * 100) (257 * 50) 65535))
       = Ok (render.mkRGBA r' g' b' 255)
       /\ 200 - 1 <= r' <= 200 /\ 100 - 1 <= g' <= 100
       /\ 50 - 1 <= b' <= 50.
Proof.
  split; [reflexivity|].
  exact (proj1 (rgbRoot_returns_source_within_one 0 0 2 2 0 2 200 100 50
                  ltac:(lia) ltac:(lia) ltac:(lia))).
Defined.

(** ** The pixels of a frame *)

Lemma range_length : forall n, length (render.range n) = Z.to_nat n.
Proof. intro n. unfold render.range. rewrite length_map, length_seq. reflexivity. Qed.

Lemma range_nth_error : forall n x, 0 <= x < n ->
  nth_error (render.range n) (Z.to_nat x) = Some x.
Proof.
  intros n x Hx. unfold render.range.
  rewrite nth_error_map, nth_error_seq.
  destruct (Nat.ltb_spec (Z.to_nat x) (Z.to_nat n)); [|lia].
  simpl. f_equal. lia.
Qed.

Lemma row_length : forall w (y : Z),
  length (map (fun x => (x, y)) (render.range w)) = Z.to_nat w.
Proof. intros. rewrite length_map. apply range_length. Qed.

Lemma points_rows : forall w (ys : list Z),
  length (flat_map (fun y => map (fun x => (x, y)) (render.range w)) ys)
  = (length ys * Z.to_nat w)%nat.
Proof.
  induction ys as [|y ys IH]; simpl; [reflexivity|].
  rewrite length_app, row_length, IH. reflexivity.
Qed.

Lemma points_length : forall w h,
  length (render.points w h) = (Z.to_nat h * Z.to_nat w)%nat.
Proof. intros. unfold render.points. rewrite points_rows, range_length. reflexivity. Qed.

Lemma points_In : forall w h x y,
  In (x, y) (render.points w h) <-> 0 <= x < w /\ 0 <= y < h.
Proof.
  intros w h x y. unfold render.points. rewrite in_flat_map. split.
  - intros (y' & Hy & Hin). apply in_map_iff in Hin as (x' & Heq & Hx).
    injection Heq as <- <-. apply range_In in Hx, Hy. lia.
  - intros [Hx Hy]. exists y. split; [apply range_In; lia|].
    apply in_map_iff. exists x. split; [reflexivity|apply range_In; lia].
Qed.

Lemma flat_map_rows_nth : forall w (ys : list Z) (i : nat) y x,
  0 <= x < w ->
  nth_error ys i = Some y ->
  nth_error (flat_map (fun y => map (fun x => (x, y)) (render.range w)) ys)
    (i * Z.to_nat w + Z.to_nat x) = Some (x, y).
Proof.
  intros w ys. induction ys as [|y0 ys IH]; intros i y x Hx Hi.
  - destruct i; discriminate.
  - simpl. destruct i as [|i]; simpl in Hi.
    + injection Hi as ->. simpl.
      rewrite nth_error_app1 by (rewrite row_length; lia).
      rewrite nth_error_map, range_nth_error by lia. reflexivity.
    + rewrite nth_error_app2 by (rewrite row_length; lia).
      rewrite row_length.
      replace (S i * Z.to_nat w + Z.to_nat x - Z.to_nat w)%nat
        with (i * Z.to_nat w + Z.to_nat x)%nat by lia.
      apply IH; assumption.
Qed.

Lemma points_nth_error : forall w h x y,
  0 <= x < w -> 0 <= y < h ->
  nth_error (render.points w h) (Z.to_nat (y * w + x)) = Some (x, y).
Proof.
  intros w h x y Hx Hy. unfold render.points.
  replace (Z.to_nat (y * w + x)) with (Z.to_nat y * Z.to_nat w + Z.to_nat x)%nat
    by nia.
  apply flat_map_rows_nth; [assumption|]. apply range_nth_error. exact Hy.
Qed.

Lemma points_NoDup : forall w h, NoDup (render.points w h).
Proof.
  intros w h. unfold render.points.
  pose proof (range_NoDup h) as Hh. induction Hh as [|y ys Hy Hys IH]; simpl.
  - constructor.
  - apply NoDup_app.
    + apply Finite.Injective_map_NoDup; [|apply range_NoDup].
      intros a b H. congruence.
    + exact IH.
    + intros [x' y'] Hin1 Hin2.
      apply in_map_iff in Hin1 as (x0 & Heq & _). injection Heq as _ <-.
      apply in_flat_map in Hin2 as (y1 & Hy1 & Hin2).
      apply in_map_iff in Hin2 as (x1 & Heq & _). injection Heq as _ <-.
      contradiction.
Qed.

(** X10: [points] yields each pixel of the image exactly once, row by
    row: the pairs it yields are those of the rectangle, none twice, and
    pixel [(x, y)] is the element of index [y * width + x].  An image with
    no column or no row has no point. *)
Theorem points_enumerates_pixels : forall w h,
  (forall x y, In (x, y) (render.points w h) <-> 0 <= x < w /\ 0 <= y < h)
  /\ NoDup (render.points w h)
  /\ length (render.points w h) = (Z.to_nat h * Z.to_nat w)%nat
  /\ (forall x y, 0 <= x < w -> 0 <= y < h ->
        nth_error (render.points w h) (Z.to_nat (y * w + x)) = Some (x, y)).
Proof.
  intros w h. split; [intros; apply points_In|].
  split; [apply points_NoDup|]. split; [apply points_length|].
  intros; apply points_nth_error; assumption.
Qed.

Lemma list_set_app : forall {T : Type} (a : list T) z b v,
  render.list_set (a ++ z :: b) (length a) v = a ++ v :: b.
Proof.
  induction a as [|x a IH]; intros; simpl; [reflexivity|]. rewrite IH. reflexivity.
Qed.

Lemma frameJob_loop_pixels :
  forall root options src f colour w h,
    w = render.opt_width options -> h = render.opt_height options ->
    1 <= w <= int_max -> 1 <= h ->
    (forall x y, 0 <= x < w -> 0 <= y < h ->
       render.renderPoint root
         (nodes.S x y w h f (render.opt_frames options)
            (render.Image_At src x y)) = Ok (colour x y)) ->
    forall done todo,
      render.points w h = done ++ todo ->
      render.frameJob_loop root options src f todo
        (render.mkRGBAImage (render.mkRectangle 0 0 w h)
           (map (fun pt => colour (fst pt) (snd pt)) done
            ++ repeat zeroRGBA (length todo)))
      = Ok (render.mkRGBAImage (render.mkRectangle 0 0 w h)
              (map (fun pt => colour (fst pt) (snd pt)) (render.points w h))).
Proof.
  intros root options src f colour w h Hw Hh Hwpos Hhpos Hcol done todo.
  revert done. induction todo as [|[x y] todo IH]; intros done Hsplit.
  - simpl. rewrite app_nil_r in *. rewrite Hsplit. reflexivity.
  - assert (Hin : In (x, y) (render.points w h))
      by (rewrite Hsplit; apply in_or_app; right; left; reflexivity).
    apply points_In in Hin as [Hx Hy].
    assert (Hidx : Z.to_nat (y * w + x) = length done).
    { pose proof (points_nth_error w h x y Hx Hy) as H1.
      assert (H2 : nth_error (render.points w h) (length done) = Some (x, y)).
      { rewrite Hsplit, nth_error_app2, Nat.sub_diag by lia. reflexivity. }
      apply (proj1 (NoDup_nth_error (render.points w h)) (points_NoDup w h)
               (Z.to_nat (y * w + x)) (length done));
        [apply nth_error_Some; congruence|congruence]. }
    cbn [render.frameJob_loop]. rewrite <- Hw, <- Hh, Hcol by assumption.
    cbn [bind]. unfold render.RGBA_Set.
    cbn [render.Rect render.MinX render.MaxX render.MinY render.MaxY render.Pix].
    replace ((0 <=? x) && (x <? w) && (0 <=? y) && (y <? h)) with true
      by (symmetry; rewrite !andb_true_iff, !Z.leb_le, !Z.ltb_lt; lia).
    unfold render.Dx. cbn [render.MinX render.MaxX].
    rewrite Z.sub_0_r, wrap_int_id by (unfold int_min; lia).
    rewrite !Z.sub_0_r, Hidx.
    cbn [repeat length].
    replace (length done) with (length (map (fun pt => colour (fst pt) (snd pt)) done))
      by apply length_map.
    rewrite list_set_app.
    replace (map (fun pt => colour (fst pt) (snd pt)) done
             ++ colour x y :: repeat zeroRGBA (length todo))
      with (map (fun pt => colour (fst pt) (snd pt)) (done ++ [(x, y)])
            ++ repeat zeroRGBA (length todo))
      by (rewrite map_app, <- app_assoc; reflexivity).
    apply IH. rewrite <- app_assoc. exact Hsplit.
Qed.

(** X11: a frame job whose every pixel renders returns the frame number
    it was given, no error, and an image of the width and height of the
    options in which the pixel [(x, y)], at index [y * width + x], is the
    colour rendered for the state of [(x, y)] in that frame over the
    source pixel at [(x, y)]: no pixel is left unset and none is written
    twice.  The buffer of [4 * width * height] bytes fits an [int], as
    [image.NewRGBA] requires. *)
Theorem frameJob_renders_every_pixel :
  forall root options src f colour,
    render.opt_src options = Some src ->
    1 <= render.opt_width options ->
    1 <= render.opt_height options ->
    4 * render.opt_width options * render.opt_height options <= int_max ->
    (forall x y,
       0 <= x < render.opt_width options ->
       0 <= y < render.opt_height options ->
       render.renderPoint root
         (nodes.S x y (render.opt_width options) (render.opt_height options) f
            (render.opt_frames options) (render.Image_At src x y))
       = Ok (colour x y)) ->
    render.frameJob root options f
    = Some (render.mkFrameResult f
              (Some (render.mkRGBAImage
                       (render.mkRectangle 0 0 (render.opt_width options)
                          (render.opt_height options))
                       (map (fun pt => colour (fst pt) (snd pt))
                          (render.points (render.opt_width options)
                             (render.opt_height options)))))
              None).
Proof.
  intros root options src f colour Hsrc Hw Hh Hfit Hcol.
  unfold render.frameJob. rewrite Hsrc.
  set (w := render.opt_width options) in *.
  set (h := render.opt_height options) in *.
  assert (Hwmax : w <= int_max) by nia.
  assert (Hhmax : h <= int_max) by nia.
  pose proof (frameJob_loop_pixels root options src f colour w h eq_refl eq_refl
                ltac:(lia) ltac:(lia) Hcol [] (render.points w h) eq_refl) as H.
  simpl app in H.
  unfold render.NewRGBA, render.Dx, render.Dy.
  cbn [render.MinX render.MaxX render.MinY render.MaxY].
  rewrite !Z.sub_0_r, !wrap_int_id by (unfold int_min; lia).
  rewrite points_length in H.
  replace (Z.to_nat (w * h)) with (Z.to_nat h * Z.to_nat w)%nat by nia.
  unfold zeroRGBA in H. rewrite H. reflexivity.
Qed.

(** The root [{r, g, b}] over a 2x1 source whose pixels are black and
    white: the frame is a black pixel followed by a white one. *)
Lemma frameJob_renders_every_pixel_witness :
  let src := render.Bounded (render.mkRectangle 0 0 2 1)
               (fun x _ => if x =? 0 then nodes.mkColor 0 0 0 65535
                           else render.color_White) in
  let options := render.mkRenderOptions 2 1 1 (Some src) false in
  render.frameJob rgbRoot options 0
  = Some (render.mkFrameResult 0
            (Some (render.mkRGBAImage (render.mkRectangle 0 0 2 1)
                     [render.mkRGBA 0 0 0 255;
                      render.mkRGBA 255 255 255 255]))
            None).
Proof.
  intros src options.
  apply (frameJob_renders_every_pixel rgbRoot options src 0
           (fun x _ => if x =? 0 then render.mkRGBA 0 0 0 255
                       else render.mkRGBA 255 255 255 255)).
  - reflexivity.
  - simpl; lia.
  - simpl; lia.
  - discriminate.
  - simpl. intros x y Hx Hy.
    assert (Hxy : (x = 0 \/ x = 1) /\ y = 0) by lia.
    destruct Hxy as [[-> | ->] ->]; reflexivity.
Defined.

(** ** The loop of [frames], event by event *)

Section Loop.

Variable body : Z -> option render.RGBAImage -> bool.
Variable n : Z.

(** The elements already handed over stay in front of what the loop adds. *)
Lemma drain_out : forall buf e out,
  render.drain body buf e out
  = (fst (render.drain body buf e []), out ++ snd (render.drain body buf e [])).
Proof.
  induction buf as [|f buf IH]; intros e out; simpl.
  - rewrite app_nil_r. reflexivity.
  - destruct (negb (render.frame f =? e)); simpl.
    + rewrite app_nil_r. reflexivity.
    + destruct (body e (render.img f)).
      * rewrite (IH _ (out ++ _)), (IH _ [_]). simpl.
        rewrite <- app_assoc. reflexivity.
      * reflexivity.
Qed.

Lemma frames_loop_out : forall events e buf out,
  render.frames_loop body n events e buf out
  = (fst (render.frames_loop body n events e buf []),
     out ++ snd (render.frames_loop body n events e buf [])).
Proof.
  induction events as [|ev events IH]; intros e buf out.
  - rewrite !frames_loop_nil. destruct (e <? n); simpl; rewrite app_nil_r; reflexivity.
  - destruct ev as [c|r|].
    + simpl. destruct (e <? n); simpl; [reflexivity|rewrite app_nil_r; reflexivity].
    + rewrite !frames_loop_Result.
      destruct (e <? n); [|simpl; rewrite app_nil_r; reflexivity].
      destruct (render.err r); [reflexivity|].
      destruct (negb (render.frame r =? e)); [apply IH|].
      cbv zeta. destruct (body e (render.img r)); [|reflexivity].
      rewrite (drain_out buf _ (out ++ _)), (drain_out buf _ ([] ++ _)).
      destruct (fst (render.drain body buf (wrap_int (e + 1)) []))
        as [[e1 buf1]|].
      * rewrite (IH e1 buf1 ((out ++ _) ++ _)), (IH e1 buf1 (([] ++ _) ++ _)).
        simpl. rewrite <- !app_assoc. reflexivity.
      * simpl. rewrite <- !app_assoc. reflexivity.
    + simpl. destruct (e <? n); simpl; [reflexivity|rewrite app_nil_r; reflexivity].
Qed.

(** Composition: events after the loop has returned are not read; a loop
    left waiting goes on with the events that follow. *)
Lemma frames_loop_app : forall ev1 ev2 e buf out,
  render.frames_loop body n (ev1 ++ ev2) e buf out
  = match render.frames_loop body n ev1 e buf out with
    | (render.Waiting e' buf', out') =>
        render.frames_loop body n ev2 e' buf' out'
    | res => res
    end.
Proof.
  induction ev1 as [|ev ev1 IH]; intros ev2 e buf out.
  - simpl app. rewrite frames_loop_nil.
    destruct (e <? n) eqn:He; [reflexivity|].
    destruct ev2 as [|[c|r|] ev2]; simpl; rewrite He; reflexivity.
  - destruct ev as [c|r|]; simpl app.
    + simpl. destruct (e <? n); reflexivity.
    + rewrite !frames_loop_Result.
      destruct (e <? n); [|reflexivity].
      destruct (render.err r); [reflexivity|].
      destruct (negb (render.frame r =? e)); [apply IH|].
      cbv zeta. destruct (body e (render.img r)); [|reflexivity].
      destruct (render.drain body buf (wrap_int (e + 1)) _) as [[[e1 buf1]|] out1];
        [apply IH|reflexivity].
    + simpl. destruct (e <? n); reflexivity.
Qed.

End Loop.

(** X12: once the sequence has ended, by completion, by an error or
    because the consumer left its loop, the iterator has returned: whatever
    arrives afterwards (late results, a cancellation, the closing of the
    channel) changes neither the elements handed over nor the way the
    sequence ended. *)
Theorem frames_stops_reading_events :
  forall body options ev1 ev2 st out,
    render.frames body options ev1 = (st, out) ->
    isWaiting st = false ->
    render.frames body options (ev1 ++ ev2) = (st, out).
Proof.
  intros body options ev1 ev2 st out H Hst. unfold render.frames in *.
  rewrite frames_loop_app, H. destruct st; [discriminate|reflexivity|reflexivity].
Qed.

(** A single frame has been handed over and the loop is complete: a
    cancellation that follows is not seen. *)
Lemma frames_stops_reading_events_witness :
  let image := Some (render.mkRGBAImage (render.mkRectangle 0 0 1 1)
                       [render.mkRGBA 0 0 0 255]) in
  let options := render.mkRenderOptions 1 1 1
                   (Some (render.Uniform render.color_White)) false in
  render.frames takeAll options
    ([render.Result (render.mkFrameResult 0 image None)]
     ++ [render.CtxDone render.Canceled])
  = (render.Completed, [(image, None)]).
Proof.
  intros image options.
  exact (frames_stops_reading_events takeAll options
           [render.Result (render.mkFrameResult 0 image None)]
           [render.CtxDone render.Canceled] render.Completed
           [(image, None)] eq_refl eq_refl).
Defined.

(** X13: when the context is done, or the result channel is closed, while
    the loop waits for a result, the consumer receives the error of the
    context, or the error "frame result channel closed", as the next and
    last element, and the iterator returns: the frames waiting in the
    buffer are dropped and the events that follow are not read. *)
Theorem frames_cancelled_while_waiting :
  forall body options ev1 ev2 e buf out c,
    render.frames body options ev1 = (render.Waiting e buf, out) ->
    render.frames body options (ev1 ++ render.CtxDone c :: ev2)
    = (render.Returned, out ++ [(None, Some (render.ContextError c))])
    /\ render.frames body options (ev1 ++ render.ResultsClosed :: ev2)
       = (render.Returned,
          out ++ [(None, Some render.ErrFrameResultChannelClosed)]).
Proof.
  intros body options ev1 ev2 e buf out c H. unfold render.frames in *.
  assert (He : (e <? render.opt_frames options) = true).
  { clear -H. revert H. generalize 0 at 1. generalize (@nil render.frameResult).
    generalize (@nil render.item).
    induction ev1 as [|ev ev1 IH]; intros out0 buf0 e0 H.
    - rewrite frames_loop_nil in H.
      destruct (e0 <? render.opt_frames options) eqn:E; [|discriminate].
      injection H as <- _ _. exact E.
    - destruct ev as [c|r|].
      + simpl in H. destruct (e0 <? _); discriminate.
      + rewrite frames_loop_Result in H.
        destruct (e0 <? _); [|discriminate].
        destruct (render.err r); [discriminate|].
        destruct (negb (render.frame r =? e0)); [eapply IH; eauto|].
        cbv zeta in H. destruct (body e0 (render.img r)); [|discriminate].
        destruct (render.drain body buf0 _ _) as [[[e1 buf1]|] out1];
          [eapply IH; eauto|discriminate].
      + simpl in H. destruct (e0 <? _); discriminate. }
  rewrite !frames_loop_app, H. simpl. rewrite He. split; reflexivity.
Qed.

(** Frame 1 has arrived and waits for frame 0 when the context is
    cancelled: the consumer receives the cancellation alone. *)
Lemma frames_cancelled_while_waiting_witness :
  let image := Some (render.mkRGBAImage (render.mkRectangle 0 0 1 1)
                       [render.mkRGBA 0 0 0 255]) in
  let options := render.mkRenderOptions 1 1 2
                   (Some (render.Uniform render.color_White)) false in
  let late := render.Result (render.mkFrameResult 0 image None) in
  render.frames takeAll options
    ([render.Result (render.mkFrameResult 1 image None)]
     ++ render.CtxDone render.Canceled :: [late])
  = (render.Returned,
     [] ++ [(None, Some (render.ContextError render.Canceled))]).
Proof.
  intros image options late.
  exact (proj1 (frames_cancelled_while_waiting takeAll options
                  [render.Result (render.mkFrameResult 1 image None)]
                  [late] 0 [render.mkFrameResult 1 image None] []
                  render.Canceled eq_refl)).
Defined.

(** ** Any arrival order, any consumer *)

Section AnyArrivals.

Variable body : Z -> option render.RGBAImage -> bool.
Variable n : Z.
Hypothesis n_int : n <= int_max.

Lemma drain_in_order : forall buf e rs res out,
  Forall (fun r => 0 <= render.frame r < n /\ render.err r = None) buf ->
  0 <= e <= n ->
  map render.frame rs = render.range e ->
  render.drain body buf e (image_items rs) = (res, out) ->
  exists taken rest,
    buf = taken ++ rest
    /\ out = image_items (rs ++ taken)
    /\ map render.frame (rs ++ taken)
       = render.range (e + Z.of_nat (length taken))
    /\ e + Z.of_nat (length taken) <= n
    /\ match res with
       | Some (e', buf') => e' = e + Z.of_nat (length taken) /\ buf' = rest
       | None => True
       end.
Proof.
  induction buf as [|f buf IH]; intros e rs res out Hbuf He Hrs H; simpl in H.
  - injection H as <- <-. exists [], []. rewrite !app_nil_r, Z.add_0_r. simpl.
    repeat split; auto; lia.
  - inversion Hbuf as [|? ? [Hf Hferr] Hbuf']; subst.
    destruct (Z.eqb_spec (render.frame f) e) as [Heq|Hne]; simpl in H.
    + assert (Hrs' : map render.frame (rs ++ [f]) = render.range (e + 1)).
      { rewrite map_app, Hrs, range_succ by lia. simpl. now rewrite Heq. }
      change (image_items rs ++ [(render.img f, None)])
        with (image_items rs ++ image_items [f]) in H.
      rewrite <- image_items_app in H.
      destruct (body e (render.img f)).
      * rewrite wrap_int_id in H by (pose proof n_int; int_lia).
        destruct (IH (e + 1) (rs ++ [f]) res out Hbuf' ltac:(lia) Hrs' H)
          as (taken & rest & -> & -> & Hmap & Hle & Hres).
        exists (f :: taken), rest. rewrite <- !app_assoc in *. simpl in *.
        replace (e + Z.pos (Pos.of_succ_nat (length taken)))
          with (e + 1 + Z.of_nat (length taken)) by lia.
        repeat split; auto.
      * injection H as <- <-. exists [f], buf. simpl.
        repeat split; auto. lia.
    + injection H as <- <-. exists [], (f :: buf).
      rewrite !app_nil_r, Z.add_0_r. simpl. repeat split; auto; lia.
Qed.

Lemma frames_loop_in_order : forall events e buf rs st out,
  (forall r, In (render.Result r) events -> 0 <= render.frame r < n) ->
  Forall (fun r => 0 <= render.frame r < n /\ render.err r = None) buf ->
  0 <= e <= n ->
  map render.frame rs = render.range e ->
  render.frames_loop body n events e buf (image_items rs) = (st, out) ->
  exists rs' tail,
    out = image_items (rs ++ rs') ++ tail
    /\ map render.frame (rs ++ rs')
       = render.range (e + Z.of_nat (length rs'))
    /\ (forall r, In r rs' ->
          (In (render.Result r) events \/ In r buf) /\ render.err r = None)
    /\ (tail = [] \/ exists x, tail = [(None, Some x)] /\ st = render.Returned).
Proof.
  induction events as [|ev events IH]; intros e buf rs st out Hev Hbuf He Hrs H.
  - rewrite frames_loop_nil in H.
    exists [], []. rewrite !app_nil_r, Z.add_0_r.
    destruct (e <? n); injection H as <- <-;
      (split; [reflexivity|]; split; [assumption|];
       split; [intros r []|left; reflexivity]).
  - assert (Hnil : forall st0, (st0, image_items rs) = (st, out) ->
              exists rs' tail,
                out = image_items (rs ++ rs') ++ tail
                /\ map render.frame (rs ++ rs')
                   = render.range (e + Z.of_nat (length rs'))
                /\ (forall r, In r rs' ->
                      (In (render.Result r) (ev :: events) \/ In r buf)
                      /\ render.err r = None)
                /\ (tail = [] \/ exists x, tail = [(None, Some x)]
                                           /\ st = render.Returned)).
    { intros st0 H0. injection H0 as <- <-. exists [], [].
      rewrite !app_nil_r, Z.add_0_r.
      split; [reflexivity|]. split; [assumption|].
      split; [intros r []|left; reflexivity]. }
    assert (Herr : forall x, (render.Returned, image_items rs ++ [(None, Some x)])
                             = (st, out) ->
              exists rs' tail,
                out = image_items (rs ++ rs') ++ tail
                /\ map render.frame (rs ++ rs')
                   = render.range (e + Z.of_nat (length rs'))
                /\ (forall r, In r rs' ->
                      (In (render.Result r) (ev :: events) \/ In r buf)
                      /\ render.err r = None)
                /\ (tail = [] \/ exists x, tail = [(None, Some x)]
                                           /\ st = render.Returned)).
    { intros x H0. injection H0 as <- <-. exists [], [(None, Some x)].
      rewrite !app_nil_r, Z.add_0_r.
      split; [reflexivity|]. split; [assumption|].
      split; [intros r []|right; eauto]. }
    destruct ev as [c|r|].
    + simpl in H. destruct (e <? n); eauto.
    + rewrite frames_loop_Result in H.
      destruct (Z.ltb_spec e n) as [Hlt|Hge]; [|eauto].
      destruct (render.err r) as [x|] eqn:Hx; [eauto|].
      assert (Hr : 0 <= render.frame r < n) by (apply Hev; left; reflexivity).
      assert (Hev' : forall r0, In (render.Result r0) events ->
                                0 <= render.frame r0 < n)
        by (intros r0 H0; apply Hev; right; exact H0).
      destruct (Z.eqb_spec (render.frame r) e) as [Heq|Hne]; simpl negb in H;
        cbv iota in H.
      * cbv zeta in H.
        assert (Hrs' : map render.frame (rs ++ [r]) = render.range (e + 1)).
        { rewrite map_app, Hrs, range_succ by lia. simpl. now rewrite Heq. }
        change (image_items rs ++ [(render.img r, None)])
          with (image_items rs ++ image_items [r]) in H.
        rewrite <- image_items_app in H.
        destruct (body e (render.img r)).
        -- rewrite wrap_int_id in H by (pose proof n_int; int_lia).
           destruct (render.drain body buf (e + 1) (image_items (rs ++ [r])))
             as [res out1] eqn:Hdrain.
           destruct (drain_in_order buf (e + 1) (rs ++ [r]) res out1 Hbuf
                       ltac:(lia) Hrs' Hdrain)
             as (taken & rest & Hsplit & -> & Hmap & Hle & Hres).
           assert (Htaken : forall a, In a taken ->
                     (In (render.Result a) (render.Result r :: events)
                      \/ In a buf) /\ render.err a = None).
           { intros a Ha. rewrite Forall_forall in Hbuf.
             assert (Hin : In a buf)
               by (rewrite Hsplit; apply in_or_app; left; exact Ha).
             split; [right; exact Hin|apply Hbuf; exact Hin]. }
           assert (Hrest : Forall (fun r => 0 <= render.frame r < n
                                            /\ render.err r = None) rest).
           { rewrite Hsplit in Hbuf. apply Forall_app in Hbuf. tauto. }
           destruct res as [[e1 buf1]|].
           ++ destruct Hres as [-> ->].
              destruct (IH (e + 1 + Z.of_nat (length taken)) rest
                          ((rs ++ [r]) ++ taken) st out Hev' Hrest
                          ltac:(lia) Hmap H)
                as (rs' & tail & -> & Hmap' & Hfrom & Htail).
              exists ((r :: taken) ++ rs'), tail.
              split; [rewrite <- !app_assoc; reflexivity|].
              split.
              { replace (rs ++ (r :: taken) ++ rs')
                  with (((rs ++ [r]) ++ taken) ++ rs')
                  by (rewrite <- !app_assoc; reflexivity).
                rewrite Hmap'. f_equal. simpl length. rewrite length_app. lia. }
              split; [|exact Htail].
              intros a Ha. simpl in Ha. destruct Ha as [<-|Ha].
              { split; [left; left; reflexivity|exact Hx]. }
              apply in_app_or in Ha as [Ha|Ha]; [apply Htaken; exact Ha|].
              destruct (Hfrom a Ha) as [[Hin|Hin] Herr0]; split; auto.
              ** left; right; exact Hin.
              ** right. rewrite Hsplit. apply in_or_app; right; exact Hin.
           ++ injection H as <- <-. exists (r :: taken), [].
              rewrite app_nil_r.
              split; [rewrite <- !app_assoc; reflexivity|].
              split.
              { replace (rs ++ r :: taken) with ((rs ++ [r]) ++ taken)
                  by (rewrite <- !app_assoc; reflexivity).
                rewrite Hmap. f_equal. simpl length. lia. }
              split; [|left; reflexivity].
              intros a [<-|Ha]; [|apply Htaken; exact Ha].
              split; [left; left; reflexivity|exact Hx].
        -- injection H as <- <-. exists [r], []. rewrite app_nil_r.
           split; [reflexivity|]. split; [exact Hrs'|].
           split; [|left; reflexivity].
           intros a [<-|[]]. split; [left; left; reflexivity|exact Hx].
      * assert (Hbuf' : Forall (fun r => 0 <= render.frame r < n
                                         /\ render.err r = None)
                          (render.sortBuf (buf ++ [r]))).
        { eapply Permutation_Forall; [symmetry; apply sortBuf_Permutation|].
          apply Forall_app; split; [exact Hbuf|]. constructor; auto. }
        destruct (IH e _ rs st out Hev' Hbuf' He Hrs H)
          as (rs' & tail & -> & Hmap' & Hfrom & Htail).
        exists rs', tail.
        split; [reflexivity|]. split; [exact Hmap'|]. split; [|exact Htail].
        intros a Ha0. destruct (Hfrom a Ha0) as [[Ha|Ha] Ha']; split; auto.
        -- left; right; exact Ha.
        -- apply (Permutation_in _ (sortBuf_Permutation _)) in Ha.
           apply in_app_or in Ha as [Ha|[<-|[]]]; auto.
           left; left; reflexivity.
    + simpl in H. destruct (e <? n); eauto.
Qed.

End AnyArrivals.

(** X14: whatever results arrive, in whatever order, with duplicates or
    with frames missing, and whatever the consumer does, the images handed
    over are those of frames 0, 1, 2, ... in this order, each one taken
    from a result that arrived without error; they are followed by at most
    one error, which ends the sequence.  The frame numbers of the results
    are those of the jobs, below the number of frames. *)
Theorem frames_hands_over_frames_in_order :
  forall body options events st out,
    render.opt_frames options <= int_max ->
    (forall r, In (render.Result r) events ->
               0 <= render.frame r < render.opt_frames options) ->
    render.frames body options events = (st, out) ->
    exists emitted tail,
      out = image_items emitted ++ tail
      /\ map render.frame emitted
         = render.range (Z.of_nat (length emitted))
      /\ (forall r, In r emitted ->
            In (render.Result r) events /\ render.err r = None)
      /\ (tail = [] \/ exists x, tail = [(None, Some x)]
                                 /\ st = render.Returned).
Proof.
  intros body options events st out Hn Hev H. unfold render.frames in H.
  destruct (Z.le_gt_cases (render.opt_frames options) 0) as [Hle|Hpos].
  - destruct events as [|ev events]; simpl in H;
      replace (0 <? render.opt_frames options) with false in H
        by (symmetry; apply Z.ltb_ge; lia);
      injection H as <- <-; exists [], [];
      (split; [reflexivity|]; split; [reflexivity|];
       split; [intros r []|left; reflexivity]).
  - destruct (frames_loop_in_order body _ Hn events 0 [] [] st out Hev
                ltac:(constructor) ltac:(lia) eq_refl H)
      as (rs' & tail & Hout & Hmap & Hfrom & Htail).
    exists rs', tail. simpl in Hout, Hmap.
    split; [exact Hout|]. split; [exact Hmap|]. split; [|exact Htail].
    intros r Hr. destruct (Hfrom r Hr) as [[Ha|[]] Hb]; auto.
Qed.

(** Three frames; frame 1 arrives twice, then frame 0, and frame 2 never
    does: frames 0 and 1 are handed over, and the loop waits. *)
Lemma frames_hands_over_frames_in_order_witness :
  let result f := render.mkFrameResult f
                    (Some (render.mkRGBAImage (render.mkRectangle 0 0 1 1)
                             [render.mkRGBA f f f 255])) None in
  let options := render.mkRenderOptions 1 1 3
                   (Some (render.Uniform render.color_White)) false in
  let events := map render.Result [result 1; result 1; result 0] in
  render.frames takeAll options events
  = (render.Waiting 2 [result 1], image_items [result 0; result 1])
  /\ exists emitted tail,
       image_items [result 0; result 1] = image_items emitted ++ tail
       /\ map render.frame emitted = render.range (Z.of_nat (length emitted))
       /\ (forall r, In r emitted ->
             In (render.Result r) events /\ render.err r = None)
       /\ (tail = [] \/ exists x, tail = [(None, Some x)]
                                  /\ render.Waiting 2 [result 1]
                                     = render.Returned).
Proof.
  intros result options events. split; [reflexivity|].
  apply (frames_hands_over_frames_in_order takeAll options events
           (render.Waiting 2 [result 1]) (image_items [result 0; result 1])).
  - discriminate.
  - intros r [H|[H|[H|[]]]]; injection H as <-; simpl; lia.
  - reflexivity.
Defined.

(** ** A consumer that stops: the sequence is cut, not changed *)

Section Consumers.

Variable body : Z -> option render.RGBAImage -> bool.
Variable n : Z.

(** The inner loop against the one of a consumer that takes every frame. *)
Lemma drain_cut : forall buf e,
  let resB := render.drain body buf e [] in
  let resA := render.drain takeAll buf e [] in
  snd resB = handedOver body (snd resA) e
  /\ (stopsWithin body (snd resA) e = false -> resB = resA)
  /\ (stopsWithin body (snd resA) e = true -> fst resB = None)
  /\ (forall e' buf', fst resA = Some (e', buf') ->
        forall items, handedOver body (snd resA ++ items) e
                      = if stopsWithin body (snd resA) e then snd resB
                        else snd resA ++ handedOver body items e')
  /\ (forall e' buf', fst resA = Some (e', buf') ->
        forall items, stopsWithin body (snd resA ++ items) e
                      = (stopsWithin body (snd resA) e
                         || stopsWithin body items e'))
  /\ fst resA <> None.
Proof.
  induction buf as [|f buf IH]; intros e; cbv zeta.
  - simpl. repeat split; auto; try discriminate.
    + intros e' buf' H items. injection H as <- _. reflexivity.
    + intros e' buf' H items. injection H as <- _. reflexivity.
  - cbn [render.drain].
    destruct (negb (render.frame f =? e)).
    + simpl. repeat split; auto; try discriminate.
      * intros e' buf' H items. injection H as <- _. reflexivity.
      * intros e' buf' H items. injection H as <- _. reflexivity.
    + change (takeAll e (render.img f)) with true. cbv iota.
      rewrite (drain_out takeAll buf _ ([] ++ _)).
      rewrite (drain_out body buf _ ([] ++ _)).
      specialize (IH (wrap_int (e + 1))). cbv zeta in IH.
      destruct IH as (IH1 & IH2 & IH3 & IH4 & IH5 & IH6).
      cbn [fst snd app handedOver stopsWithin].
      destruct (body e (render.img f)) eqn:Hb.
      * cbn [fst snd app].
        split; [rewrite IH1; reflexivity|].
        split; [intro H; rewrite (IH2 H); reflexivity|].
        split; [exact IH3|].
        split.
        { intros e' buf' H items. rewrite (IH4 e' buf' H).
          destruct (stopsWithin body _ _); reflexivity. }
        split; [exact IH5|exact IH6].
      * cbn [fst snd app].
        split; [reflexivity|]. split; [discriminate|]. split; [reflexivity|].
        split; [reflexivity|]. split; [reflexivity|exact IH6].
Qed.

Lemma frames_loop_cut : forall events e buf,
  let resB := render.frames_loop body n events e buf [] in
  let resA := render.frames_loop takeAll n events e buf [] in
  snd resB = handedOver body (snd resA) e
  /\ (stopsWithin body (snd resA) e = false -> resB = resA)
  /\ (stopsWithin body (snd resA) e = true -> fst resB = render.Returned).
Proof.
  induction events as [|ev events IH]; intros e buf; cbv zeta.
  - rewrite !frames_loop_nil. destruct (e <? n); simpl; auto using eq_refl.
    all: repeat split; auto; discriminate.
  - destruct ev as [c|r|].
    + simpl. destruct (e <? n); simpl; repeat split; auto; discriminate.
    + rewrite !frames_loop_Result.
      destruct (e <? n); [|simpl; repeat split; auto; discriminate].
      destruct (render.err r); [simpl; repeat split; auto; discriminate|].
      destruct (negb (render.frame r =? e)); [apply IH|].
      cbv zeta. change (takeAll e (render.img r)) with true. cbv iota.
      rewrite (drain_out takeAll buf _ ([] ++ _)).
      rewrite (drain_out body buf _ ([] ++ _)).
      destruct (drain_cut buf (wrap_int (e + 1)))
        as (D1 & D2 & D3 & D4 & D5 & D6). cbv zeta in *.
      destruct (render.drain takeAll buf (wrap_int (e + 1)) [])
        as [[[eA bufA]|] outA] eqn:HdA; [|exfalso; apply D6; reflexivity].
      clear D6. specialize (D4 eA bufA eq_refl). specialize (D5 eA bufA eq_refl).
      cbn [fst snd app] in *.
      rewrite (frames_loop_out takeAll n events eA bufA (_ :: _)).
      destruct (IH eA bufA) as (I1 & I2 & I3). cbv zeta in *.
      cbn [fst snd app handedOver stopsWithin].
      destruct (body e (render.img r)) eqn:Hb.
      * rewrite D4, D5.
        destruct (stopsWithin body outA (wrap_int (e + 1))) eqn:Hs.
        -- specialize (D3 eq_refl).
           destruct (render.drain body buf (wrap_int (e + 1)) [])
             as [[[eB bufB]|] outB]; [discriminate|].
           cbn [fst snd app orb] in *. subst outB.
           repeat split; auto; discriminate.
        -- rewrite (D2 eq_refl). cbn [fst snd app orb].
           rewrite (frames_loop_out body n events eA bufA (_ :: _)).
           cbn [fst snd app].
           split; [rewrite I1; reflexivity|].
           split; [intro H; rewrite (I2 H); reflexivity|exact I3].
      * cbn [fst snd]. repeat split; auto; discriminate.
    + simpl. destruct (e <? n); simpl; repeat split; auto; discriminate.
Qed.

End Consumers.

(** X15: a consumer changes the sequence only by cutting it.  What it
    receives is what a consumer taking every frame would receive, up to
    the first image at which its body leaves the loop (the [k]-th image
    being offered with the number [k]); if the body never leaves, the two
    runs are the same; if it does, the iterator returns at that image. *)
Theorem frames_consumer_cuts_the_sequence :
  forall body options events,
    let all := render.frames takeAll options events in
    let got := render.frames body options events in
    snd got = handedOver body (snd all) 0
    /\ (stopsWithin body (snd all) 0 = false -> got = all)
    /\ (stopsWithin body (snd all) 0 = true -> fst got = render.Returned).
Proof.
  intros body options events. unfold render.frames. apply frames_loop_cut.
Qed.

(** ** Options accepted by [apply] *)

Lemma apply_checks_sizes : forall r opts r' e,
  render.apply r opts = Ok (r', e) ->
  forallb (fun o => negb (decodeFails o)) opts = true ->
  (e = None <-> 1 <= render.opt_frames r' /\ 1 <= render.opt_width r'
                /\ 1 <= render.opt_height r')
  /\ (render.opt_frames r' <= 0 -> e = Some render.ErrFramesNegative)
  /\ (1 <= render.opt_frames r' -> render.opt_width r' <= 0 ->
      e = Some render.ErrWidthNegative)
  /\ (1 <= render.opt_frames r' -> 1 <= render.opt_width r' ->
      render.opt_height r' <= 0 -> e = Some render.ErrHeightNegative).
Proof.
  intros r opts r' e H Hdec. unfold render.apply in H.
  destruct (render.applyOptions opts r) as [r1 [e1|]] eqn:Happ.
  - exfalso. clear H. revert r r1 e1 Happ Hdec.
    induction opts as [|opt opts IH]; intros r r1 e1 Happ Hdec;
      simpl in Happ; [discriminate|].
    simpl in Hdec. apply andb_true_iff in Hdec as [Ho Hdec].
    destruct opt as [w h|k|[m|msg]|]; simpl in *; try discriminate;
      eapply IH; eauto.
  - destruct (render.opt_src r1) as [m|]; [|discriminate].
    cbv zeta in H.
    repeat match type of H with
           | (if ?c <=? 0 then _ else _) = _ =>
               destruct (Z.leb_spec c 0)
           end; injection H as <- <-;
      (split; [split; [try discriminate; lia|intros; try reflexivity; lia]|]);
      repeat split; intros; try reflexivity; lia.
Qed.

(** X16: when no option fails, [apply] accepts the options exactly when
    the number of frames, the width and the height it ends with are all at
    least 1.  Zero is refused like a negative number, and the first check
    to fail names the error: frames, then width, then height. *)
Theorem apply_accepts_positive_sizes : forall r opts r' e,
  render.apply r opts = Ok (r', e) ->
  forallb (fun o => negb (decodeFails o)) opts = true ->
  (e = None <-> 1 <= render.opt_frames r' /\ 1 <= render.opt_width r'
                /\ 1 <= render.opt_height r')
  /\ (render.opt_frames r' <= 0 -> e = Some render.ErrFramesNegative)
  /\ (1 <= render.opt_frames r' -> render.opt_width r' <= 0 ->
      e = Some render.ErrWidthNegative)
  /\ (1 <= render.opt_frames r' -> 1 <= render.opt_width r' ->
      render.opt_height r' <= 0 -> e = Some render.ErrHeightNegative).
Proof. exact apply_checks_sizes. Qed.

(** Zero frames and a width of zero: the error is the one of the frames. *)
Lemma apply_accepts_positive_sizes_witness :
  let opts := [render.WithFrames 0; render.WithResolution 0 10] in
  let r' := render.mkRenderOptions 0 10 0
              (Some (render.Uniform render.color_White)) false in
  render.apply render.defaultRenderOptions opts
  = Ok (r', Some render.ErrFramesNegative)
  /\ (Some render.ErrFramesNegative = None
      <-> 1 <= render.opt_frames r' /\ 1 <= render.opt_width r'
          /\ 1 <= render.opt_height r').
Proof.
  intros opts r'. split; [reflexivity|].
  exact (proj1 (apply_accepts_positive_sizes render.defaultRenderOptions
                  opts r' (Some render.ErrFramesNegative) eq_refl eq_refl)).
Defined.

(** ** [Render] *)

Lemma frames_loop_buffers_until_first : forall body n pre tail buf out,
  1 <= n ->
  Forall (fun r => render.frame r <> 0 /\ render.err r = None) pre ->
  exists buf',
    render.frames_loop body n (map render.Result pre ++ tail) 0 buf out
    = render.frames_loop body n tail 0 buf' out.
Proof.
  intros body n pre tail buf out Hn Hpre. revert buf.
  induction Hpre as [|r pre [Hr Herr] _ IH]; intro buf.
  - exists buf. reflexivity.
  - simpl map. simpl app. rewrite frames_loop_Result.
    replace (0 <? n) with true by (symmetry; apply Z.ltb_lt; lia).
    rewrite Herr.
    replace (render.frame r =? 0) with false
      by (symmetry; apply Z.eqb_neq; exact Hr).
    simpl negb. cbv iota. apply IH.
Qed.

(** X17: [Render] returns what the job of frame 0 reports, its image or
    its error, whatever results of other frames arrive before it: they are
    buffered and never returned, and nothing that arrives afterwards is
    read. *)
Theorem Render_returns_frame_zero :
  forall root opts options pre r0 post,
    render.apply render.defaultRenderOptions opts = Ok (options, None) ->
    Forall (fun r => render.frame r <> 0 /\ render.err r = None) pre ->
    render.frame r0 = 0 ->
    (render.err r0 = None ->
     render.Render root opts
       (map render.Result pre ++ render.Result r0 :: post)
     = Ok (render.img r0, None))
    /\ (forall x, render.err r0 = Some x ->
        render.Render root opts
          (map render.Result pre ++ render.Result r0 :: post)
        = Ok (None, Some x)).
Proof.
  intros root opts options pre r0 post Happ Hpre Hr0.
  destruct (apply_checks_sizes _ _ _ _ Happ) as [[Hpos _] _].
  { clear -Happ. unfold render.apply in Happ.
    destruct (render.applyOptions opts render.defaultRenderOptions)
      as [r1 [e1|]] eqn:Ha; [discriminate|].
    apply applyOptions_spec in Ha. tauto. }
  destruct (Hpos eq_refl) as [Hn _].
  unfold render.Render. rewrite Happ. cbn [bind]. unfold render.frames.
  destruct (frames_loop_buffers_until_first (fun _ _ => false)
              (render.opt_frames options) pre (render.Result r0 :: post)
              [] [] Hn Hpre) as [buf' ->].
  rewrite frames_loop_Result.
  replace (0 <? render.opt_frames options) with true
    by (symmetry; apply Z.ltb_lt; lia).
  split.
  - intros ->. rewrite Hr0. reflexivity.
  - intros x ->. reflexivity.
Qed.

(** Two frames asked for, frame 1 arrives first: [Render] returns the
    image of frame 0. *)
Lemma Render_returns_frame_zero_witness :
  let image f := Some (render.mkRGBAImage (render.mkRectangle 0 0 1 1)
                         [render.mkRGBA f f f 255]) in
  let opts := [render.WithResolution 1 1; render.WithFrames 2] in
  render.Render (nodes.value_bool samplePos true) opts
    (map render.Result [render.mkFrameResult 1 (image 1) None]
     ++ render.Result (render.mkFrameResult 0 (image 0) None) :: [])
  = Ok (image 0, None).
Proof.
  intros image opts.
  apply (proj1 (Render_returns_frame_zero (nodes.value_bool samplePos true)
                  opts
                  (render.mkRenderOptions 1 1 2
                     (Some (render.Uniform render.color_White)) false)
                  [render.mkFrameResult 1 (image 1) None]
                  (render.mkFrameResult 0 (image 0) None) []
                  eq_refl
                  ltac:(repeat constructor; discriminate) eq_refl)).
  reflexivity.
Defined.

(** ** [RenderCallback] *)

Lemma callbackLoop_handedOver :
  forall {CE : Type} (callback : Z -> option render.RGBAImage -> option CE)
         items no,
    render.callbackLoop callback
      (handedOver (render.callbackBody callback) items no) no
    = render.callbackLoop callback items no.
Proof.
  intros CE callback. induction items as [|[image [e|]] items IH]; intro no;
    simpl; [reflexivity|reflexivity|].
  unfold render.callbackBody at 1.
  destruct (callback no image); [reflexivity|]. apply IH.
Qed.

Lemma callbackLoop_stopsWithin :
  forall {CE : Type} (callback : Z -> option render.RGBAImage -> option CE)
         items no,
    render.callbackLoop callback items no = None ->
    stopsWithin (render.callbackBody callback) items no = false.
Proof.
  intros CE callback. induction items as [|[image [e|]] items IH]; intro no;
    simpl; [reflexivity|discriminate|].
  unfold render.callbackBody at 1.
  destruct (callback no image); [discriminate|]. apply IH.
Qed.

(** X18: [RenderCallback] returns what running the callback over the
    whole ordered sequence of frames would return at its first failure:
    the callback is given the images in the order of the frames, the
    [k]-th with the number [k], the first error of the sequence or of the
    callback is the result, and leaving the loop there changes nothing
    else.  With no failure the result is nil once every frame is handed
    over, and the function still waits while results are missing. *)
Theorem RenderCallback_returns_first_failure :
  forall {CE : Type} (callback : Z -> option render.RGBAImage -> option CE)
         root opts options events st out,
    render.apply render.defaultRenderOptions opts = Ok (options, None) ->
    render.frames takeAll options events = (st, out) ->
    render.RenderCallback callback root opts events
    = Ok match render.callbackLoop callback out 0 with
         | Some e => Some (Some e)
         | None => if isWaiting st then None else Some None
         end.
Proof.
  intros CE callback root opts options events st out Happ Hall.
  unfold render.RenderCallback. rewrite Happ. cbn [bind].
  pose proof (frames_loop_cut (render.callbackBody callback)
                (render.opt_frames options) events 0 [])
    as (Hcut & Hsame & _).
  fold (render.frames takeAll options events) in Hcut, Hsame.
  fold (render.frames (render.callbackBody callback) options events)
    in Hcut, Hsame.
  rewrite Hall in Hcut, Hsame. cbn [fst snd] in Hcut, Hsame.
  destruct (render.frames (render.callbackBody callback) options events)
    as [stB outB]. cbn [snd] in Hcut. subst outB.
  rewrite callbackLoop_handedOver.
  destruct (render.callbackLoop callback out 0) as [e|] eqn:Hloop;
    [reflexivity|].
  apply callbackLoop_stopsWithin in Hloop. specialize (Hsame Hloop).
  injection Hsame as -> _. destruct st; reflexivity.
Qed.

(** Two frames, arriving in the order 1, 0; the callback fails on the
    frame it is given with the number 1, which is frame 1. *)
Lemma RenderCallback_returns_first_failure_witness :
  let image f := Some (render.mkRGBAImage (render.mkRectangle 0 0 1 1)
                         [render.mkRGBA f f f 255]) in
  let opts := [render.WithResolution 1 1; render.WithFrames 2] in
  let callback := fun (no : Z) (frame_ : option render.RGBAImage) =>
                    if no =? 1 then Some frame_ else None in
  render.RenderCallback callback (nodes.value_bool samplePos true) opts
    (map render.Result [render.mkFrameResult 1 (image 1) None;
                        render.mkFrameResult 0 (image 0) None])
  = Ok (Some (Some (inr (image 1)))).
Proof.
  intros image opts callback.
  exact (RenderCallback_returns_first_failure callback
           (nodes.value_bool samplePos true) opts
           (render.mkRenderOptions 1 1 2
              (Some (render.Uniform render.color_White)) false)
           (map render.Result [render.mkFrameResult 1 (image 1) None;
                               render.mkFrameResult 0 (image 0) None])
           render.Completed [(image 0, None); (image 1, None)]
           eq_refl eq_refl).
Defined.

(** ** Templates without rules *)

Lemma advance_0 : forall s, advance s 0 = s.
Proof.
  intros [o [src d] r]. unfold advance. simpl. rewrite Nat.add_0_r. reflexivity.
Qed.

Lemma advance_advance : forall s j k, advance (advance s j) k = advance s (j + k).
Proof. intros. unfold advance. simpl. rewrite Nat.add_assoc. reflexivity. Qed.

Lemma seed_Float64_advance : forall s,
  nodes.seed_Float64 s = (Ok (fst (nodes.Float64 (nodes.seed s))), advance s 1).
Proof.
  intro s. unfold nodes.seed_Float64, nodes.Float64, nodes.Uint64, advance.
  simpl. rewrite Nat.add_1_r. reflexivity.
Qed.

Lemma Alternate_Gen_rule_free : forall ruleGen a s,
  refersToRule a = false ->
  exists node,
    nodes.Alternate_Gen ruleGen a s = (Ok node, advance s (countRandom a)).
Proof.
  intros ruleGen.
  induction a as [p v|p v|p ct|p a1 IH1 a2 IH2 a3 IH3|p name|p b
                 |p t a1 IH1 a2 IH2|p a1 IH1 a2 IH2 a3 IH3];
    intros s Hr; cbn [refersToRule] in Hr;
    cbn [nodes.Alternate_Gen countRandom];
    repeat match goal with
           | H : _ || _ = false |- _ => apply orb_false_iff in H as [? ?]
           end;
    try discriminate.
  - rewrite advance_0. eexists; reflexivity.
  - rewrite advance_0. eexists; reflexivity.
  - rewrite advance_0. eexists; reflexivity.
  - destruct (IH1 s) as [n1 E1]; [assumption|].
    destruct (IH2 (advance s (countRandom a1))) as [n2 E2]; [assumption|].
    destruct (IH3 (advance (advance s (countRandom a1)) (countRandom a2)))
      as [n3 E3]; [assumption|].
    rewrite (gen_bind_Ok _ _ _ _ _ E1), (gen_bind_Ok _ _ _ _ _ E2),
      (gen_bind_Ok _ _ _ _ _ E3), !advance_advance, Nat.add_assoc.
    eexists; reflexivity.
  - rewrite (gen_bind_Ok _ _ _ _ _ (seed_Float64_advance s)).
    eexists; reflexivity.
  - destruct (IH1 s) as [n1 E1]; [assumption|].
    destruct (IH2 (advance s (countRandom a1))) as [n2 E2]; [assumption|].
    rewrite (gen_bind_Ok _ _ _ _ _ E1), (gen_bind_Ok _ _ _ _ _ E2),
      !advance_advance.
    eexists; reflexivity.
  - destruct (IH1 s) as [n1 E1]; [assumption|].
    destruct (IH2 (advance s (countRandom a1))) as [n2 E2]; [assumption|].
    destruct (IH3 (advance (advance s (countRandom a1)) (countRandom a2)))
      as [n3 E3]; [assumption|].
    rewrite (gen_bind_Ok _ _ _ _ _ E1), (gen_bind_Ok _ _ _ _ _ E2),
      (gen_bind_Ok _ _ _ _ _ E3), !advance_advance, Nat.add_assoc.
    eexists; reflexivity.
Qed.

(** X19: a template that mentions no rule always generates: it returns a
    node, whatever the depth left and whatever the rules are, and takes
    exactly one draw from the source for each [?] it holds, leaving the
    options and the rule table as they were. *)
Theorem Alternate_Gen_without_rules : forall ruleGen a s,
  refersToRule a = false ->
  exists node,
    nodes.Alternate_Gen ruleGen a s = (Ok node, advance s (countRandom a)).
Proof. exact Alternate_Gen_rule_free. Qed.

(** [{?, 0.5, add(?, x)}] takes two draws. *)
Lemma Alternate_Gen_without_rules_witness :
  let a := nodes.Triplet samplePosition (nodes.Random samplePosition true)
             (nodes.Number samplePosition 0.5%float)
             (nodes.Func samplePosition "add"
                (nodes.Random samplePosition true)
                (nodes.Component samplePosition "x")) in
  let s := nodes.mkGeneratorState (nodes.mkOptions 42 10 100)
             (nodes.mkRand (zeroSource 42 43) 0) [] in
  exists node,
    nodes.Alternate_Gen (fun _ => nodes.gen_ret node) a s
    = (Ok node, advance s 2).
Proof.
  intros a s.
  destruct (Alternate_Gen_without_rules
              (fun _ => nodes.gen_ret (nodes.value_bool samplePos true)) a s
              eq_refl) as [node Hnode].
  exists node. vm_compute in Hnode. injection Hnode as <-. reflexivity.
Defined.

(** ** What a generation keeps *)

Section Generation.

Variable table : nodes.ruleTable.

(** The states of the generation. *)
Variable Inv : nodes.GeneratorState -> Prop.
Hypothesis Inv_rules : forall s, Inv s -> nodes.rules s = table.
Hypothesis Inv_draw : forall s, Inv s -> Inv (advance s 1).

(** What the templates satisfy and what it gives the nodes. *)
Variable tgood : nodes.Alternate -> Prop.
Variable good : nodes.Node -> Prop.
Variable panics : bool.

Hypothesis tgood_Triplet : forall p a b c,
  tgood (nodes.Triplet p a b c) -> tgood a /\ tgood b /\ tgood c.
Hypothesis tgood_Func : forall p t l r,
  tgood (nodes.Func p t l r) -> tgood l /\ tgood r.
Hypothesis tgood_IfThenElse : forall p i t e,
  tgood (nodes.IfThenElse p i t e) -> tgood i /\ tgood t /\ tgood e.
Hypothesis good_float64 : forall p v, good (nodes.value_float64 p v).
Hypothesis good_bool : forall p v, good (nodes.value_bool p v).
Hypothesis good_component : forall p ct,
  tgood (nodes.Component p ct) -> good (nodes.component (nodes.pToP p) ct).
Hypothesis good_triple : forall p a b c,
  good a -> good b -> good c -> good (nodes.triple p a b c).
Hypothesis good_op : forall p t l r,
  good l -> good r -> good (nodes.op p t l r).
Hypothesis good_ifThenElse : forall p i t e,
  good i -> good t -> good e -> good (nodes.ifThenElse p i t e).
Hypothesis table_good : forall name prod a,
  nodes.rules_get name table = Some prod ->
  In a (nodes.Alternatives (nodes.Production_ prod)) ->
  tgood (nodes.Alternate_ a).
Hypothesis table_wellFormed : panics = false -> wellFormedTable table.

Lemma keeps_bind : forall {A B : Type} (goodA : A -> Prop) (goodB : B -> Prop)
    (m : nodes.gen A) (k : A -> nodes.gen B),
  keeps Inv panics goodA m ->
  (forall a, goodA a -> keeps Inv panics goodB (k a)) ->
  keeps Inv panics goodB (nodes.gen_bind m k).
Proof.
  intros A B goodA goodB m k Hm Hk s Hs. unfold nodes.gen_bind.
  destruct (Hm s Hs) as [Hi Hp]. destruct (m s) as [[a|e|msg] s1]; simpl in *.
  - apply Hk; assumption.
  - split; [assumption|exact I].
  - split; assumption.
Qed.

Lemma keeps_ret : forall {A : Type} (goodA : A -> Prop) (a : A),
  goodA a -> keeps Inv panics goodA (nodes.gen_ret a).
Proof. intros A goodA a Ha s Hs. split; assumption. Qed.

Lemma keeps_seed_Float64 :
  keeps Inv panics (fun _ => True) nodes.seed_Float64.
Proof.
  intros s Hs. rewrite seed_Float64_advance. split; [apply Inv_draw; exact Hs|exact I].
Qed.

Section Templates.

Variable ruleGen : nodes.Production -> nodes.gen nodes.Node.

Hypothesis ruleGen_keeps : forall name rule,
  nodes.rules_get name table = Some rule ->
  keeps Inv panics good (ruleGen (nodes.Production_ rule)).

Lemma Alternate_Gen_keeps : forall a,
  tgood a -> keeps Inv panics good (nodes.Alternate_Gen ruleGen a).
Proof.
  induction a as [p v|p v|p ct|p a1 IH1 a2 IH2 a3 IH3|p name|p b
                 |p t a1 IH1 a2 IH2|p a1 IH1 a2 IH2 a3 IH3];
    intros Ht; cbn [nodes.Alternate_Gen].
  - apply keeps_ret. apply good_float64.
  - apply keeps_ret. apply good_bool.
  - apply keeps_ret. apply good_component. exact Ht.
  - apply tgood_Triplet in Ht as (H1 & H2 & H3).
    eapply keeps_bind; [apply IH1; exact H1|]. intros one Hone.
    eapply keeps_bind; [apply IH2; exact H2|]. intros two Htwo.
    eapply keeps_bind; [apply IH3; exact H3|]. intros three Hthree.
    apply keeps_ret. apply good_triple; assumption.
  - intros s Hs. rewrite (Inv_rules s Hs).
    destruct (nodes.rules_get name table) as [rule|] eqn:Hget.
    + apply (ruleGen_keeps name rule Hget). exact Hs.
    + split; [exact Hs|exact I].
  - eapply keeps_bind; [apply keeps_seed_Float64|]. intros u _.
    apply keeps_ret. apply good_float64.
  - apply tgood_Func in Ht as (H1 & H2).
    eapply keeps_bind; [apply IH1; exact H1|]. intros left Hleft.
    eapply keeps_bind; [apply IH2; exact H2|]. intros right Hright.
    apply keeps_ret. apply good_op; assumption.
  - apply tgood_IfThenElse in Ht as (H1 & H2 & H3).
    eapply keeps_bind; [apply IH1; exact H1|]. intros one Hone.
    eapply keeps_bind; [apply IH2; exact H2|]. intros two Htwo.
    eapply keeps_bind; [apply IH3; exact H3|]. intros three Hthree.
    apply keeps_ret. apply good_ifThenElse; assumption.
Qed.

Lemma Production_Gen_try_keeps : forall name prod prod',
  nodes.rules_get name table = Some prod ->
  keeps Inv panics good (nodes.Production_Gen_try ruleGen (nodes.Production_ prod) prod').
Proof.
  intros name prod prod' Hget. unfold nodes.Production_Gen_try.
  eapply keeps_bind; [apply keeps_seed_Float64|]. intros u _.
  cbv zeta.
  destruct (nodes.selectAlternative (nodes.Production_ prod) prod' u <? 0) eqn:Hneg.
  - intros s Hs. split; [exact Hs|]. simpl.
    destruct panics eqn:Hp; [reflexivity|exfalso].
    destruct (table_wellFormed eq_refl name prod Hget) as [_ Hne].
    pose proof (selectAlternative_valid _ prod' u Hne) as Hsel.
    apply Z.ltb_lt in Hneg. lia.
  - destruct (nth_error (nodes.Alternatives (nodes.Production_ prod)) _)
      as [a|] eqn:Hnth.
    + apply Alternate_Gen_keeps. eapply table_good; [exact Hget|].
      eapply nth_error_In; exact Hnth.
    + intros s Hs. split; [exact Hs|]. simpl.
      destruct panics eqn:Hp; [reflexivity|exfalso].
      destruct (table_wellFormed eq_refl name prod Hget) as [_ Hne].
      pose proof (selectAlternative_valid _ prod' u Hne) as Hsel.
      apply nth_error_None in Hnth. lia.
Qed.

Lemma Production_Gen_loop_keeps : forall name prod prod' n,
  nodes.rules_get name table = Some prod ->
  keeps Inv panics good (nodes.Production_Gen_loop ruleGen (nodes.Production_ prod) prod' n).
Proof.
  intros name prod prod' n Hget. induction n as [|n IH]; intros s Hs; simpl.
  - split; [exact Hs|exact I].
  - destruct (Production_Gen_try_keeps name prod prod' Hget s Hs) as [Hi Hp].
    destruct (nodes.Production_Gen_try ruleGen _ prod' s) as [[node|e|msg] s1];
      simpl in *.
    + split; assumption.
    + destruct (nodes.errors_Is_ErrRuleDoesNotExist e).
      * split; [assumption|exact I].
      * apply IH. exact Hi.
    + split; assumption.
Qed.

End Templates.

Lemma Production_Gen_rec_keeps : forall depth name prod,
  nodes.rules_get name table = Some prod ->
  keeps Inv panics good (nodes.Production_Gen_rec depth (nodes.Production_ prod)).
Proof.
  induction depth as [|depth IH]; intros name prod Hget s Hs; simpl.
  - split; [exact Hs|exact I].
  - rewrite (Inv_rules s Hs).
    destruct (nodes.rules_get (nodes.Name (nodes.Production_ prod)) table)
      as [prod'|] eqn:Hget'.
    + apply (Production_Gen_loop_keeps (nodes.Production_Gen_rec depth) IH
               name prod prod' _ Hget s Hs).
    + split; [exact Hs|]. simpl.
      destruct panics eqn:Hp; [reflexivity|exfalso].
      destruct (table_wellFormed eq_refl name prod Hget) as [Hname _].
      rewrite Hname in Hget'. congruence.
Qed.

End Generation.

(** ** Generation from a resolved grammar *)

Lemma follows_refl : forall s, follows s s.
Proof. intro s. unfold follows. repeat split; auto. Qed.

Lemma follows_advance : forall s0 s, follows s0 s -> follows s0 (advance s 1).
Proof.
  intros s0 s (H1 & H2 & H3 & H4). unfold follows, advance. simpl.
  repeat split; auto. lia.
Qed.

Lemma resolve_entries : forall ps0 ps table,
  nodes.resolve ps0 [] = Ok (ps, table) ->
  (forall name prod, nodes.rules_get name table = Some prod ->
     nodes.Name (nodes.Production_ prod) = name
     /\ In (nodes.Production_ prod) ps
     /\ exists p, In p ps0 /\ nodes.Name p = name
                  /\ Permutation (nodes.Alternatives (nodes.Production_ prod))
                       (nodes.Alternatives p))
  /\ (forall p', In p' ps ->
        exists prod, nodes.rules_get (nodes.Name p') table = Some prod
                     /\ nodes.Production_ prod = p')
  /\ length ps = length ps0.
Proof.
  intros ps0 ps table H.
  apply resolve_spec in H as (Hall & _ & Hfrom & Hin).
  split; [|split; [exact Hin|]].
  - intros name prod Hget.
    destruct (Hfrom name prod Hget) as [Hnil|(Hp' & Hname & _)];
      [discriminate|].
    split; [exact Hname|]. split; [exact Hp'|].
    destruct (Forall2_In_r _ _ _ _ Hall Hp') as (p & Hp & Hnm & Hperm).
    exists p. split; [exact Hp|]. split; [congruence|exact Hperm].
  - symmetry. eapply Forall2_length; exact Hall.
Qed.

Lemma resolve_no_panic : forall ps t msg, nodes.resolve ps t <> Panic msg.
Proof.
  induction ps as [|p ps IH]; intros t msg; simpl; [discriminate|].
  destruct (nodes.rules_get (nodes.Name p) t); [discriminate|].
  destruct (nodes.accumulate _ _ _ _) as [mt| |] eqn:Hacc; simpl.
  - destruct (nodes.resolve ps _) as [rest| |] eqn:Hres; simpl;
      [discriminate|discriminate|]. exfalso. eapply IH; eauto.
  - discriminate.
  - exfalso. clear -Hacc.
    revert Hacc. generalize 0%float. generalize (@nil float64).
    induction (slices_SortFunc nodes.compareProbability (nodes.Alternatives p))
      as [|a l IHl]; intros tot m H; simpl in H; [discriminate|].
    destruct (1 <? m + nodes.Probability a)%float; [discriminate|].
    eapply IHl; eauto.
Qed.

(** X20: the state [Grammar.Gen] returns with a node or with a
    generation error holds the options it was given, the source seeded
    from them, and the rule table of the resolution: generation never
    changes an option or a rule, it only draws from the source.  So the
    options reported after a generation are those that reproduce it. *)
Theorem Grammar_Gen_keeps_options : forall NewPCG g opts r s',
  nodes.Grammar_Gen NewPCG g opts = (r, Some s') ->
  nodes.options s' = opts
  /\ nodes.source (nodes.seed s')
     = NewPCG (nodes.Seed opts) ((nodes.Seed opts + 1) mod 2 ^ 64)
  /\ exists ps, nodes.resolve (nodes.Productions g) [] = Ok (ps, nodes.rules s').
Proof.
  intros NewPCG g opts r s' H. unfold nodes.Grammar_Gen in H.
  destruct (nodes.resolve (nodes.Productions g) []) as [[ps table]| |] eqn:Hres;
    try discriminate.
  destruct ps as [|p0 ps]; [discriminate|].
  destruct (resolve_entries _ _ _ Hres) as (_ & Hin & _).
  destruct (Hin p0 (or_introl eq_refl)) as (prod0 & Hget & <-).
  set (s0 := nodes.mkGeneratorState opts
               (nodes.mkRand (NewPCG (nodes.Seed opts)
                                ((nodes.Seed opts + 1) mod 2 ^ 64)) 0) table) in *.
  pose proof (Production_Gen_rec_keeps table (follows s0)
                (fun s Hs => proj1 (proj2 Hs)) (follows_advance s0)
                (fun _ => True) (fun _ => True) true
                ltac:(intros; tauto) ltac:(intros; tauto) ltac:(intros; tauto)
                ltac:(intros; exact I) ltac:(intros; exact I)
                ltac:(intros; exact I) ltac:(intros; exact I)
                ltac:(intros; exact I) ltac:(intros; exact I)
                ltac:(intros; exact I) ltac:(discriminate)
                (Z.to_nat (nodes.MaxDepth opts)) _ prod0 Hget s0
                (follows_refl s0)) as [Hf _].
  unfold nodes.Production_Gen in H.
  destruct (nodes.Production_Gen_rec _ _ s0) as [r1 s1].
  injection H as <- <-. simpl in Hf. destruct Hf as (Ho & Hr & Hs & _).
  split; [exact Ho|]. split; [exact Hs|]. exists (nodes.Production_ prod0 :: ps).
  rewrite Hr. reflexivity.
Qed.

(** The grammar [S ::= x %0.7 | y %0.3 .] with seed 42: the state
    returned holds the seed 42 and the default limits. *)
Lemma Grammar_Gen_keeps_options_witness :
  let opts := nodes.mkOptions 42 10 100 in
  exists r s',
    nodes.Grammar_Gen zeroSource grammar_x07_y03 opts = (r, Some s')
    /\ nodes.options s' = opts
    /\ nodes.source (nodes.seed s') = zeroSource 42 43.
Proof.
  intro opts.
  destruct (nodes.Grammar_Gen zeroSource grammar_x07_y03 opts)
    as [r [s'|]] eqn:Hgen; [|vm_compute in Hgen; discriminate].
  exists r, s'. split; [reflexivity|].
  destruct (Grammar_Gen_keeps_options zeroSource grammar_x07_y03 opts r s'
              Hgen) as (Ho & Hs & _).
  split; [exact Ho|exact Hs].
Defined.

(** X21: [Grammar.Gen] never panics on a grammar that has a production
    and whose productions each have an alternative, as every parsed
    grammar has: the start production exists, every rule generated is in
    the table under its own name, and the index selected is always one of
    an alternative.  It returns a node or an error. *)
Theorem Grammar_Gen_never_panics : forall NewPCG g opts msg,
  nodes.Productions g <> [] ->
  (forall p, In p (nodes.Productions g) -> nodes.Alternatives p <> []) ->
  fst (nodes.Grammar_Gen NewPCG g opts) <> Panic msg.
Proof.
  intros NewPCG g opts msg Hne Halts. unfold nodes.Grammar_Gen.
  destruct (nodes.resolve (nodes.Productions g) []) as [[ps table]|e|m] eqn:Hres;
    [|discriminate|exfalso; eapply resolve_no_panic; eauto].
  destruct (resolve_entries _ _ _ Hres) as (Hentries & Hin & Hlen).
  destruct ps as [|p0 ps].
  { destruct (nodes.Productions g); [congruence|discriminate]. }
  destruct (Hin p0 (or_introl eq_refl)) as (prod0 & Hget & <-).
  assert (Hwf : wellFormedTable table).
  { intros name prod Hg. destruct (Hentries name prod Hg)
      as (Hname & _ & p & Hp & _ & Hperm).
    split; [exact Hname|]. intro Hnil. rewrite Hnil in Hperm.
    apply Permutation_nil in Hperm. exact (Halts p Hp Hperm). }
  set (s0 := nodes.mkGeneratorState opts
               (nodes.mkRand (NewPCG (nodes.Seed opts)
                                ((nodes.Seed opts + 1) mod 2 ^ 64)) 0) table).
  pose proof (Production_Gen_rec_keeps table (fun s => nodes.rules s = table)
                (fun s Hs => Hs) (fun s Hs => Hs)
                (fun _ => True) (fun _ => True) false
                ltac:(intros; tauto) ltac:(intros; tauto) ltac:(intros; tauto)
                ltac:(intros; exact I) ltac:(intros; exact I)
                ltac:(intros; exact I) ltac:(intros; exact I)
                ltac:(intros; exact I) ltac:(intros; exact I)
                ltac:(intros; exact I) (fun _ => Hwf)
                (Z.to_nat (nodes.MaxDepth opts)) _ prod0 Hget s0 eq_refl)
    as [_ Hpost].
  unfold nodes.Production_Gen. fold s0.
  destruct (nodes.Production_Gen_rec _ _ s0) as [[node|e|m] s1]; simpl in *;
    discriminate.
Qed.

(** The grammar [S ::= S %1.0 .]: generation fails and does not panic. *)
Lemma Grammar_Gen_never_panics_witness :
  fst (nodes.Grammar_Gen zeroSource grammar_S_S (nodes.mkOptions 42 10 100))
  <> Panic "index out of range".
Proof.
  apply (Grammar_Gen_never_panics zeroSource grammar_S_S
           (nodes.mkOptions 42 10 100) "index out of range").
  - discriminate.
  - intros p [<-|[]]. discriminate.
Defined.

(** X22: a node generated from a grammar whose component names are all
    valid has valid component names only, so its evaluation never panics,
    in any state: the panic of [State.component] cannot be reached from
    such a grammar. *)
Theorem Grammar_Gen_components_valid : forall NewPCG g opts node st,
  (forall p a, In p (nodes.Productions g) -> In a (nodes.Alternatives p) ->
               templateComponentsValid (nodes.Alternate_ a) = true) ->
  nodes.Grammar_Gen NewPCG g opts = (Ok node, st) ->
  componentsValid node = true
  /\ forall s msg, nodes.Eval node s <> Panic msg.
Proof.
  intros NewPCG g opts node st Hvalid H.
  assert (Hcv : componentsValid node = true);
    [|split; [exact Hcv|intros s msg; apply Eval_componentsValid; exact Hcv]].
  unfold nodes.Grammar_Gen in H.
  destruct (nodes.resolve (nodes.Productions g) []) as [[ps table]|e|m] eqn:Hres;
    try discriminate.
  destruct (resolve_entries _ _ _ Hres) as (Hentries & Hin & Hlen).
  destruct ps as [|p0 ps]; [discriminate|].
  destruct (Hin p0 (or_introl eq_refl)) as (prod0 & Hget & <-).
  set (s0 := nodes.mkGeneratorState opts
               (nodes.mkRand (NewPCG (nodes.Seed opts)
                                ((nodes.Seed opts + 1) mod 2 ^ 64)) 0) table) in *.
  pose proof (Production_Gen_rec_keeps table (fun s => nodes.rules s = table)
                (fun s Hs => Hs) (fun s Hs => Hs)
                (fun a => templateComponentsValid a = true)
                (fun n => componentsValid n = true) true) as Hkeeps.
  specialize (Hkeeps
    ltac:(intros p a b c Ht; simpl in Ht;
          apply andb_true_iff in Ht as [Ht ?];
          apply andb_true_iff in Ht as [? ?]; auto)
    ltac:(intros p t l r Ht; simpl in Ht;
          apply andb_true_iff in Ht as [? ?]; auto)
    ltac:(intros p i t e Ht; simpl in Ht;
          apply andb_true_iff in Ht as [Ht ?];
          apply andb_true_iff in Ht as [? ?]; auto)
    ltac:(reflexivity) ltac:(reflexivity)
    ltac:(intros p ct Ht; exact Ht)
    ltac:(intros p a b c Ha Hb Hc; simpl; rewrite Ha, Hb, Hc; reflexivity)
    ltac:(intros p t l r Hl Hr; simpl; rewrite Hl, Hr; reflexivity)
    ltac:(intros p i t e Hi Ht He; simpl; rewrite Hi, Ht, He; reflexivity)).
  specialize (Hkeeps
    ltac:(intros name prod a Hg Ha;
          destruct (Hentries name prod Hg) as (_ & _ & p & Hp & _ & Hperm);
          apply (Hvalid p a Hp); eapply Permutation_in; eauto)
    ltac:(discriminate)
    (Z.to_nat (nodes.MaxDepth opts)) _ prod0 Hget s0 eq_refl).
  destruct Hkeeps as [_ Hpost].
  unfold nodes.Production_Gen in H.
  destruct (nodes.Production_Gen_rec _ _ s0) as [r1 s1].
  injection H as -> _. exact Hpost.
Qed.

(** The grammar [S ::= x %0.7 | y %0.3 .]: the node generated is the
    component [x], which evaluates without panic. *)
Lemma Grammar_Gen_components_valid_witness :
  let node := nodes.component samplePos "x" in
  fst (nodes.Grammar_Gen zeroSource grammar_x07_y03
         (nodes.mkOptions 42 10 100)) = Ok node
  /\ componentsValid node = true
  /\ nodes.Eval node sampleState <> Panic "not a valid component".
Proof.
  intro node. split; [reflexivity|].
  destruct (Grammar_Gen_components_valid zeroSource grammar_x07_y03
              (nodes.mkOptions 42 10 100) node
              (snd (nodes.Grammar_Gen zeroSource grammar_x07_y03
                      (nodes.mkOptions 42 10 100)))) as [Hv Hp].
  - intros p a [<-|[]] [<-|[<-|[]]]; reflexivity.
  - reflexivity.
  - split; [exact Hv|apply Hp].
Defined.

(** ** The first try *)

Lemma Grammar_Gen_first_try : forall NewPCG g opts ps table,
  nodes.resolve (nodes.Productions g) [] = Ok (ps, table) ->
  nodes.Productions g <> [] ->
  (forall p, In p (nodes.Productions g) -> nodes.Alternatives p <> []) ->
  1 <= nodes.MaxDepth opts ->
  1 <= nodes.MaxGenerationTries opts ->
  exists p0 rest prod0 a depth tries,
    ps = p0 :: rest
    /\ nodes.Productions g <> []
    /\ nodes.rules_get (nodes.Name p0) table = Some prod0
    /\ nodes.Production_ prod0 = p0
    /\ In a (nodes.Alternatives p0)
    /\ Z.to_nat (nodes.MaxDepth opts) = S depth
    /\ Z.to_nat (nodes.MaxGenerationTries opts) = S tries
    /\ let s0 := nodes.mkGeneratorState opts
                   (nodes.mkRand (NewPCG (nodes.Seed opts)
                                    ((nodes.Seed opts + 1) mod 2 ^ 64)) 0)
                   table in
       nodes.Grammar_Gen NewPCG g opts
       = (let (r, s') :=
            match nodes.Alternate_Gen (nodes.Production_Gen_rec depth)
                    (nodes.Alternate_ a) (advance s0 1) with
            | (Ok node, s1) => (Ok node, s1)
            | (Err err, s1) =>
                if nodes.errors_Is_ErrRuleDoesNotExist err then (Err err, s1)
                else nodes.Production_Gen_loop (nodes.Production_Gen_rec depth)
                       p0 prod0 tries s1
            | (Panic msg, s1) => (Panic msg, s1)
            end in (r, Some s')).
Proof.
  intros NewPCG g opts ps table Hres Hne Halts Hd Ht.
  destruct (resolve_entries _ _ _ Hres) as (Hentries & Hin & Hlen).
  destruct ps as [|p0 rest].
  { destruct (nodes.Productions g); [congruence|discriminate]. }
  destruct (Hin p0 (or_introl eq_refl)) as (prod0 & Hget & Hprod).
  assert (Hne0 : nodes.Alternatives p0 <> []).
  { destruct (Hentries _ _ Hget) as (_ & _ & p & Hp & _ & Hperm).
    rewrite Hprod in Hperm. intro Hnil. rewrite Hnil in Hperm.
    apply Permutation_nil in Hperm. exact (Halts p Hp Hperm). }
  destruct (Z.to_nat (nodes.MaxDepth opts)) as [|depth] eqn:Hdepth; [lia|].
  destruct (Z.to_nat (nodes.MaxGenerationTries opts)) as [|tries] eqn:Htries;
    [lia|].
  set (s0 := nodes.mkGeneratorState opts
               (nodes.mkRand (NewPCG (nodes.Seed opts)
                                ((nodes.Seed opts + 1) mod 2 ^ 64)) 0) table).
  destruct (Production_Gen_try_selects (nodes.Production_Gen_rec depth)
              p0 prod0 s0 Hne0) as (a & Hnth & Htry).
  exists p0, rest, prod0, a, depth, tries.
  repeat (split; [first [reflexivity|assumption
                        |eapply nth_error_In; exact Hnth]|]).
  cbv zeta. unfold nodes.Grammar_Gen. rewrite Hres. fold s0.
  unfold nodes.Production_Gen. rewrite Hdepth.
  cbn [nodes.Production_Gen_rec]. cbn [nodes.rules s0]. 
  change (nodes.rules s0) with table. rewrite Hget.
  change (nodes.options s0) with opts. rewrite Htries.
  cbn [nodes.Production_Gen_loop]. rewrite Htry.
  change (advance s0 1) with
    (nodes.mkGeneratorState (nodes.options s0)
       (nodes.mkRand (nodes.source (nodes.seed s0))
          (nodes.drawn (nodes.seed s0) + 1)) (nodes.rules s0)).
  reflexivity.
Qed.

(** X23: when no alternative of the start production mentions a rule,
    generation succeeds at the first try, for every positive max depth and
    try budget and every seed: it takes one draw to select an alternative
    and one for each [?] of the alternative selected, and no more. *)
Theorem Grammar_Gen_succeeds_at_first_try : forall NewPCG g opts p0 rest,
  nodes.Productions g = p0 :: rest ->
  (forall p, In p (nodes.Productions g) -> nodes.Alternatives p <> []) ->
  (forall a, In a (nodes.Alternatives p0) ->
             refersToRule (nodes.Alternate_ a) = false) ->
  (exists ps table, nodes.resolve (nodes.Productions g) [] = Ok (ps, table)) ->
  1 <= nodes.MaxDepth opts ->
  1 <= nodes.MaxGenerationTries opts ->
  exists node s' a,
    nodes.Grammar_Gen NewPCG g opts = (Ok node, Some s')
    /\ In a (nodes.Alternatives p0)
    /\ nodes.drawn (nodes.seed s') = S (countRandom (nodes.Alternate_ a)).
Proof.
  intros NewPCG g opts p0 rest Hg Halts Hfree (ps & table & Hres) Hd Ht.
  assert (Hne : nodes.Productions g <> []) by (rewrite Hg; discriminate).
  destruct (Grammar_Gen_first_try NewPCG g opts ps table Hres Hne Halts Hd Ht)
    as (p0' & rest' & prod0 & a & depth & tries & -> & _ & Hget & Hprod & Ha
        & _ & _ & Hgen).
  cbv zeta in Hgen.
  assert (Hperm : Permutation (nodes.Alternatives p0') (nodes.Alternatives p0)).
  { apply resolve_spec in Hres as (Hall & _). rewrite Hg in Hall.
    inversion Hall as [|? ? ? ? [_ Hperm] _]; subst. exact Hperm. }
  assert (Ha0 : In a (nodes.Alternatives p0))
    by (eapply Permutation_in; eauto).
  destruct (Alternate_Gen_rule_free (nodes.Production_Gen_rec depth)
              (nodes.Alternate_ a)
              (advance (nodes.mkGeneratorState opts
                          (nodes.mkRand (NewPCG (nodes.Seed opts)
                                           ((nodes.Seed opts + 1) mod 2 ^ 64)) 0)
                          table) 1) (Hfree a Ha0)) as [node Hnode].
  rewrite Hnode in Hgen.
  eexists node, _, a. split; [exact Hgen|]. split; [exact Ha0|]. reflexivity.
Qed.

(** The grammar [S ::= {?, ?, ?} %1.0 .]: four draws. *)
Lemma Grammar_Gen_succeeds_at_first_try_witness :
  exists node s' a,
    nodes.Grammar_Gen zeroSource grammar_random_triple
      (nodes.mkOptions 42 10 100) = (Ok node, Some s')
    /\ In a (nodes.Alternatives
               (nodes.mkProduction samplePosition "S"
                  [nodes.mkAlternateWithProb samplePosition
                     (nodes.Triplet samplePosition
                        (nodes.Random samplePosition true)
                        (nodes.Random samplePosition true)
                        (nodes.Random samplePosition true)) 1%float]))
    /\ nodes.drawn (nodes.seed s') = S (countRandom (nodes.Alternate_ a)).
Proof.
  apply (Grammar_Gen_succeeds_at_first_try zeroSource grammar_random_triple
           (nodes.mkOptions 42 10 100) _ [] eq_refl).
  - intros p [<-|[]]. discriminate.
  - intros a [<-|[]]. reflexivity.
  - eexists _, _. reflexivity.
  - discriminate.
  - discriminate.
Defined.

(** X24: a rule that no production defines is fatal at once.  When every
    alternative of the start production is a reference to such a rule,
    generation returns the error "rule does not exist" for the rule of the
    alternative selected after a single draw, whatever the try budget:
    this error alone is not retried. *)
Theorem Grammar_Gen_undefined_rule_is_fatal : forall NewPCG g opts p0 rest,
  nodes.Productions g = p0 :: rest ->
  (forall p, In p (nodes.Productions g) -> nodes.Alternatives p <> []) ->
  (forall a, In a (nodes.Alternatives p0) ->
     exists pos name, nodes.Alternate_ a = nodes.Rule pos name
                      /\ isProductionOf g name = false) ->
  (exists ps table, nodes.resolve (nodes.Productions g) [] = Ok (ps, table)) ->
  1 <= nodes.MaxDepth opts ->
  1 <= nodes.MaxGenerationTries opts ->
  exists pos name a s',
    nodes.Grammar_Gen NewPCG g opts
    = (Err (nodes.ErrRuleDoesNotExist name (nodes.Filename pos)
              (nodes.Line pos)), Some s')
    /\ In a (nodes.Alternatives p0)
    /\ nodes.Alternate_ a = nodes.Rule pos name
    /\ nodes.drawn (nodes.seed s') = 1%nat.
Proof.
  intros NewPCG g opts p0 rest Hg Halts Hundef (ps & table & Hres) Hd Ht.
  assert (Hne : nodes.Productions g <> []) by (rewrite Hg; discriminate).
  destruct (Grammar_Gen_first_try NewPCG g opts ps table Hres Hne Halts Hd Ht)
    as (p0' & rest' & prod0 & a & depth & tries & -> & _ & Hget & Hprod & Ha
        & _ & _ & Hgen).
  cbv zeta in Hgen.
  assert (Hperm : Permutation (nodes.Alternatives p0') (nodes.Alternatives p0)).
  { pose proof Hres as Hres'.
    apply resolve_spec in Hres' as (Hall & _). rewrite Hg in Hall.
    inversion Hall as [|? ? ? ? [_ Hperm] _]; subst. exact Hperm. }
  assert (Ha0 : In a (nodes.Alternatives p0))
    by (eapply Permutation_in; eauto).
  destruct (Hundef a Ha0) as (pos & name & Hrule & Hnot).
  assert (Hnone : nodes.rules_get name table = None).
  { destruct (nodes.rules_get name table) as [prod|] eqn:Hg'; [|reflexivity].
    exfalso. destruct (resolve_entries _ _ _ Hres) as (Hentries & _).
    destruct (Hentries name prod Hg') as (_ & _ & p & Hp & Hname & _).
    unfold isProductionOf in Hnot.
    assert (Hex : existsb (String.eqb name)
                    (map nodes.Name (nodes.Productions g)) = true).
    { apply existsb_exists. exists (nodes.Name p).
      split; [apply in_map; exact Hp|]. rewrite Hname. apply String.eqb_refl. }
    congruence. }
  rewrite Hrule in Hgen. cbn [nodes.Alternate_Gen] in Hgen.
  cbn [nodes.rules advance] in Hgen. rewrite Hnone in Hgen.
  cbn [nodes.errors_Is_ErrRuleDoesNotExist] in Hgen.
  eexists pos, name, a, _. split; [exact Hgen|]. split; [exact Ha0|].
  split; [exact Hrule|reflexivity].
Qed.

(** The grammar [S ::= A %1.0 .] with a budget of 100 tries: the error is
    returned after one draw. *)
Lemma Grammar_Gen_undefined_rule_is_fatal_witness :
  exists pos name a s',
    nodes.Grammar_Gen zeroSource grammar_S_undefined
      (nodes.mkOptions 42 10 100)
    = (Err (nodes.ErrRuleDoesNotExist name (nodes.Filename pos)
              (nodes.Line pos)), Some s')
    /\ In a (nodes.Alternatives
               (nodes.mkProduction samplePosition "S"
                  [nodes.mkAlternateWithProb samplePosition
                     (nodes.Rule samplePosition "A") 1%float]))
    /\ nodes.Alternate_ a = nodes.Rule pos name
    /\ nodes.drawn (nodes.seed s') = 1%nat.
Proof.
  apply (Grammar_Gen_undefined_rule_is_fatal zeroSource grammar_S_undefined
           (nodes.mkOptions 42 10 100) _ [] eq_refl).
  - intros p [<-|[]]. discriminate.
  - intros a [<-|[]]. exists samplePosition, "A". split; reflexivity.
  - eexists _, _. reflexivity.
  - discriminate.
  - discriminate.
Defined.

(** ** What the resolution step accepts and builds *)

Lemma last_cons_default : forall {A : Type} (l : list A) (x d : A),
  last (x :: l) d = last l x.
Proof.
  induction l as [|y l IH]; intros x d; [reflexivity|].
  change (last (x :: y :: l) d) with (last (y :: l) d).
  rewrite (IH y d), (IH y x). reflexivity.
Qed.

Lemma accumulate_spec : forall name alts m tot,
  nodes.accumulate name alts m tot
  = if forallb notAboveOne (runningTotals m (map nodes.Probability alts))
    then Ok (last (runningTotals m (map nodes.Probability alts)) m,
             tot ++ runningTotals m (map nodes.Probability alts))
    else match nodes.accumulate name alts m tot with
         | Err e => Err e
         | _ => Err (nodes.ErrWeightsExceedOne name m)
         end.
Proof.
  intros name. induction alts as [|a alts IH]; intros m tot.
  - simpl. rewrite app_nil_r. reflexivity.
  - cbn [nodes.accumulate map runningTotals forallb]. cbv zeta.
    unfold notAboveOne at 1.
    destruct (1 <? m + nodes.Probability a)%float eqn:H; cbn [negb andb].
    + reflexivity.
    + rewrite IH.
      destruct (forallb notAboveOne _) eqn:Hall.
      * rewrite <- app_assoc, last_cons_default. reflexivity.
      * destruct (nodes.accumulate name alts _ _); reflexivity.
Qed.

Lemma accumulate_Ok_iff : forall name alts m tot,
  (exists r, nodes.accumulate name alts m tot = Ok r)
  <-> forallb notAboveOne (runningTotals m (map nodes.Probability alts)) = true.
Proof.
  intros name alts m tot. rewrite accumulate_spec. split.
  - intros [r H]. destruct (forallb notAboveOne _); [reflexivity|].
    destruct (nodes.accumulate name alts m tot); discriminate.
  - intros ->. eauto.
Qed.

Lemma rules_get_cons : forall name k v t,
  nodes.rules_get name ((k, v) :: t)
  = if String.eqb name k then Some v else nodes.rules_get name t.
Proof. reflexivity. Qed.

Lemma resolve_cons_within : forall p ps t0,
  nodes.rules_get (nodes.Name p) t0 = None ->
  weightsWithinOne p = true ->
  nodes.resolve (p :: ps) t0
  = bind (nodes.resolve ps ((nodes.Name p, resolved p) :: t0))
      (fun rest => Ok (nodes.Production_ (resolved p) :: fst rest, snd rest)).
Proof.
  intros p ps t0 Hfresh Hp. cbn [nodes.resolve]. rewrite Hfresh. cbv zeta.
  rewrite accumulate_spec. fold (sortedAlternatives p).
  unfold weightsWithinOne in Hp. rewrite Hp. reflexivity.
Qed.

Lemma resolve_cons_above : forall p ps t0,
  weightsWithinOne p = false ->
  exists e, nodes.resolve (p :: ps) t0 = Err e.
Proof.
  intros p ps t0 Hp. cbn [nodes.resolve].
  destruct (nodes.rules_get (nodes.Name p) t0); [eauto|]. cbv zeta.
  rewrite accumulate_spec. fold (sortedAlternatives p).
  unfold weightsWithinOne in Hp. rewrite Hp.
  destruct (nodes.accumulate _ _ _ _); simpl; eauto.
Qed.

Lemma resolve_Ok : forall ps t0,
  NoDup (map nodes.Name ps) ->
  (forall p, In p ps -> nodes.rules_get (nodes.Name p) t0 = None) ->
  forallb weightsWithinOne ps = true ->
  exists table,
    nodes.resolve ps t0
    = Ok (map (fun p => nodes.Production_ (resolved p)) ps, table)
    /\ forall name,
         nodes.rules_get name table
         = match find (fun p => String.eqb name (nodes.Name p)) ps with
           | Some p => Some (resolved p)
           | None => nodes.rules_get name t0
           end.
Proof.
  induction ps as [|p ps IH]; intros t0 Hnd Hfresh Hw.
  - exists t0. split; reflexivity.
  - simpl in Hnd, Hw. inversion Hnd as [|? ? Hnew Hnd']; subst.
    apply andb_true_iff in Hw as [Hp Hw].
    rewrite (resolve_cons_within p ps t0 (Hfresh p (or_introl eq_refl)) Hp).
    destruct (IH ((nodes.Name p, resolved p) :: t0) Hnd') as (table & Hres & Hget).
    + intros q Hq. rewrite rules_get_cons.
      destruct (String.eqb_spec (nodes.Name q) (nodes.Name p)) as [Heq|_].
      * exfalso. apply Hnew. rewrite <- Heq. apply in_map. exact Hq.
      * apply Hfresh. right. exact Hq.
    + exact Hw.
    + exists table. rewrite Hres. cbn [bind fst snd map].
      split; [reflexivity|].
      intro name. rewrite Hget. cbn [find].
      destruct (find (fun p0 => String.eqb name (nodes.Name p0)) ps) as [q|] eqn:Hfind.
      * destruct (String.eqb_spec name (nodes.Name p)) as [->|_]; [|reflexivity].
        exfalso. apply find_some in Hfind as [Hq Heq].
        apply String.eqb_eq in Heq. apply Hnew. rewrite Heq.
        apply in_map. exact Hq.
      * rewrite rules_get_cons.
        destruct (String.eqb name (nodes.Name p)); reflexivity.
Qed.

Lemma resolve_Ok_inv : forall ps t0 ps' table,
  nodes.resolve ps t0 = Ok (ps', table) ->
  NoDup (map nodes.Name ps)
  /\ (forall p, In p ps -> nodes.rules_get (nodes.Name p) t0 = None)
  /\ forallb weightsWithinOne ps = true.
Proof.
  induction ps as [|p ps IH]; intros t0 ps' table H.
  - simpl. repeat split; [constructor|intros p []].
  - destruct (weightsWithinOne p) eqn:Hp;
      [|destruct (resolve_cons_above p ps t0 Hp) as [e He]; congruence].
    destruct (nodes.rules_get (nodes.Name p) t0) eqn:Hfresh;
      [cbn [nodes.resolve] in H; rewrite Hfresh in H; discriminate|].
    rewrite (resolve_cons_within p ps t0 Hfresh Hp) in H.
    destruct (nodes.resolve ps _) as [[ps1 t1]| |] eqn:Hres; try discriminate.
    apply IH in Hres as (Hnd & Hfresh' & Hw).
    split; [|split].
    + simpl. constructor; [|exact Hnd]. intro Hin.
      apply in_map_iff in Hin as (q & Heq & Hq).
      specialize (Hfresh' q Hq). rewrite rules_get_cons, Heq in Hfresh'.
      rewrite String.eqb_refl in Hfresh'. discriminate.
    + intros q [<-|Hq]; [exact Hfresh|].
      specialize (Hfresh' q Hq). rewrite rules_get_cons in Hfresh'.
      destruct (String.eqb (nodes.Name q) (nodes.Name p)); [discriminate|].
      exact Hfresh'.
    + simpl. rewrite Hp. exact Hw.
Qed.

(** X25: the resolution step of [Grammar.Gen] accepts a list of
    productions exactly when no name is defined twice and, for each
    production, no running total of the probabilities of its alternatives,
    summed in the order the sort leaves them, is above 1. *)
Theorem resolve_accepts_iff : forall ps,
  (exists ps' table, nodes.resolve ps [] = Ok (ps', table))
  <-> NoDup (map nodes.Name ps) /\ forallb weightsWithinOne ps = true.
Proof.
  intro ps. split.
  - intros (ps' & table & H). apply resolve_Ok_inv in H. tauto.
  - intros [Hnd Hw].
    destruct (resolve_Ok ps [] Hnd ltac:(reflexivity) Hw) as (table & H & _).
    eauto.
Qed.

(** X26: what the resolution step builds when it accepts.  Each
    production is filed under its name, and nothing else is in the table;
    its entry holds its alternatives as the sort leaves them, one
    cumulative total per alternative, each the sum of the probabilities up
    to it and none above 1, and a total mass that is the last of them. *)
Theorem resolve_table_contents : forall ps ps' table,
  nodes.resolve ps [] = Ok (ps', table) ->
  ps' = map (fun p => nodes.Production_ (resolved p)) ps
  /\ (forall p, In p ps ->
        nodes.rules_get (nodes.Name p) table = Some (resolved p))
  /\ (forall name prod, nodes.rules_get name table = Some prod ->
        exists p, In p ps /\ nodes.Name p = name /\ prod = resolved p)
  /\ (forall p, In p ps ->
        nodes.max (resolved p) = last (nodes.totals (resolved p)) 0%float
        /\ length (nodes.totals (resolved p))
           = length (nodes.Alternatives p)
        /\ forallb notAboveOne (nodes.totals (resolved p)) = true).
Proof.
  intros ps ps' table H.
  destruct (resolve_Ok_inv _ _ _ _ H) as (Hnd & _ & Hw).
  destruct (resolve_Ok ps [] Hnd ltac:(reflexivity) Hw) as (table' & H' & Hget).
  rewrite H in H'. injection H' as -> <-.
  split; [reflexivity|]. split; [|split].
  - intros p Hp. rewrite Hget.
    destruct (find (fun q => String.eqb (nodes.Name p) (nodes.Name q)) ps)
      as [q|] eqn:Hfind.
    + apply find_some in Hfind as [Hq Heq]. apply String.eqb_eq in Heq.
      f_equal. f_equal.
      clear -Hnd Hp Hq Heq. induction ps as [|x ps IH]; [destruct Hp|].
      simpl in Hnd. inversion Hnd as [|? ? Hnew Hnd']; subst.
      destruct Hp as [<-|Hp], Hq as [<-|Hq]; auto.
      * exfalso. apply Hnew. rewrite Heq. apply in_map. exact Hq.
      * exfalso. apply Hnew. rewrite <- Heq. apply in_map. exact Hp.
    + exfalso. pose proof (find_none _ _ Hfind p Hp) as Hno. cbv beta in Hno.
      rewrite String.eqb_refl in Hno. discriminate.
  - intros name prod Hg. rewrite Hget in Hg.
    destruct (find (fun q => String.eqb name (nodes.Name q)) ps)
      as [q|] eqn:Hfind; [|discriminate].
    apply find_some in Hfind as [Hq Heq]. apply String.eqb_eq in Heq.
    injection Hg as <-. exists q. auto.
  - intros p Hp. rewrite forallb_forall in Hw. specialize (Hw p Hp).
    unfold resolved. cbn [nodes.max nodes.totals].
    split; [reflexivity|]. split; [|exact Hw].
    assert (Hlen : forall m l, length (runningTotals m l) = length l).
    { intros m l. revert m. induction l; intro m; simpl; auto. }
    rewrite Hlen, length_map. unfold sortedAlternatives.
    apply Permutation_length. apply slices_SortFunc_Permutation.
Qed.

(** The grammar [S ::= x %0.7 | y %0.3 .]: the totals of [S] are 0.7 and
    1, and its mass is 1. *)
Lemma resolve_table_contents_witness :
  let p := nodes.mkProduction samplePosition "S"
             [nodes.mkAlternateWithProb samplePosition
                (nodes.Component samplePosition "x") 0.7%float;
              nodes.mkAlternateWithProb samplePosition
                (nodes.Component samplePosition "y") 0.3%float] in
  exists table,
    nodes.resolve [p] [] = Ok ([nodes.Production_ (resolved p)], table)
    /\ nodes.rules_get "S" table = Some (resolved p)
    /\ nodes.totals (resolved p) = [0.7%float; 1%float]
    /\ nodes.max (resolved p) = 1%float.
Proof.
  intro p.
  destruct (nodes.resolve [p] []) as [[ps' table]| |] eqn:Hres;
    try (vm_compute in Hres; discriminate).
  destruct (resolve_table_contents [p] ps' table Hres)
    as (-> & Hget & _ & _).
  exists table. split; [reflexivity|].
  split; [exact (Hget p (or_introl eq_refl))|]. split; reflexivity.
Defined.

(** ** Rounding to nearest and the order of floats *)


Lemma shifted_shr_1 : forall P k mrs,
  0 <= P -> 0 <= k -> shifted P k mrs -> shifted P (k + 1) (shr_1 mrs).
Proof.
  intros P k [m r s] HP Hk (Hm & Hflags & _). simpl in Hm, Hflags.
  assert (H2k : 0 < 2 ^ k) by (apply Z.pow_pos_nonneg; lia).
  assert (Hpow : 2 ^ (k + 1) = 2 ^ k * 2) by (rewrite Z.pow_add_r by lia; reflexivity).
  pose proof (Z.div_mod P (2 ^ k) ltac:(lia)) as Hdm.
  pose proof (Z.mod_pos_bound P (2 ^ k) H2k) as Hrem.
  pose proof (Z.div_mod P (2 ^ (k + 1)) ltac:(lia)) as Hdm'.
  pose proof (Z.mod_pos_bound P (2 ^ (k + 1)) ltac:(lia)) as Hrem'.
  assert (Hm0 : 0 <= m) by (subst m; apply Z.div_pos; lia).
  assert (Hq : P / 2 ^ (k + 1) = m / 2).
  { rewrite Hpow, <- Z.div_div by lia. now subst m. }
  pose proof (Z.div_mod m 2 ltac:(lia)) as Hm2.
  pose proof (Z.mod_pos_bound m 2 ltac:(lia)) as Hm2b.
  assert (Hr' : P mod 2 ^ (k + 1) = (m mod 2) * 2 ^ k + P mod 2 ^ k) by nia.
  unfold shifted. replace (k + 1 - 1) with k by lia.
  destruct m as [|[p|p|]|p]; try lia; simpl shr_1; simpl shr_m; simpl shr_r; simpl shr_s.
  - split; [rewrite Hq; reflexivity|].
    rewrite Hr'. change (0 mod 2) with 0. rewrite Z.mul_0_l, Z.add_0_l.
    simpl orb. split; [exact Hflags|discriminate].
  - split; [rewrite Hq; rewrite Pos2Z.inj_xI; apply Z.div_unique with 1; lia|].
    rewrite Hr'. replace (Z.pos p~1 mod 2) with 1
      by (rewrite Pos2Z.inj_xI; apply Z.mod_unique with (Z.pos p); lia).
    simpl orb. split; [split; [discriminate|lia]|intros _; lia].
  - split; [rewrite Hq; rewrite Pos2Z.inj_xO; apply Z.div_unique with 0; lia|].
    rewrite Hr'. replace (Z.pos p~0 mod 2) with 0
      by (rewrite Pos2Z.inj_xO; apply Z.mod_unique with (Z.pos p); lia).
    rewrite Z.mul_0_l, Z.add_0_l. simpl orb.
    split; [exact Hflags|discriminate].
  - split; [rewrite Hq; reflexivity|].
    rewrite Hr'. change (1 mod 2) with 1. simpl orb.
    split; [split; [discriminate|lia]|intros _; lia].
Qed.

Lemma shifted_iter : forall P n,
  0 <= P ->
  shifted P (Z.pos n) (iter_pos shr_1 n (Build_shr_record P false false)).
Proof.
  intros P n HP. rewrite iter_pos_iter.
  induction n using Pos.peano_ind.
  - cbn [Pos.iter]. change (Z.pos 1) with (0 + 1).
    apply (shifted_shr_1 P 0); [assumption|lia|].
    split; simpl; [rewrite Z.div_1_r; reflexivity|].
    rewrite Z.mod_1_r. split; [tauto|discriminate].
  - rewrite Pos.iter_succ, Pos2Z.inj_succ.
    apply shifted_shr_1; [assumption|lia|exact IHn].
Qed.

(** [shr] from an exact record: the quotient by [2 ^ n], when [n] is
    positive, and nothing otherwise. *)
Lemma shr_spec : forall P e n,
  0 <= P ->
  exists mrs,
    shr (Build_shr_record P false false) e n = (mrs, e + Z.max n 0)
    /\ shifted P (Z.max n 0) mrs.
Proof.
  intros P e n HP. destruct n as [|n|n]; simpl shr.
  - eexists. split; [rewrite Z.add_0_r; reflexivity|].
    split; simpl; [rewrite Z.div_1_r; reflexivity|].
    rewrite Z.mod_1_r. split; [tauto|discriminate].
  - eexists. split; [reflexivity|]. apply shifted_iter. exact HP.
  - eexists. split; [rewrite Z.add_0_r; reflexivity|].
    split; simpl; [rewrite Z.div_1_r; reflexivity|].
    rewrite Z.mod_1_r. split; [tauto|discriminate].
Qed.

Lemma round_nearest_even_shifted : forall P k mrs,
  shifted P k mrs ->
  let m2 := round_nearest_even (shr_m mrs) (loc_of_shr_record mrs) in
  P / 2 ^ k <= m2 <= P / 2 ^ k + 1
  /\ (P mod 2 ^ k = 0 -> m2 = P / 2 ^ k)
  /\ (m2 = P / 2 ^ k + 1 -> 1 <= k /\ 2 ^ (k - 1) <= P mod 2 ^ k).
Proof.
  intros P k [m r s] (Hm & Hflags & Hr) m2. simpl in Hm, Hflags, Hr.
  subst m2 m. simpl shr_m.
  destruct r, s; simpl loc_of_shr_record; simpl round_nearest_even;
    simpl in Hflags.
  - split; [lia|]. split; [|intros _; apply Hr; reflexivity].
    intro H. apply Hflags in H. discriminate.
  - split; [destruct (Z.even _); lia|].
    split; [|intros _; apply Hr; reflexivity].
    intro H. apply Hflags in H. discriminate.
  - split; [lia|]. split; [|lia]. intro H. apply Hflags in H. discriminate.
  - split; [lia|]. split; [reflexivity|lia].
Qed.

Lemma binary_round_aux_spec : forall P e,
  let e1 := e + Z.max (fexp64 (Z.pos (digits2_pos P) + e) - e) 0 in
  exists m2,
    Z.pos P / 2 ^ (e1 - e) <= m2 <= Z.pos P / 2 ^ (e1 - e) + 1
    /\ (Z.pos P mod 2 ^ (e1 - e) = 0 -> m2 = Z.pos P / 2 ^ (e1 - e))
    /\ (m2 = Z.pos P / 2 ^ (e1 - e) + 1 ->
        1 <= e1 - e /\ 2 ^ (e1 - e - 1) <= Z.pos P mod 2 ^ (e1 - e))
    /\ binary_round_aux prec emax false (Z.pos P) e loc_Exact = finish m2 e1.
Proof.
  intros P e e1. unfold binary_round_aux, shr_fexp.
  simpl (Zdigits2 (Z.pos P)). rewrite fexp_fexp64.
  simpl shr_record_of_loc at 1.
  destruct (shr_spec (Z.pos P) e (fexp64 (Z.pos (digits2_pos P) + e) - e)
              ltac:(lia)) as (mrs & Hshr & Hsh).
  rewrite Hshr. fold e1.
  replace (Z.max (fexp64 (Z.pos (digits2_pos P) + e) - e) 0) with (e1 - e)
    in Hsh by (unfold e1; lia).
  pose proof (round_nearest_even_shifted _ _ _ Hsh) as (Hb & Hex & Hup).
  set (m2 := round_nearest_even (shr_m mrs) (loc_of_shr_record mrs)) in *.
  exists m2. split; [exact Hb|]. split; [exact Hex|]. split; [exact Hup|].
  assert (Hm2 : 0 <= m2).
  { assert (0 <= Z.pos P / 2 ^ (e1 - e))
      by (apply Z.div_pos; [lia|apply Z.pow_pos_nonneg; unfold e1; lia]).
    lia. }
  rewrite fexp_fexp64. simpl shr_record_of_loc.
  destruct (shr_spec m2 e1 (fexp64 (Zdigits2 m2 + e1) - e1) Hm2)
    as (mrs2 & Hshr2 & Hsh2).
  rewrite Hshr2. unfold finish.
  set (e3 := e1 + Z.max (fexp64 (Zdigits2 m2 + e1) - e1) 0) in *.
  destruct Hsh2 as (Hm3 & _).
  replace (e3 - e1) with (Z.max (fexp64 (Zdigits2 m2 + e1) - e1) 0)
    by (unfold e3; lia).
  rewrite Hm3. reflexivity.
Qed.

Lemma digits2_bounds : forall p,
  2 ^ (Z.pos (digits2_pos p) - 1) <= Z.pos p < 2 ^ Z.pos (digits2_pos p).
Proof. intro p. rewrite digits2_pos_size. apply Zpos_size_bounds. Qed.

(** More digits, at the same scale, for a larger value. *)
Lemma digits2_scaled_le : forall a b k,
  0 <= k -> Z.pos a <= Z.pos b * 2 ^ k ->
  Z.pos (digits2_pos a) <= Z.pos (digits2_pos b) + k.
Proof.
  intros a b k Hk H.
  destruct (digits2_bounds a) as [Ha _]. destruct (digits2_bounds b) as [_ Hb].
  assert (H2k : 0 < 2 ^ k) by (apply Z.pow_pos_nonneg; lia).
  assert (Hlt : 2 ^ (Z.pos (digits2_pos a) - 1)
                < 2 ^ (Z.pos (digits2_pos b) + k)).
  { rewrite Z.pow_add_r by lia. nia. }
  apply Z.pow_lt_mono_r_iff in Hlt; lia.
Qed.

Lemma digits2_scaled_ge : forall a b k,
  0 <= k -> Z.pos b * 2 ^ k <= Z.pos a ->
  Z.pos (digits2_pos b) + k <= Z.pos (digits2_pos a).
Proof.
  intros a b k Hk H.
  destruct (digits2_bounds a) as [_ Ha]. destruct (digits2_bounds b) as [Hb _].
  assert (H2k : 0 < 2 ^ k) by (apply Z.pow_pos_nonneg; lia).
  assert (Hlt : 2 ^ (Z.pos (digits2_pos b) - 1 + k)
                < 2 ^ Z.pos (digits2_pos a)).
  { rewrite Z.pow_add_r by lia. nia. }
  apply Z.pow_lt_mono_r_iff in Hlt; lia.
Qed.

Lemma SFleb_finite : forall a ea b eb,
  ea < eb \/ (ea = eb /\ Z.pos a <= Z.pos b) ->
  SFleb (S754_finite false a ea) (S754_finite false b eb) = true.
Proof.
  intros a ea b eb H. unfold SFleb, SFcompare.
  destruct H as [H|[-> H]].
  - apply Z.compare_lt_iff in H. rewrite H. reflexivity.
  - rewrite Z.compare_refl.
    change (Pos.compare_cont Eq a b) with (Pos.compare a b).
    destruct (Pos.compare_spec a b); try reflexivity. lia.
Qed.

Lemma div_pow2_pos : forall m k,
  0 <= k -> 2 ^ k <= m -> 0 < m / 2 ^ k.
Proof.
  intros m k Hk H. apply Z.div_str_pos. split; [apply Z.pow_pos_nonneg; lia|exact H].
Qed.

(** The end of the rounding, from below: the result is at least a float
    in canonical form that the rounded mantissa is not under. *)
Lemma finish_ge : forall m2 e1 mr er,
  fexp64 (Z.pos (digits2_pos mr) + er) = er ->
  -1074 <= e1 -> er <= e1 -> 0 < m2 ->
  (e1 = er -> Z.pos mr <= m2) ->
  SFleb (S754_finite false mr er) (finish m2 e1) = true.
Proof.
  intros m2 e1 mr er Hcan Hmin He Hm2 Hm.
  destruct m2 as [|p|p]; try lia. unfold finish. simpl Zdigits2.
  set (d := Z.pos (digits2_pos p)).
  destruct (digits2_bounds p) as [Hlo Hhi]. fold d in Hlo, Hhi.
  assert (Hd : 1 <= d) by (unfold d; lia).
  set (n := Z.max (fexp64 (d + e1) - e1) 0).
  replace (e1 + n - e1) with n by lia.
  assert (Hn : 0 <= n <= d - 1) by (unfold n, fexp64; lia).
  assert (Hpos : 0 < Z.pos p / 2 ^ n).
  { apply div_pow2_pos; [lia|].
    transitivity (2 ^ (d - 1)); [apply Z.pow_le_mono_r; lia|exact Hlo]. }
  destruct (Z.pos p / 2 ^ n) as [|m3|m3] eqn:Hm3; try lia.
  destruct (e1 + n <=? 971); [|reflexivity].
  apply SFleb_finite.
  destruct (Z.eq_dec (e1 + n) er) as [Heq|Hne]; [right|left; lia].
  split; [symmetry; exact Heq|].
  assert (n = 0) by lia. assert (e1 = er) by lia.
  replace n with 0 in Hm3 by lia. rewrite Z.div_1_r in Hm3.
  rewrite <- Hm3. apply Hm. assumption.
Qed.

(** The end of the rounding, from above. *)
Lemma finish_le : forall m2 e1 mr er,
  fexp64 (Z.pos (digits2_pos mr) + er) = er ->
  er <= 971 -> -1074 <= e1 -> e1 <= er ->
  0 <= m2 <= 2 ^ 53 ->
  (e1 = er -> m2 <= Z.pos mr) ->
  SFleb (finish m2 e1) (S754_finite false mr er) = true
  /\ SFleb (S754_zero false) (finish m2 e1) = true.
Proof.
  intros m2 e1 mr er Hcan Hmax Hmin He Hm2 Hm.
  destruct (digits2_bounds mr) as [Hrlo Hrhi].
  destruct m2 as [|p|p]; try lia.
  - unfold finish. simpl Zdigits2.
    replace (e1 + Z.max (fexp64 (0 + e1) - e1) 0 - e1) with 0
      by (unfold fexp64; lia).
    simpl. split; reflexivity.
  - unfold finish. simpl Zdigits2.
    set (d := Z.pos (digits2_pos p)).
    destruct (digits2_bounds p) as [Hlo Hhi]. fold d in Hlo, Hhi.
    assert (Hd : 1 <= d) by (unfold d; lia).
    assert (Hd54 : d <= 54).
    { destruct (Z.le_gt_cases d 54); [assumption|exfalso].
      assert (2 ^ 54 <= 2 ^ (d - 1)) by (apply Z.pow_le_mono_r; lia).
      change (2 ^ 54) with 18014398509481984 in *.
      change (2 ^ 53) with 9007199254740992 in *. lia. }
    destruct (Z.eq_dec d 54) as [Hd_eq|Hd_ne].
    + (* the mantissa is 2^53 *)
      assert (Hp : Z.pos p = 2 ^ 53).
      { rewrite Hd_eq in Hlo. change (2 ^ (54 - 1)) with (2 ^ 53) in Hlo. lia. }
      assert (Hlt : e1 < er).
      { destruct (Z.eq_dec e1 er) as [Heq|]; [|lia].
        specialize (Hm Heq).
        assert (Hdr : Z.pos (digits2_pos mr) <= 53)
          by (unfold fexp64 in Hcan; lia).
        assert (2 ^ Z.pos (digits2_pos mr) <= 2 ^ 53)
          by (apply Z.pow_le_mono_r; lia).
        lia. }
      replace (e1 + Z.max (fexp64 (d + e1) - e1) 0) with (e1 + 1)
        by (unfold fexp64; lia).
      replace (e1 + 1 - e1) with 1 by lia.
      rewrite Hp. change (2 ^ 53 / 2 ^ 1) with 4503599627370496.
      replace (e1 + 1 <=? 971) with true by (symmetry; apply Z.leb_le; lia).
      split; [|reflexivity].
      apply SFleb_finite.
      destruct (Z.eq_dec (e1 + 1) er) as [Heq|]; [right|left; lia].
      split; [exact Heq|].
      assert (Hdr : Z.pos (digits2_pos mr) = 53)
        by (unfold fexp64 in Hcan; lia).
      rewrite Hdr in Hrlo. change (2 ^ (53 - 1)) with 4503599627370496 in Hrlo.
      exact Hrlo.
    + assert (Hn : fexp64 (d + e1) <= e1).
      { destruct (Z.eq_dec e1 er) as [Heq|Hne].
        - specialize (Hm Heq).
          assert (d <= Z.pos (digits2_pos mr)).
          { pose proof (digits2_scaled_le p mr 0 ltac:(lia)) as H.
            rewrite Z.mul_1_r, Z.add_0_r in H. apply H. exact Hm. }
          unfold fexp64 in *. lia.
        - unfold fexp64. lia. }
      replace (e1 + Z.max (fexp64 (d + e1) - e1) 0) with e1 by lia.
      rewrite Z.sub_diag. change (2 ^ 0) with 1. rewrite Z.div_1_r.
      replace (e1 <=? 971) with true by (symmetry; apply Z.leb_le; lia).
      split; [|reflexivity].
      apply SFleb_finite.
      destruct (Z.eq_dec e1 er) as [Heq|]; [right|left; lia].
      split; [exact Heq|]. apply Hm. exact Heq.
Qed.

Lemma finish_nonneg : forall m2 e1,
  0 <= m2 -> SFleb (S754_zero false) (finish m2 e1) = true.
Proof.
  intros m2 e1 H. unfold finish.
  set (k := e1 + Z.max (fexp64 (Zdigits2 m2 + e1) - e1) 0 - e1).
  assert (0 <= m2 / 2 ^ k)
    by (apply Z.div_pos; [lia|apply Z.pow_pos_nonneg; unfold k; lia]).
  destruct (m2 / 2 ^ k); try lia; [reflexivity|].
  destruct (_ <=? 971); reflexivity.
Qed.

(** Rounding to nearest never falls under a float that the rounded number
    is not under. *)
Lemma binary_round_aux_ge : forall P e mr er,
  fexp64 (Z.pos (digits2_pos mr) + er) = er ->
  e <= fexp64 (Z.pos (digits2_pos P) + e) ->
  e <= er ->
  Z.pos mr * 2 ^ (er - e) <= Z.pos P ->
  SFleb (S754_finite false mr er)
    (binary_round_aux prec emax false (Z.pos P) e loc_Exact) = true
  /\ SFleb (S754_zero false)
       (binary_round_aux prec emax false (Z.pos P) e loc_Exact) = true.
Proof.
  intros P e mr er Hcan Hn1 He Hval.
  destruct (binary_round_aux_spec P e) as (m2 & [Hlo _] & _ & _ & ->).
  set (dP := Z.pos (digits2_pos P)) in *.
  replace (e + Z.max (fexp64 (dP + e) - e) 0) with (fexp64 (dP + e)) in * by lia.
  set (e1 := fexp64 (dP + e)) in *.
  destruct (digits2_bounds P) as [HPlo HPhi]. fold dP in HPlo, HPhi.
  pose proof (digits2_scaled_ge P mr (er - e) ltac:(lia) Hval) as Hdig.
  fold dP in Hdig.
  assert (Her : er <= e1) by (unfold e1, fexp64 in *; lia).
  assert (H2k : 0 < 2 ^ (e1 - e)) by (apply Z.pow_pos_nonneg; lia).
  assert (Hm1 : 0 < Z.pos P / 2 ^ (e1 - e)).
  { apply div_pow2_pos; [lia|].
    destruct (Z.eq_dec e1 er) as [->|Hne].
    - assert (0 < 2 ^ (er - e)) by (apply Z.pow_pos_nonneg; lia). nia.
    - transitivity (2 ^ (dP - 1)); [|exact HPlo].
      apply Z.pow_le_mono_r; [lia|]. unfold e1, fexp64 in *. lia. }
  split.
  - apply finish_ge; try assumption; try lia.
    + unfold e1, fexp64. lia.
    + intro Heq. rewrite Heq in Hlo.
      assert (Z.pos mr <= Z.pos P / 2 ^ (er - e)); [|lia].
      apply Z.div_le_lower_bound; [apply Z.pow_pos_nonneg; lia|lia].
  - apply finish_nonneg. lia.
Qed.

(** Rounding to nearest never passes a float that the rounded number is
    not above. *)
Lemma binary_round_aux_le : forall P e mr er,
  fexp64 (Z.pos (digits2_pos mr) + er) = er ->
  er <= 971 ->
  e <= er ->
  Z.pos P <= Z.pos mr * 2 ^ (er - e) ->
  SFleb (binary_round_aux prec emax false (Z.pos P) e loc_Exact)
    (S754_finite false mr er) = true
  /\ SFleb (S754_zero false)
       (binary_round_aux prec emax false (Z.pos P) e loc_Exact) = true.
Proof.
  intros P e mr er Hcan Hmax He Hval.
  destruct (binary_round_aux_spec P e) as (m2 & [Hlo Hhi] & Hex & _ & ->).
  set (dP := Z.pos (digits2_pos P)) in *.
  set (e1 := e + Z.max (fexp64 (dP + e) - e) 0) in *.
  destruct (digits2_bounds P) as [HPlo HPhi]. fold dP in HPlo, HPhi.
  pose proof (digits2_scaled_le P mr (er - e) ltac:(lia) Hval) as Hdig.
  fold dP in Hdig.
  assert (He1 : e <= e1 /\ -1074 <= e1 /\ e1 <= er /\ dP - 53 <= e1 - e)
    by (unfold e1, fexp64 in *; lia).
  destruct He1 as (He1a & He1b & He1c & He1d).
  assert (H2k : 0 < 2 ^ (e1 - e)) by (apply Z.pow_pos_nonneg; lia).
  assert (Hm1 : 0 <= Z.pos P / 2 ^ (e1 - e)) by (apply Z.div_pos; lia).
  assert (Hm1' : Z.pos P / 2 ^ (e1 - e) < 2 ^ 53).
  { apply Z.div_lt_upper_bound; [assumption|].
    rewrite <- Z.pow_add_r by lia.
    apply Z.lt_le_trans with (2 ^ dP); [assumption|].
    apply Z.pow_le_mono_r; lia. }
  apply finish_le; try assumption; try lia.
  intro Heq. rewrite Heq in *.
  assert (Hq : Z.pos P / 2 ^ (er - e) <= Z.pos mr)
    by (apply Z.div_le_upper_bound; [assumption|lia]).
  destruct (Z.eq_dec (Z.pos P mod 2 ^ (er - e)) 0) as [Hz|Hnz].
  - rewrite (Hex Hz). exact Hq.
  - pose proof (Z.div_mod (Z.pos P) (2 ^ (er - e)) ltac:(lia)) as Hdm.
    pose proof (Z.mod_pos_bound (Z.pos P) (2 ^ (er - e)) H2k) as Hrem.
    assert (Z.pos P / 2 ^ (er - e) < Z.pos mr) by nia.
    lia.
Qed.

Lemma shl_align_spec : forall m e e',
  exists m', shl_align m e e' = (m', Z.min e e')
             /\ Z.pos m' = Z.pos m * 2 ^ (e - Z.min e e').
Proof.
  intros m e e'. unfold shl_align.
  destruct (e' - e) as [|n|n] eqn:Hn.
  - exists m. replace (Z.min e e') with e by lia. rewrite Z.sub_diag.
    split; [reflexivity|simpl; lia].
  - exists m. replace (Z.min e e') with e by lia. rewrite Z.sub_diag.
    split; [reflexivity|simpl; lia].
  - exists (Pos.iter xO m n). replace (Z.min e e') with e' by lia.
    split; [reflexivity|]. rewrite Zpos_iter_xO. f_equal. f_equal. lia.
Qed.

Lemma digits2_shifted : forall m m' k,
  0 <= k -> Z.pos m' = Z.pos m * 2 ^ k ->
  Z.pos (digits2_pos m') = Z.pos (digits2_pos m) + k.
Proof.
  intros m m' k Hk H.
  pose proof (digits2_scaled_le m' m k Hk ltac:(lia)).
  pose proof (digits2_scaled_ge m' m k Hk ltac:(lia)). lia.
Qed.

Lemma binary_round_ge : forall P e mr er,
  fexp64 (Z.pos (digits2_pos mr) + er) = er ->
  e <= er ->
  Z.pos mr * 2 ^ (er - e) <= Z.pos P ->
  SFleb (S754_finite false mr er) (binary_round prec emax false P e) = true
  /\ SFleb (S754_zero false) (binary_round prec emax false P e) = true.
Proof.
  intros P e mr er Hcan He Hval. unfold binary_round.
  rewrite fexp_fexp64.
  destruct (shl_align_spec P e (fexp64 (Z.pos (digits2_pos P) + e)))
    as (mz & -> & Hmz).
  set (e' := Z.min e (fexp64 (Z.pos (digits2_pos P) + e))) in *.
  assert (He' : 0 <= e - e') by (unfold e'; lia).
  pose proof (digits2_shifted P mz (e - e') He' Hmz) as Hd.
  assert (H2k : 0 < 2 ^ (e - e')) by (apply Z.pow_pos_nonneg; lia).
  apply binary_round_aux_ge; try assumption.
  - rewrite Hd. replace (Z.pos (digits2_pos P) + (e - e') + e')
      with (Z.pos (digits2_pos P) + e) by lia.
    unfold e'. lia.
  - unfold e'. lia.
  - rewrite Hmz. replace (er - e') with ((er - e) + (e - e')) by lia.
    rewrite Z.pow_add_r by lia. nia.
Qed.

Lemma SFleb_finite_refl : forall m e,
  SFleb (S754_finite false m e) (S754_finite false m e) = true.
Proof. intros. apply SFleb_finite. right. split; lia. Qed.

Lemma valid_canonical : forall s m e,
  valid_binary (S754_finite s m e) = true ->
  fexp64 (Z.pos (digits2_pos m) + e) = e /\ e <= 971.
Proof.
  intros s m e H. simpl in H. unfold bounded, canonical_mantissa in H.
  apply andb_true_iff in H as [H1 H2].
  apply Z.eqb_eq in H1. apply Z.leb_le in H2.
  rewrite fexp_fexp64 in H1. split; [exact H1|exact H2].
Qed.

(** Adding a number that is not negative to one that is not negative
    gives a sum that is not under the first. *)
Lemma SFadd_nonneg_ge : forall x y,
  valid_binary x = true ->
  SFleb (S754_zero false) x = true ->
  SFleb (S754_zero false) y = true ->
  SFleb x (SF64add x y) = true
  /\ SFleb (S754_zero false) (SF64add x y) = true.
Proof.
  intros x y Hv Hx Hy.
  destruct x as [sx|[|]| |[|] mx ex]; try discriminate;
    destruct y as [sy|[|]| |[|] my ey]; try discriminate;
    try (split; reflexivity);
    try (destruct sx, sy; split; reflexivity);
    try (destruct sx; split; reflexivity);
    try (destruct sy; split; reflexivity).
  - destruct sy; split; solve [reflexivity|apply SFleb_finite_refl].
  - destruct (valid_canonical _ _ _ Hv) as [Hcan _].
    unfold SF64add, SFadd. cbn [cond_Zopp].
    set (ez := Z.min ex ey).
    pose proof (shl_align_fst mx ex ez ltac:(unfold ez; lia)) as Hsx.
    pose proof (shl_align_fst my ey ez ltac:(unfold ez; lia)) as Hsy.
    change (Z.pos (fst (shl_align mx ex ez)) + Z.pos (fst (shl_align my ey ez)))
      with (Z.pos (fst (shl_align mx ex ez) + fst (shl_align my ey ez))).
    cbn [binary_normalize].
    apply binary_round_ge; try assumption.
    + unfold ez. lia.
    + rewrite Pos2Z.inj_add, Hsx. lia.
Qed.

Lemma float_add_nonneg_ge : forall m p,
  (0 <=? m)%float = true -> (0 <=? p)%float = true ->
  (m <=? m + p)%float = true /\ (0 <=? m + p)%float = true.
Proof.
  intros m p Hm Hp. rewrite !FloatAxioms.leb_spec in *.
  rewrite FloatAxioms.add_spec.
  change (Prim2SF 0) with (S754_zero false) in *.
  apply SFadd_nonneg_ge; try assumption. apply FloatAxioms.Prim2SF_valid.
Qed.

Lemma SFltb_finite : forall a ea b eb,
  ea < eb \/ (ea = eb /\ Z.pos a < Z.pos b) ->
  SFltb (S754_finite false a ea) (S754_finite false b eb) = true.
Proof.
  intros a ea b eb H. unfold SFltb, SFcompare.
  destruct H as [H|[-> H]].
  - apply Z.compare_lt_iff in H. rewrite H. reflexivity.
  - rewrite Z.compare_refl.
    change (Pos.compare_cont Eq a b) with (Pos.compare a b).
    destruct (Pos.compare_spec a b); try reflexivity; lia.
Qed.

Lemma SFltb_finite_inv : forall a ea b eb,
  SFltb (S754_finite false a ea) (S754_finite false b eb) = true ->
  ea < eb \/ (ea = eb /\ Z.pos a < Z.pos b).
Proof.
  intros a ea b eb. unfold SFltb, SFcompare.
  destruct (Z.compare_spec ea eb); try discriminate; [|left; assumption].
  change (Pos.compare_cont Eq a b) with (Pos.compare a b).
  destruct (Pos.compare_spec a b); try discriminate.
  intros _. right. split; [assumption|lia].
Qed.

(** The end of the rounding, strictly from above. *)
Lemma finish_lt : forall m2 e1 mr er,
  fexp64 (Z.pos (digits2_pos mr) + er) = er ->
  er <= 971 -> -1074 <= e1 -> e1 <= er ->
  0 <= m2 <= 2 ^ 53 ->
  2 ^ 52 < Z.pos mr ->
  (e1 = er -> m2 < Z.pos mr) ->
  SFltb (finish m2 e1) (S754_finite false mr er) = true.
Proof.
  intros m2 e1 mr er Hcan Hmax Hmin He Hm2 Hmr Hm.
  destruct (digits2_bounds mr) as [Hrlo Hrhi].
  destruct m2 as [|p|p]; try lia.
  - unfold finish. simpl Zdigits2.
    replace (e1 + Z.max (fexp64 (0 + e1) - e1) 0 - e1) with 0
      by (unfold fexp64; lia).
    reflexivity.
  - unfold finish. simpl Zdigits2.
    set (d := Z.pos (digits2_pos p)).
    destruct (digits2_bounds p) as [Hlo Hhi]. fold d in Hlo, Hhi.
    assert (Hd : 1 <= d) by (unfold d; lia).
    assert (Hd54 : d <= 54).
    { destruct (Z.le_gt_cases d 54); [assumption|exfalso].
      assert (2 ^ 54 <= 2 ^ (d - 1)) by (apply Z.pow_le_mono_r; lia).
      change (2 ^ 54) with 18014398509481984 in *.
      change (2 ^ 53) with 9007199254740992 in *. lia. }
    destruct (Z.eq_dec d 54) as [Hd_eq|Hd_ne].
    + assert (Hp : Z.pos p = 2 ^ 53).
      { rewrite Hd_eq in Hlo. change (2 ^ (54 - 1)) with (2 ^ 53) in Hlo. lia. }
      assert (Hlt : e1 < er).
      { destruct (Z.eq_dec e1 er) as [Heq|]; [|lia].
        specialize (Hm Heq).
        assert (Hdr : Z.pos (digits2_pos mr) <= 53)
          by (unfold fexp64 in Hcan; lia).
        assert (2 ^ Z.pos (digits2_pos mr) <= 2 ^ 53)
          by (apply Z.pow_le_mono_r; lia).
        lia. }
      replace (e1 + Z.max (fexp64 (d + e1) - e1) 0) with (e1 + 1)
        by (unfold fexp64; lia).
      replace (e1 + 1 - e1) with 1 by lia.
      rewrite Hp. change (2 ^ 53 / 2 ^ 1) with 4503599627370496.
      replace (e1 + 1 <=? 971) with true by (symmetry; apply Z.leb_le; lia).
      apply SFltb_finite.
      destruct (Z.eq_dec (e1 + 1) er) as [Heq|]; [right|left; lia].
      split; [exact Heq|]. change (2 ^ 52) with 4503599627370496 in Hmr.
      exact Hmr.
    + assert (Hn : fexp64 (d + e1) <= e1).
      { destruct (Z.eq_dec e1 er) as [Heq|Hne].
        - specialize (Hm Heq).
          assert (d <= Z.pos (digits2_pos mr)).
          { pose proof (digits2_scaled_le p mr 0 ltac:(lia)) as H.
            rewrite Z.mul_1_r, Z.add_0_r in H. apply H. lia. }
          unfold fexp64 in *. lia.
        - unfold fexp64. lia. }
      replace (e1 + Z.max (fexp64 (d + e1) - e1) 0) with e1 by lia.
      rewrite Z.sub_diag. change (2 ^ 0) with 1. rewrite Z.div_1_r.
      replace (e1 <=? 971) with true by (symmetry; apply Z.leb_le; lia).
      apply SFltb_finite.
      destruct (Z.eq_dec e1 er) as [Heq|]; [right|left; lia].
      split; [exact Heq|]. apply Hm. exact Heq.
Qed.

(** Rounding to nearest stays under a float with a full mantissa that is
    more than half a unit of its last place above the rounded number. *)
Lemma binary_round_aux_lt : forall P e mr er,
  fexp64 (Z.pos (digits2_pos mr) + er) = er ->
  er <= 971 ->
  e <= er ->
  2 ^ 52 < Z.pos mr ->
  2 * Z.pos P + 2 ^ (er - e) < Z.pos mr * 2 ^ (er - e + 1) ->
  SFltb (binary_round_aux prec emax false (Z.pos P) e loc_Exact)
    (S754_finite false mr er) = true.
Proof.
  intros P e mr er Hcan Hmax He Hmr Hhalf.
  assert (H2k0 : 0 < 2 ^ (er - e)) by (apply Z.pow_pos_nonneg; lia).
  assert (Hpow : 2 ^ (er - e + 1) = 2 * 2 ^ (er - e))
    by (rewrite Z.pow_add_r by lia; change (2 ^ 1) with 2; lia).
  rewrite Hpow in Hhalf.
  assert (Hval : Z.pos P <= Z.pos mr * 2 ^ (er - e)) by nia.
  destruct (binary_round_aux_spec P e) as (m2 & [Hlo Hhi] & Hex & Hup & ->).
  set (dP := Z.pos (digits2_pos P)) in *.
  set (e1 := e + Z.max (fexp64 (dP + e) - e) 0) in *.
  destruct (digits2_bounds P) as [HPlo HPhi]. fold dP in HPlo, HPhi.
  pose proof (digits2_scaled_le P mr (er - e) ltac:(lia) Hval) as Hdig.
  fold dP in Hdig.
  assert (He1 : e <= e1 /\ -1074 <= e1 /\ e1 <= er /\ dP - 53 <= e1 - e)
    by (unfold e1, fexp64 in *; lia).
  destruct He1 as (He1a & He1b & He1c & He1d).
  assert (H2k : 0 < 2 ^ (e1 - e)) by (apply Z.pow_pos_nonneg; lia).
  assert (Hm1 : 0 <= Z.pos P / 2 ^ (e1 - e)) by (apply Z.div_pos; lia).
  assert (Hm1' : Z.pos P / 2 ^ (e1 - e) < 2 ^ 53).
  { apply Z.div_lt_upper_bound; [assumption|].
    rewrite <- Z.pow_add_r by lia.
    apply Z.lt_le_trans with (2 ^ dP); [assumption|].
    apply Z.pow_le_mono_r; lia. }
  apply finish_lt; try assumption; try lia.
  intro Heq. rewrite Heq in *.
  pose proof (Z.div_mod (Z.pos P) (2 ^ (er - e)) ltac:(lia)) as Hdm.
  pose proof (Z.mod_pos_bound (Z.pos P) (2 ^ (er - e)) H2k) as Hrem.
  set (q := Z.pos P / 2 ^ (er - e)) in *.
  set (rem := Z.pos P mod 2 ^ (er - e)) in *.
  assert (Hq : q < Z.pos mr) by nia.
  destruct (Z.eq_dec m2 (q + 1)) as [Hm2|Hm2]; [|lia].
  destruct (Hup Hm2) as [Hk Hr].
  assert (Hpow' : 2 ^ (er - e) = 2 * 2 ^ (er - e - 1)).
  { replace (er - e) with (er - e - 1 + 1) at 1 by lia.
    rewrite Z.pow_add_r by lia. change (2 ^ 1) with 2. lia. }
  nia.
Qed.

(** A canonical float under one is at most [1 - 2^-53]. *)
Lemma below_one_bound : forall mx ex,
  fexp64 (Z.pos (digits2_pos mx) + ex) = ex ->
  SFltb (S754_finite false mx ex) SF64one = true ->
  ex <= -52
  /\ Z.pos mx * 2 ^ 53 <= (2 ^ 53 - 1) * 2 ^ (- ex).
Proof.
  intros mx ex Hcan Hlt. apply SFltb_finite_inv in Hlt.
  destruct (digits2_bounds mx) as [Hlo Hhi].
  assert (Hd : Z.pos (digits2_pos mx) <= 53) by (unfold fexp64 in Hcan; lia).
  assert (Hmx : Z.pos mx < 2 ^ 53).
  { apply Z.lt_le_trans with (2 ^ Z.pos (digits2_pos mx)); [assumption|].
    apply Z.pow_le_mono_r; lia. }
  destruct Hlt as [Hlt|[-> Hlt]].
  - split; [lia|].
    assert (2 ^ 53 <= 2 ^ (- ex)) by (apply Z.pow_le_mono_r; lia).
    change (2 ^ 53) with 9007199254740992 in *. nia.
  - split; [lia|]. change (- -52) with 52.
    change (2 ^ 53) with 9007199254740992 in *.
    change (2 ^ 52) with 4503599627370496 in *. lia.
Qed.

(** The product of a number of [[0, 1)] and a finite number that is not
    negative lies between zero and that number, and strictly under it when
    the number is above the smallest normal one. *)
Lemma SFmul_below_one : forall u t,
  valid_binary u = true -> valid_binary t = true ->
  SFleb (S754_zero false) u = true -> SFltb u SF64one = true ->
  SFleb (S754_zero false) t = true -> SFltb SF64one t = false ->
  SFleb (S754_zero false) (SF64mul u t) = true
  /\ SFleb (SF64mul u t) t = true
  /\ (SFltb SF64minNormal t = true -> SFltb (SF64mul u t) t = true).
Proof.
  intros u t Hvu Hvt Hu0 Hu1 Ht0 Ht1.
  destruct u as [su|[|]| |[|] mx ex]; try discriminate;
    destruct t as [st|[|]| |[|] my ey]; try discriminate.
  - destruct su, st; repeat split; try reflexivity; discriminate.
  - destruct su; repeat split; reflexivity.
  - destruct st; repeat split; try reflexivity; discriminate.
  - destruct (valid_canonical _ _ _ Hvu) as [Hcu _].
    destruct (valid_canonical _ _ _ Hvt) as [Hct Hmax].
    destruct (below_one_bound mx ex Hcu Hu1) as [Hex Hmx].
    unfold SF64mul, SFmul. cbn [xorb].
    set (K := 2 ^ (- ex)) in *.
    assert (HK : 0 < K) by (apply Z.pow_pos_nonneg; lia).
    assert (Hk : ey - (ex + ey) = - ex) by lia.
    assert (Hle : Z.pos (mx * my) <= Z.pos my * 2 ^ (ey - (ex + ey))).
    { rewrite Hk. fold K. rewrite Pos2Z.inj_mul.
      change (2 ^ 53) with 9007199254740992 in Hmx. nia. }
    destruct (binary_round_aux_le (mx * my) (ex + ey) my ey Hct Hmax
                ltac:(lia) Hle) as [H1 H2].
    split; [exact H2|]. split; [exact H1|].
    intro Hnorm. apply SFltb_finite_inv in Hnorm.
    destruct (digits2_bounds my) as [Hylo Hyhi].
    assert (Hfull : 2 ^ 52 <= Z.pos my).
    { destruct Hnorm as [Hn|[_ Hn]]; [|change (2 ^ 52) with 4503599627370496; lia].
      assert (Hdy : Z.pos (digits2_pos my) = 53)
        by (unfold fexp64 in Hct; lia).
      rewrite Hdy in Hylo. exact Hylo. }
    destruct (Z.eq_dec (Z.pos my) (2 ^ 52)) as [Heq|Hne].
    + (* the number is a power of two: the float before it bounds the
         product *)
      assert (Hey : -1074 < ey).
      { destruct Hnorm as [Hn|[_ Hn]]; [lia|].
        change (2 ^ 52) with 4503599627370496 in Heq. lia. }
      assert (Hcp : fexp64 (Z.pos (digits2_pos 9007199254740991) + (ey - 1))
                    = ey - 1).
      { change (Z.pos (digits2_pos 9007199254740991)) with 53.
        unfold fexp64. lia. }
      assert (Hle' : Z.pos (mx * my)
                     <= 9007199254740991 * 2 ^ (ey - 1 - (ex + ey))).
      { replace (ey - 1 - (ex + ey)) with (- ex - 1) by lia.
        assert (HK' : K = 2 * 2 ^ (- ex - 1)).
        { unfold K. replace (- ex) with (- ex - 1 + 1) at 1 by lia.
          rewrite Z.pow_add_r by lia. change (2 ^ 1) with 2. lia. }
        rewrite Pos2Z.inj_mul, Heq.
        change (2 ^ 53) with 9007199254740992 in Hmx.
        change (2 ^ 52) with 4503599627370496. lia. }
      destruct (binary_round_aux_le (mx * my) (ex + ey) 9007199254740991
                  (ey - 1) Hcp ltac:(lia) ltac:(lia) Hle') as [H3 _].
      eapply SFleb_ltb_trans; [exact H3|].
      apply SFltb_finite. left. lia.
    + apply binary_round_aux_lt; try assumption; try lia.
      rewrite Hk. fold K.
      replace (2 ^ (- ex + 1)) with (2 * K)
        by (unfold K; rewrite Z.pow_add_r by lia; change (2 ^ 1) with 2; lia).
      rewrite Pos2Z.inj_mul.
      change (2 ^ 53) with 9007199254740992 in Hmx.
      change (2 ^ 52) with 4503599627370496 in *.
      assert (4503599627370497 <= Z.pos my) by lia.
      nia.
Qed.

Lemma float_mul_below_one : forall u t,
  (0 <=? u)%float = true -> (u <? 1)%float = true ->
  (0 <=? t)%float = true -> (1 <? t)%float = false ->
  (0 <=? u * t)%float = true
  /\ (u * t <=? t)%float = true
  /\ ((0x1p-1022 <? t)%float = true -> (u * t <? t)%float = true).
Proof.
  intros u t Hu0 Hu1 Ht0 Ht1.
  rewrite !FloatAxioms.leb_spec, !FloatAxioms.ltb_spec in *.
  rewrite FloatAxioms.mul_spec.
  change (Prim2SF 0) with (S754_zero false) in *.
  change (Prim2SF 1) with SF64one in *.
  change (Prim2SF 0x1p-1022) with SF64minNormal.
  apply SFmul_below_one; try assumption; apply FloatAxioms.Prim2SF_valid.
Qed.

Lemma SFleb_trans : forall a b c,
  SFleb a b = true -> SFleb b c = true -> SFleb a c = true.
Proof.
  unfold SFleb.
  intros [sa|sa| |sa ma ea] [sb|sb| |sb mb eb] [sc|sc| |sc mc ec];
    simpl; intros H1 H2; try discriminate; try reflexivity;
    repeat match goal with s : bool |- _ => destruct s end;
    simpl in *; try discriminate; try reflexivity; sf_cases.
Qed.

Lemma float_le_trans : forall a b c,
  float_le a b -> float_le b c -> float_le a c.
Proof.
  unfold float_le. intros a b c. rewrite !FloatAxioms.leb_spec.
  apply SFleb_trans.
Qed.

(** The running totals of weights that are not negative ascend from the
    starting total. *)
Lemma runningTotals_ascending : forall ps m,
  (0 <=? m)%float = true ->
  Forall (fun p => (0 <=? p)%float = true) ps ->
  StronglySorted float_le (runningTotals m ps)
  /\ Forall (float_le m) (runningTotals m ps)
  /\ float_le 0%float (last (runningTotals m ps) m).
Proof.
  induction ps as [|p ps IH]; intros m Hm Hps; simpl runningTotals.
  - split; [constructor|]. split; [constructor|exact Hm].
  - inversion Hps as [|? ? Hp Hps']; subst.
    destruct (float_add_nonneg_ge m p Hm Hp) as [Hle H0].
    destruct (IH (m + p)%float H0 Hps') as (Hs & Hall & Hlast).
    split; [constructor; assumption|]. split.
    + constructor; [exact Hle|].
      eapply Forall_impl; [|exact Hall].
      intros t Ht. eapply float_le_trans; [exact Hle|exact Ht].
    + rewrite last_cons_default. exact Hlast.
Qed.

Lemma runningTotals_length : forall ps m,
  length (runningTotals m ps) = length ps.
Proof. induction ps; intro m; simpl; auto. Qed.

(** The entry of the table built by the resolution for a name. *)
Lemma resolve_lookup : forall ps ps' table name prod,
  nodes.resolve ps [] = Ok (ps', table) ->
  nodes.rules_get name table = Some prod ->
  exists p, In p ps /\ nodes.Name p = name /\ prod = resolved p
            /\ weightsWithinOne p = true.
Proof.
  intros ps ps' table name prod H Hg.
  destruct (resolve_Ok_inv _ _ _ _ H) as (Hnd & _ & Hw).
  destruct (resolve_Ok ps [] Hnd ltac:(reflexivity) Hw) as (table' & H' & Hget).
  rewrite H in H'. injection H' as _ <-.
  rewrite Hget in Hg.
  destruct (find (fun q => String.eqb name (nodes.Name q)) ps)
    as [q|] eqn:Hfind; [|discriminate].
  apply find_some in Hfind as [Hq Heq]. apply String.eqb_eq in Heq.
  injection Hg as <-. exists q. repeat split; auto.
  rewrite forallb_forall in Hw. apply Hw. exact Hq.
Qed.

Lemma last_In : forall {A : Type} (l : list A) (d : A),
  l <> [] -> In (last l d) l.
Proof.
  induction l as [|a [|b l] IH]; intros d H; [congruence|left; reflexivity|].
  right. apply IH. discriminate.
Qed.

Lemma last_nth : forall {A : Type} (l : list A) (d : A),
  last l d = nth (length l - 1) l d.
Proof.
  induction l as [|a [|b l] IH]; intro d; try reflexivity.
  change (last (a :: b :: l) d) with (last (b :: l) d). rewrite IH.
  simpl. rewrite Nat.sub_0_r. reflexivity.
Qed.

(** When the sample lies beyond every entry of the table, whatever the
    order of the table, the search runs to the end and the selection is
    clamped to the last alternative. *)
Lemma selectAlternative_beyond : forall p prod u,
  length (nodes.totals prod) = length (nodes.Alternatives p) ->
  (forall i, 0 <= i < Z.of_nat (length (nodes.Alternatives p)) ->
     atLeast (entry (nodes.totals prod) i)
       (u * nodes.max prod)%float = false) ->
  fst (BinarySearch (nodes.totals prod) (u * nodes.max prod)%float)
  = Z.of_nat (length (nodes.Alternatives p))
  /\ nodes.selectAlternative p prod u
     = Z.of_nat (length (nodes.Alternatives p)) - 1.
Proof.
  intros p prod u Hlen Hall.
  set (x := (u * nodes.max prod)%float) in *.
  assert (Hless : forall i, 0 <= i < Z.of_nat (length (nodes.totals prod)) ->
            cmp_Less (entry (nodes.totals prod) i) x = true).
  { intros i Hi. rewrite Hlen in Hi. specialize (Hall i Hi).
    unfold atLeast in Hall. destruct (cmp_Less _ _); [reflexivity|discriminate]. }
  pose proof (BinarySearch_spec (nodes.totals prod) x
                ltac:(intros i j Hij Hj _; apply Hless; lia)) as Hbs.
  cbv zeta in Hbs. destruct Hbs as (Hr & _ & Hfrom).
  set (r := fst (BinarySearch (nodes.totals prod) x)) in *.
  assert (Hrn : r = Z.of_nat (length (nodes.totals prod))).
  { destruct (Z.eq_dec r (Z.of_nat (length (nodes.totals prod))));
      [assumption|exfalso].
    pose proof (Hfrom r ltac:(lia)) as Hf.
    rewrite Hless in Hf by lia. discriminate Hf. }
  rewrite Hlen in Hrn. split; [exact Hrn|].
  unfold nodes.selectAlternative. fold x. fold r. lia.
Qed.

(** ** Selection over the table of an accepted grammar *)

(** C8: in a state whose rule table the resolution of a grammar built, a
    try of a production draws [u] in [0, 1), scales it by the total mass,
    [x = u * prod.max], and generates the alternative at the index
    selected, which is always a valid index; when [x] lies beyond every
    entry of the cumulative table the selection is the last alternative.
    Over an ascending table the index selected is the first one whose
    cumulative entry is at least [x], when there is one.  When no weight
    of the production is negative, the table is ascending, [x] lies in
    [0, prod.max] (strictly under the mass when the mass is above the
    smallest normal number), the search ends inside the table, and the
    alternative selected is the one at the first index whose cumulative
    entry is at least [x]. *)
Theorem selectAlternative_first_at_least :
  forall ruleGen ps ps' name prod s,
    nodes.resolve ps [] = Ok (ps', nodes.rules s) ->
    nodes.rules_get name (nodes.rules s) = Some prod ->
    let p := nodes.Production_ prod in
    nodes.Alternatives p <> [] ->
    let u := fst (nodes.Float64 (nodes.seed s)) in
    let x := (u * nodes.max prod)%float in
    let aNo := nodes.selectAlternative p prod u in
    let len := Z.of_nat (length (nodes.Alternatives p)) in
    nodes.rules_get (nodes.Name p) (nodes.rules s) = Some prod
    /\ ((0 <=? u)%float = true /\ (u <? 1)%float = true)
    /\ 0 <= aNo < len
    /\ (exists a,
          nth_error (nodes.Alternatives p) (Z.to_nat aNo) = Some a
          /\ nodes.Production_Gen_try ruleGen p prod s
             = nodes.Alternate_Gen ruleGen (nodes.Alternate_ a)
                 (nodes.mkGeneratorState (nodes.options s)
                    (nodes.mkRand (nodes.source (nodes.seed s))
                       (S (nodes.drawn (nodes.seed s))))
                    (nodes.rules s)))
    /\ ((forall i, 0 <= i < len ->
           atLeast (entry (nodes.totals prod) i) x = false) ->
        aNo = len - 1)
    /\ (StronglySorted float_le (nodes.totals prod) ->
        (forall i, 0 <= i < aNo ->
           atLeast (entry (nodes.totals prod) i) x = false)
        /\ ((exists i, 0 <= i < len
                       /\ atLeast (entry (nodes.totals prod) i) x = true) ->
            atLeast (entry (nodes.totals prod) aNo) x = true))
    /\ (weightsNotNegative (nodes.Alternatives p) ->
        StronglySorted float_le (nodes.totals prod)
        /\ ((0 <=? x)%float = true
            /\ (x <=? nodes.max prod)%float = true
            /\ ((0x1p-1022 <? nodes.max prod)%float = true ->
                (x <? nodes.max prod)%float = true))
        /\ aNo = fst (BinarySearch (nodes.totals prod) x)
        /\ atLeast (entry (nodes.totals prod) aNo) x = true
        /\ (forall i, 0 <= i < aNo ->
              atLeast (entry (nodes.totals prod) i) x = false)).
Proof.
  intros ruleGen ps ps' name prod s Hres Hget p Hne u x aNo len.
  destruct (resolve_lookup _ _ _ _ _ Hres Hget)
    as (p0 & Hp0 & Hname & Hprod & Hw).
  assert (Halts : nodes.Alternatives p = sortedAlternatives p0)
    by (unfold p; rewrite Hprod; reflexivity).
  assert (Htot : nodes.totals prod
                 = runningTotals 0%float
                     (map nodes.Probability (nodes.Alternatives p)))
    by (rewrite Halts, Hprod; reflexivity).
  assert (Hmax : nodes.max prod = last (nodes.totals prod) 0%float)
    by (rewrite Hprod; reflexivity).
  assert (Hlen : length (nodes.totals prod) = length (nodes.Alternatives p))
    by (rewrite Htot, runningTotals_length, length_map; reflexivity).
  destruct (Float64_range (nodes.seed s)) as (Hu0 & Hu1 & _).
  pose proof (selectAlternative_valid p prod u Hne) as Hvalid.
  split.
  { replace (nodes.Name p) with name; [exact Hget|].
    unfold p. rewrite Hprod. symmetry. exact Hname. }
  split; [split; assumption|]. split; [exact Hvalid|].
  split; [exact (Production_Gen_try_selects ruleGen p prod s Hne)|].
  split; [intro Hall; apply (selectAlternative_beyond p prod u Hlen Hall)|].
  split.
  { intro Hs.
    destruct (selectAlternative_spec p prod u Hne Hlen Hs)
      as (_ & Hbelow & Hat & _).
    split; [exact Hbelow|exact Hat]. }
  intro Hpos.
  assert (Hps : Forall (fun w => (0 <=? w)%float = true)
                  (map nodes.Probability (nodes.Alternatives p))).
  { apply Forall_forall. intros w Hin.
    apply in_map_iff in Hin as (a & <- & Ha). apply Hpos. exact Ha. }
  destruct (runningTotals_ascending _ 0%float ltac:(reflexivity) Hps)
    as (Hsorted & _ & Hlast).
  rewrite <- Htot in Hsorted, Hlast. rewrite <- Hmax in Hlast.
  assert (Htne : nodes.totals prod <> []).
  { intro Hnil. rewrite Hnil in Hlen. simpl in Hlen.
    destruct (nodes.Alternatives p); [congruence|discriminate]. }
  assert (Hle1 : (1 <? nodes.max prod)%float = false).
  { unfold weightsWithinOne in Hw. rewrite forallb_forall in Hw.
    assert (Hin : In (nodes.max prod)
                    (runningTotals 0%float
                       (map nodes.Probability (sortedAlternatives p0)))).
    { rewrite <- Halts, <- Htot, Hmax. apply last_In. exact Htne. }
    specialize (Hw _ Hin). unfold notAboveOne in Hw.
    destruct (1 <? nodes.max prod)%float; [discriminate|reflexivity]. }
  destruct (float_mul_below_one u (nodes.max prod) Hu0 Hu1 Hlast Hle1)
    as (Hx0 & Hxm & Hxlt).
  fold x in Hx0, Hxm, Hxlt.
  destruct (selectAlternative_spec p prod u Hne Hlen Hsorted)
    as (_ & Hbelow & Hat & _).
  assert (Hex : exists i, 0 <= i < len
                  /\ atLeast (entry (nodes.totals prod) i) x = true).
  { exists (len - 1). split; [unfold len in *; lia|].
    assert (Hentry : entry (nodes.totals prod) (len - 1) = nodes.max prod).
    { unfold entry. rewrite Hmax, last_nth. f_equal. unfold len.
      rewrite Hlen. lia. }
    rewrite Hentry.
    destruct (float_le_not_nan x (nodes.max prod) Hxm) as [Hnx Hnm].
    rewrite atLeast_leb by assumption. exact Hxm. }
  split; [exact Hsorted|]. split; [repeat split; assumption|].
  assert (Hhere : atLeast (entry (nodes.totals prod) aNo) x = true)
    by (apply Hat; exact Hex).
  split; [|split; [exact Hhere|exact Hbelow]].
  (* the search ends inside the table *)
  pose proof (BinarySearch_bounds (nodes.totals prod) x) as Hb.
  unfold aNo, nodes.selectAlternative. fold x.
  destruct (Z.le_gt_cases (fst (BinarySearch (nodes.totals prod) x))
              (len - 1)) as [Hin|Hout]; [unfold len in Hin; lia|exfalso].
  pose proof (BinarySearch_spec (nodes.totals prod) x
                (ascending_partitioned _ x Hsorted)) as Hbs.
  cbv zeta in Hbs. destruct Hbs as (_ & Hlt & _).
  destruct Hex as (i & Hi & Hati). unfold atLeast in Hati.
  rewrite Hlt in Hati; [discriminate|]. unfold len in *. lia.
Qed.

(** The grammar [S ::= x %0.2 | y %0.3 | f %0.5 .] over a source that
    returns 3 * 2^51 at every draw: the value drawn is 0.75 and the mass is
    1, so [x] is 0.75, under the mass; the table 0.2, 0.5, 1 is ascending
    and the selection is the third alternative, the first whose entry is
    at least 0.75. *)
Lemma selectAlternative_first_at_least_witness :
  let prod := resolved (hd (nodes.mkProduction samplePosition "S" [])
                          (nodes.Productions grammar_three_weights)) in
  let table := [("S", prod)] in
  let s := nodes.mkGeneratorState (nodes.mkOptions 42 10 100)
             (nodes.mkRand (constantSource 6755399441055744 42 43) 0) table in
  let ruleGen := fun _ : nodes.Production =>
                   nodes.gen_ret (nodes.value_bool samplePos true) in
  nodes.totals prod = [0.2%float; 0.5%float; 1%float]
  /\ fst (nodes.Float64 (nodes.seed s)) = 0.75%float
  /\ (0.75 * nodes.max prod <? nodes.max prod)%float = true
  /\ nodes.selectAlternative (nodes.Production_ prod) prod 0.75%float = 2
  /\ atLeast (entry (nodes.totals prod) 1) (0.75 * nodes.max prod)%float = false
  /\ atLeast (entry (nodes.totals prod) 2) (0.75 * nodes.max prod)%float = true
  /\ fst (nodes.Production_Gen_try ruleGen (nodes.Production_ prod) prod s)
     = Ok (nodes.component (nodes.pToP samplePosition) "f").
Proof.
  intros prod table s ruleGen.
  assert (Hpos : weightsNotNegative
                   (nodes.Alternatives (nodes.Production_ prod))).
  { intros a [<-|[<-|[<-|[]]]]; reflexivity. }
  destruct (selectAlternative_first_at_least ruleGen
              (nodes.Productions grammar_three_weights)
              [nodes.Production_ prod] "S" prod s
              eq_refl eq_refl ltac:(discriminate))
    as (_ & _ & _ & (a & Hnth & Htry) & _ & _ & Hasc).
  destruct (Hasc Hpos) as (_ & (_ & _ & Hlt) & _ & Hat & Hbelow).
  split; [reflexivity|]. split; [reflexivity|].
  split; [apply Hlt; reflexivity|]. split; [reflexivity|].
  split; [apply (Hbelow 1); change (0 <= 1 < 2); lia|].
  split; [exact Hat|].
  rewrite Htry. vm_compute in Hnth. injection Hnth as <-. reflexivity.
Defined.

(** The grammar [S ::= x %0.5 | y %-0.3 | f %0.4 .] is accepted: its
    cumulative table is 0.5, 0.2, 0.6000000000000001, which is not
    ascending.  For the draw 0.5 the sample is 0.30000000000000004; the
    first entry, 0.5, is at least the sample, and the search passes over it
    and selects the third alternative, which generation returns.  And for
    the grammar [S ::= x %0 .] the mass is 0, so the sample is 0 and is
    not under the mass. *)
Lemma selectAlternative_passes_over_entry :
  (exists ps table prod,
     nodes.resolve (nodes.Productions grammar_negative_weight) []
     = Ok (ps, table)
     /\ nodes.rules_get "S" table = Some prod
     /\ nodes.totals prod
        = [0.5%float; 0.2%float; 0.6000000000000001%float]
     /\ nodes.max prod = 0.6000000000000001%float
     /\ fst (nodes.Float64 (nodes.mkRand (constantSource (2 ^ 52) 42 43) 0))
        = 0.5%float
     /\ (0.5 * nodes.max prod)%float = 0.30000000000000004%float
     /\ atLeast (entry (nodes.totals prod) 0) (0.5 * nodes.max prod)%float
        = true
     /\ nodes.selectAlternative (nodes.Production_ prod) prod 0.5%float = 2
     /\ fst (nodes.Grammar_Gen (constantSource (2 ^ 52))
               grammar_negative_weight (nodes.mkOptions 42 10 100))
        = Ok (nodes.component samplePos "f"))
  /\ (exists ps table prod,
        nodes.resolve (nodes.Productions grammar_zero_weight) []
        = Ok (ps, table)
        /\ nodes.rules_get "S" table = Some prod
        /\ nodes.max prod = 0%float
        /\ (0.5 * nodes.max prod)%float = 0%float
        /\ (0.5 * nodes.max prod <? nodes.max prod)%float = false).
Proof.
  split.
  - do 3 eexists. split; [vm_compute; reflexivity|].
    split; [reflexivity|]. repeat split; vm_compute; reflexivity.
  - do 3 eexists. split; [vm_compute; reflexivity|].
    split; [reflexivity|]. repeat split; vm_compute; reflexivity.
Qed.

(** The grammar [S ::= x %-0.5 .] is accepted with the mass -0.5: the
    sample -0.375 lies beyond the only entry, the search runs to the end
    of the table, and the selection is clamped to the alternative 0. *)
Example selectAlternative_clamps :
  exists ps table prod,
    nodes.resolve (nodes.Productions grammar_negative_mass) []
    = Ok (ps, table)
    /\ nodes.rules_get "S" table = Some prod
    /\ nodes.totals prod = [(-0.5)%float]
    /\ (0.75 * nodes.max prod)%float = (-0.375)%float
    /\ atLeast (entry (nodes.totals prod) 0) (0.75 * nodes.max prod)%float
       = false
    /\ fst (BinarySearch (nodes.totals prod) (0.75 * nodes.max prod)%float)
       = 1
    /\ nodes.selectAlternative (nodes.Production_ prod) prod 0.75%float = 0.
Proof.
  do 3 eexists. split; [vm_compute; reflexivity|].
  split; [reflexivity|]. repeat split; vm_compute; reflexivity.
Qed.

(** The bound on the mass under which the sample stays strictly below it
    is sharp: for the largest draw, [1 - 2^-53], and the mass [2^-1022],
    the smallest normal number, the product rounds to the mass itself, as
    it does for the draw 0.75 and the smallest positive mass, [2^-1074]. *)
Example sample_reaches_smallest_normal_mass :
  fst (nodes.Float64
         (nodes.mkRand (constantSource (2 ^ 53 - 1) 42 43) 0))
  = 0x1.fffffffffffffp-1%float
  /\ (0x1.fffffffffffffp-1 * 0x1p-1022)%float = 0x1p-1022%float
  /\ (0.75 * 0x1p-1074)%float = 0x1p-1074%float.
Proof. vm_compute. repeat split; reflexivity. Qed.
